(** * at-utils: dependency and release resolution (src/lib/Utils.js)

    A shallow embedding of the four parts of [Utils.js] that carry data:
    the recursive tree scanner ([getConfigSchemaPathsRecursive],
    [getAdaptDepsRecursive]), the schema collector ([getSchemas]), the
    dependency aggregator ([getAppDependencies], [processDeps]) and the
    release selector ([githubRequest], [getReleases]).

    Conventions.
    - A JS object used as a dictionary is a [gmap string _]: the
      properties proved here only look keys up, so enumeration order is
      abstracted. Keys are assumed not to collide with members of
      [Object.prototype].
    - A rejected promise or a thrown exception is the [Throw] case of
      [result]; [await] is the bind of that monad.
    - The callbacks handed to [Promise.all] are run one after the other in
      the order of the list they are mapped over, which stands for the
      order in which their I/O completes. *)

From stdpp Require Import base option list numbers sorting strings gmap fin_maps.
From Stdlib Require Import ZArith Lia.

Local Open Scope string_scope.
Local Open Scope list_scope.

(** ** Exceptions *)

Inductive error :=
  | Error (message : string)
  | TypeError.

Inductive result (A : Type) :=
  | Ok (a : A)
  | Throw (e : error).
Arguments Ok {A} a.
Arguments Throw {A} e.

Global Instance result_bind : MBind result := λ A B k r,
  match r with
  | Ok a => k a
  | Throw e => Throw e
  end.

(** [for (const x of l) acc = await f(acc, x)], stopping at the first
    rejection. *)
Fixpoint foldM {A B} (f : A → B → result A) (a : A) (l : list B) : result A :=
  match l with
  | [] => Ok a
  | x :: l => a' ← f a x; foldM f a' l
  end.

Lemma bind_Ok_inv {A B} (r : result A) (k : A → result B) b :
  r ≫= k = Ok b → ∃ a, r = Ok a ∧ k a = Ok b.
Proof. destruct r; simpl; [eauto | discriminate]. Qed.

(** ** Tree scanner *)

Module Scanner.

(** An absolute path, as the list of its segments below the filesystem
    root. [path.resolve(dir, c)] for a directory entry [c] appends a
    segment and [path.dirname] drops the last one. *)
Definition path := list string.

Definition resolve (dir : path) (c : string) : path := dir ++ [c].

Definition dirname (p : path) : path := removelast p.

(** The string Node hands to [endsWith] (POSIX separators). *)
Fixpoint segments (p : path) : string :=
  match p with
  | [] => ""
  | c :: p => "/" +:+ c +:+ segments p
  end.

Definition to_string (p : path) : string :=
  match p with
  | [] => "/"
  | _ => segments p
  end.

(** [String.prototype.endsWith]. *)
Definition endsWith (s searchString : string) : bool :=
  let n := String.length s in
  let m := String.length searchString in
  if (m <=? n)%nat
  then String.eqb (String.substring (n - m) m s) searchString
  else false.

(** What [fs.stat] and [fs.readdir] find at a path: something that is not a
    directory, a directory with its entries, or an entry for which [stat] or
    [readdir] rejects with [e]. The tree is finite: cycles of symbolic
    links, on which the source does not terminate, are left out. *)
Unset Elimination Schemes.
Inductive node :=
  | File
  | Dir (contents : list (string * node))
  | Faulty (e : error).
Set Elimination Schemes.

(** The callback of [contents.map] applied to the entry found at
    [fullPath], the recursive call inlined: a directory is read and each
    of its entries visited, anything else is handed to [visit], which says
    what is pushed on the shared accumulator. *)
Fixpoint walk (visit : path → list path) (fullPath : path) (n : node)
    : result (list path) :=
  match n with
  | File => Ok (visit fullPath)
  | Faulty e => Throw e
  | Dir contents =>
      foldr (λ c found,
               here ← walk visit (resolve fullPath c.1) c.2;
               rest ← found;
               Ok (here ++ rest))
            (Ok []) contents
  end.

(** The [Dir] case of [walk]: [Promise.all(contents.map(...))]. *)
Definition walk_contents (visit : path → list path) (dir : path)
    (contents : list (string * node)) : result (list path) :=
  foldr (λ c found,
           here ← walk visit (resolve dir c.1) c.2;
           rest ← found;
           Ok (here ++ rest))
        (Ok []) contents.

(** [fs.readdir(dir)] at the root of the scan rejects unless [dir] is a
    directory. *)
Definition scan (visit : path → list path) (dir : path) (n : node)
    : result (list path) :=
  match n with
  | File => Throw (Error "ENOTDIR")
  | _ => walk visit dir n
  end.

Definition relativeSchemaPath : string := "conf/config.schema.json".
Definition metaFilename : string := "adapt-authoring.json".

(** [if (fullPath.endsWith(relativeSchemaPath)) files.push(fullPath)] *)
Definition getConfigSchemaPathsRecursive (dir : path) (n : node) : result (list path) :=
  scan (λ fullPath,
          if endsWith (to_string fullPath) relativeSchemaPath then [fullPath] else [])
       dir n.

(** [if (fullPath.endsWith(metaFilename)) dirs.push(path.dirname(fullPath))] *)
Definition getAdaptDepsRecursive (dir : path) (n : node) : result (list path) :=
  scan (λ fullPath,
          if endsWith (to_string fullPath) metaFilename then [dirname fullPath] else [])
       dir n.

(** [file_at n rel]: below [n], the relative path [rel] leads to an entry
    that is not a directory. *)
Inductive file_at : node → list string → Prop :=
  | file_here : file_at File []
  | file_below contents c sub rel :
      (c, sub) ∈ contents → file_at sub rel → file_at (Dir contents) (c :: rel).

(** Every [stat] and [readdir] below [n] succeeds. *)
Fixpoint readable (n : node) : bool :=
  match n with
  | File => true
  | Faulty _ => false
  | Dir contents => forallb (λ c, readable c.2) contents
  end.

Definition is_dir (n : node) : bool :=
  match n with
  | Dir _ => true
  | _ => false
  end.

(** A sample [node_modules]:
<<
  adapt-authoring-core/adapt-authoring.json
  adapt-authoring-core/package.json
  adapt-authoring-core/conf/config.schema.json
  lodash/package.json
  lodash/conf/readme.md
>> *)
Definition sample_modules : node :=
  Dir [("adapt-authoring-core",
          Dir [("adapt-authoring.json", File);
               ("package.json", File);
               ("conf", Dir [("config.schema.json", File)])]);
       ("lodash",
          Dir [("package.json", File);
               ("conf", Dir [("readme.md", File)])])].

Definition sample_root : path := ["srv"; "app"; "node_modules"].

End Scanner.

(** ** Dependency aggregator *)

Module Deps.

(** The fields of a [package.json] that [getAppDependencies] and
    [getSchemas] destructure. [dependencies] and [devDependencies] are
    [None] when the key is absent (the default parameter [deps = {}] then
    applies); otherwise they hold [Object.entries] of the object. A
    manifest here has a [version]: on a [package.json] without one,
    [processDeps] fails on [undefined.length], which is left out. *)
Record manifest := {
  name : string;
  version : string;
  description : option string;
  dependencies : option (list (string * string));
  devDependencies : option (list (string * string))
}.

(** [deps] while the manifests are being merged (lines 274-286). *)
Record memos := {
  m_adapt : gmap string string;
  m_all : gmap string (list string);
  m_dev : gmap string (list string)
}.

(** A value of [deps.adapt], [deps.all] or [deps.dev] once [processDeps]
    has run: a string, or an array of strings. *)
Inductive value :=
  | VStr (s : string)
  | VArr (l : list string).

Record DependencySet := {
  adapt : gmap string value;
  all : gmap string value;
  dev : gmap string value
}.

(** [Array.prototype.sort()] without comparator on an array of strings:
    ascending order of code units. *)
Definition sort (arr : list string) : list string := merge_sort String.le arr.

Definition includes (arr : list string) (v : string) : bool :=
  bool_decide (v ∈ arr).

(** Lines 281-283:
<<
  if (!memo[k]) memo[k] = []
  if (!memo[k].includes(v)) memo[k].push(v)
  memo[k] = memo[k].sort()
>>
    [memo] holds the properties that were assigned. For a name that is a
    member of [Object.prototype] ([constructor], [toString], ...)
    [memo[k]] is inherited and has no [includes], so that the source fails
    there; such names are left out. *)
Definition addDep (memo : gmap string (list string)) (kv : string * string)
    : gmap string (list string) :=
  let arr := default [] (memo !! kv.1) in
  let arr := if includes arr kv.2 then arr else arr ++ [kv.2] in
  <[kv.1 := sort arr]> memo.

(** Line 279-280: [([deps = {}, memo]) => Object.entries(deps).forEach(...)]. *)
Definition addDeps (deps : option (list (string * string)))
    (memo : gmap string (list string)) : gmap string (list string) :=
  foldl addDep memo (default [] deps).

(** The body of the callback of line 276, after the manifest is read. *)
Definition addPlugin (deps : memos) (m : manifest) : memos :=
  {| m_adapt := <[name m := version m]> (m_adapt deps);
     m_all := addDeps (dependencies m) (m_all deps);
     m_dev := addDeps (devDependencies m) (m_dev deps) |}.

(** [versions = v[d]; if (v[d].length === 1) versions = v[d][0]]. On a
    string of length one, [v[d][0]] is its only character. *)
Definition collapse (v : value) : value :=
  match v with
  | VArr [x] => VStr x
  | VArr l => VArr l
  | VStr s => if Nat.eqb (String.length s) 1 then VStr (String.substring 0 1 s) else VStr s
  end.

(** [processDeps]: every member of [deps] is rebuilt key by key (in sorted
    key order), each value collapsed. *)
Definition processDeps (deps : memos) : DependencySet :=
  {| adapt := collapse <$> (VStr <$> m_adapt deps);
     all := collapse <$> (VArr <$> m_all deps);
     dev := collapse <$> (VArr <$> m_dev deps) |}.

Definition no_deps : memos := {| m_adapt := ∅; m_all := ∅; m_dev := ∅ |}.

(** Lines 274-292 of [getAppDependencies], for the manifests [ms] in the
    order in which their reads complete. Only [deps.all] is scanned by the
    final loop. *)
Definition appDependencies (ms : list manifest) : DependencySet :=
  let deps := processDeps (foldl addPlugin no_deps ms) in
  {| adapt := adapt deps;
     all := filter (λ kv, adapt deps !! kv.1 = None) (all deps);
     dev := dev deps |}.

Section io.
Import Scanner.

(** [JSON.parse(await fs.readFile(file))]: the manifest stored in
    [file], [None] when reading or parsing fails. *)
Variable readManifest : path → option manifest.

(** [getAppDependencies]. The manifests are merged in the order of
    [adaptDeps]; a failed read rejects the whole call, and
    [Error "package.json"] stands for the error of [readFile] or of
    [JSON.parse], which the source passes on as it is. *)
Definition getAppDependencies (cwd : path) (modules : node) : result DependencySet :=
  adaptDeps ← getAdaptDepsRecursive (resolve cwd "node_modules") modules;
  deps ← foldM (λ deps d,
                  match readManifest (resolve d "package.json") with
                  | Some m => Ok (addPlugin deps m)
                  | None => Throw (Error "package.json")
                  end)
               no_deps adaptDeps;
  let deps := processDeps deps in
  Ok {| adapt := adapt deps;
        all := filter (λ kv, adapt deps !! kv.1 = None) (all deps);
        dev := dev deps |}.
End io.

(** Every [(name, specifier)] pair that [f] ([dependencies] or
    [devDependencies]) holds in some manifest, in the order of the merge. *)
Definition declared (f : manifest → option (list (string * string)))
    (ms : list manifest) : list (string * string) :=
  ms ≫= (λ m, default [] (f m)).

(** "Specifier [v] was observed for dependency [k]": some discovered plugin
    declares [k] with [v] under [f]. *)
Definition observed (f : manifest → option (list (string * string)))
    (ms : list manifest) (k v : string) : Prop :=
  ∃ m, m ∈ ms ∧ (k, v) ∈ default [] (f m).

(** Exactly one distinct specifier was observed. *)
Definition exactly_one (obs : string → Prop) : Prop :=
  ∃ v, ∀ w, obs w ↔ w = v.

(** The value the aggregator reports for a dependency whose observed
    specifiers are [obs]: the bare specifier when there is exactly one,
    otherwise the sorted array of the distinct specifiers. *)
Definition reported (obs : string → Prop) (val : value) : Prop :=
  (∀ v, (∀ w, obs w ↔ w = v) → val = VStr v) ∧
  (¬ exactly_one obs →
     ∃ l, val = VArr l ∧ Sorted String.le l ∧ NoDup l ∧ ∀ w, w ∈ l ↔ obs w).

(** No two discovered plugins share a name and differ in version. *)
Definition versions_agree (ms : list manifest) : Prop :=
  ∀ m1 m2, m1 ∈ ms → m2 ∈ ms → name m1 = name m2 → version m1 = version m2.

(** Sample manifests. *)
Definition plugin_core : manifest :=
  {| name := "adapt-authoring-core"; version := "1.0.0";
     description := Some "Core of the authoring tool";
     dependencies := Some [("lodash", "^1.0.0"); ("glob", "^8.0.0")];
     devDependencies := Some [("standard", "^17.0.0")] |}.

Definition plugin_auth : manifest :=
  {| name := "adapt-authoring-auth"; version := "0.3.1";
     description := None;
     dependencies := Some [("lodash", "^2.0.0"); ("glob", "^8.0.0");
                           ("adapt-authoring-core", "^1.0.0")];
     devDependencies := Some [("adapt-authoring-core", "^1.0.0")] |}.

(** A second copy of the core plugin, nested under another package. *)
Definition plugin_core_nested : manifest :=
  {| name := "adapt-authoring-core"; version := "0.9.0";
     description := None;
     dependencies := None; devDependencies := None |}.

End Deps.

(** ** Schema collector *)

Module Schemas.
Import Scanner.

(** A parsed JSON document, or an object literal of the source. *)
Unset Elimination Schemes.
Inductive json :=
  | JNull
  | JBool (b : bool)
  | JNum (n : Z)
  | JStr (s : string)
  | JArr (items : list json)
  | JObj (members : list (string * json)).
Set Elimination Schemes.

Record ConfigSchemaEntry := {
  name : string;
  description : option string;
  version : string;
  schema : json
}.

Record schemas := {
  config : gmap string ConfigSchemaEntry;
  user : json
}.

Section io.
(** The manifest, respectively the JSON document, that
    [JSON.parse(await fs.readFile(filePath))] yields; [None] when the
    read or the parse throws. *)
Variable readManifest : path → option Deps.manifest.
Variable readJson : path → option json.

Definition loadJson (filePath : path) : result json :=
  match readJson filePath with
  | Some j => Ok j
  | None => Throw (Error ("Failed to load " +:+ to_string filePath))
  end.

Definition loadPackage (filePath : path) : result Deps.manifest :=
  match readManifest (resolve filePath "package.json") with
  | Some m => Ok m
  | None =>
      Throw (Error ("Failed to load " +:+ to_string (resolve filePath "package.json")))
  end.

(** The callback of lines 154-158, for the schema file [s]. *)
Definition addSchema (config : gmap string ConfigSchemaEntry) (s : path)
    : result (gmap string ConfigSchemaEntry) :=
  pkg ← loadPackage (dirname (dirname s));
  schema ← loadJson s;
  Ok (<[Deps.name pkg :=
          {| name := Deps.name pkg;
             description := Deps.description pkg;
             version := Deps.version pkg;
             schema := schema |}]> config).

Definition getSchemas (rootDir : path) (modules : node) : result schemas :=
  configSchemaPaths ←
    getConfigSchemaPathsRecursive (resolve rootDir "node_modules") modules;
  config ← foldM addSchema ∅ configSchemaPaths;
  Ok {| config := config;
        user :=
          JObj [("properties", JObj [
            ("superUser", JObj [
              ("title", JStr "superuser");
              ("type", JStr "object");
              ("properties", JObj [
                ("email", JObj [("description", JStr "Email address for the user");
                                ("type", JStr "string");
                                ("format", JStr "email")]);
                ("password", JObj [("description", JStr "Password for the user");
                                   ("type", JStr "string");
                                   ("format", JStr "password")]);
                ("confirmPassword", JObj [("description", JStr "Re-enter password");
                                          ("type", JStr "string");
                                          ("format", JStr "password")])]);
              ("required", JArr [JStr "email"; JStr "password";
                                 JStr "confirmPassword"])])])] |}.
End io.

(** Reading a JSON object: the value of a member, and the member names in
    order. *)
Fixpoint assoc (k : string) (members : list (string * json)) : option json :=
  match members with
  | [] => None
  | (k', v) :: members => if String.eqb k k' then Some v else assoc k members
  end.

Definition member (k : string) (j : json) : option json :=
  match j with
  | JObj members => assoc k members
  | _ => None
  end.

Definition keys (j : json) : list string :=
  match j with
  | JObj members => members.*1
  | _ => []
  end.

(** [user] holds the super-user registration schema: under
    [properties.superUser], the properties are [email], [password] and
    [confirmPassword], each of type string, and all three are required. *)
Definition superuser_registration (user : json) : Prop :=
  ∃ superUser properties,
    member "properties" user ≫= member "superUser" = Some superUser ∧
    member "properties" superUser = Some properties ∧
    keys properties = ["email"; "password"; "confirmPassword"] ∧
    (∀ k, k ∈ keys properties →
          member k properties ≫= member "type" = Some (JStr "string")) ∧
    member "required" superUser
      = Some (JArr [JStr "email"; JStr "password"; JStr "confirmPassword"]).

(** Every file of interest found below the root can be loaded. *)
Definition loadable (readManifest : path → option Deps.manifest)
    (readJson : path → option json) (s : path) : Prop :=
  is_Some (readManifest (resolve (dirname (dirname s)) "package.json")) ∧
  is_Some (readJson s).

(** Sample file contents for [Scanner.sample_modules]. *)
Definition sample_manifests (file : path) : option Deps.manifest :=
  if decide (file = ["srv"; "app"; "node_modules"; "adapt-authoring-core"; "package.json"])
  then Some Deps.plugin_core else None.

Definition sample_documents (file : path) : option json :=
  if decide (file = ["srv"; "app"; "node_modules"; "adapt-authoring-core"; "conf";
                     "config.schema.json"])
  then Some (JObj [("type", JStr "object")]) else None.

End Schemas.

(** ** Release selector *)

Module Releases.

(** The time value of a [Date]; [None] is NaN, the value of an Invalid
    Date. A [date] property is an [option time]: [None] when the property
    is [undefined], which compares like NaN. *)
Definition time := option Z.

Record options := {
  currentVersion : option string;
  cwd : string;
  includeBranches : bool;
  includePrereleases : bool;
  includeDrafts : bool
}.

(** What the remote host returns: an element of [GET releases], an element
    of [GET branches], and the body of a commit lookup. [r_published_at] is
    [None] for JSON [null]. *)
Record release := {
  r_name : string;
  r_tag_name : string;
  r_draft : bool;
  r_prerelease : bool;
  r_published_at : option string
}.

Record branch_info := {
  b_name : string;
  b_commit_url : string
}.

Record commit_info := {
  author_date : string
}.

Record response (A : Type) := {
  status : Z;
  statusText : string;
  json : A
}.
Arguments status {A} _.
Arguments statusText {A} _.
Arguments json {A} _.

(** The collaborators of [getReleases]: [exec('git log -1 --format=%cd')]
    in a directory, and [fetch] on the three kinds of endpoint. A [Throw]
    is a rejected promise (a failed command, a transport failure). *)
Record world := {
  git_log : string → result string;
  fetch_releases : result (response (list release));
  fetch_branches : result (response (list branch_info));
  fetch_commit : string → result (response commit_info)
}.

(** An element of the [releases] array. A property that the object does
    not have is [None]. *)
Record candidate := {
  name : string;
  tag_name : string;
  published_at : option string;
  draft : option bool;
  prerelease : option bool;
  branch : option bool;
  date : option time
}.

Definition of_release (r : release) : candidate :=
  {| name := r_name r;
     tag_name := r_tag_name r;
     published_at := r_published_at r;
     draft := Some (r_draft r);
     prerelease := Some (r_prerelease r);
     branch := None;
     date := None |}.

Definition truthy (b : option bool) : bool := default false b.

(** [a < b] on two [date] properties. *)
Definition date_lt (a b : option time) : bool :=
  match a, b with
  | Some (Some x), Some (Some y) => (x <? y)%Z
  | _, _ => false
  end.

(** [githubRequest], the response of [fetch] given. *)
Definition githubRequest {A} (fetched : result (response A)) : result (option A) :=
  fetched ≫= λ response : response A,
  if (299 <? status response)%Z then Throw (Error (statusText response))
  else if bool_decide (status response ≠ 204%Z) then Ok (Some (json response))
  else Ok None.

(** [url.slice(url.indexOf('commits/'))]; [indexOf] gives [-1] when there
    is no match, and [slice(-1)] the last character. *)
Definition commit_endpoint (url : string) : string :=
  match String.index 0 "commits/" url with
  | Some i => String.substring i (String.length url - i) url
  | None => String.substring (String.length url - 1) 1 url
  end.

(** [Array.prototype.sort(compareFn)], as the engine of Node sorts an
    array of fewer than 64 elements: the whole array is one run. The
    longest run at the front is found and, when it is strictly descending,
    reversed; every other element is then put in place by binary
    insertion. The request for the releases asks for 10 of them and the
    host lists 30 branches a page, which keeps the array far below 64
    elements; the merging of several runs, which the engine does for longer
    arrays, is not part of this model. *)

(** How many elements of [arr], which follows [previous], continue the
    run. *)
Fixpoint runLength {A} (compareFn : A → A → Z) (isDescending : bool)
    (previous : A) (arr : list A) : nat :=
  match arr with
  | [] => 0
  | current :: arr =>
      let order := compareFn current previous in
      if isDescending then
        if (order <? 0)%Z then S (runLength compareFn isDescending current arr)
        else 0
      else
        if (order <? 0)%Z then 0
        else S (runLength compareFn isDescending current arr)
  end.

(** The run at the front, made ascending, and the elements after it. *)
Definition countAndMakeRun {A} (compareFn : A → A → Z) (arr : list A)
    : list A * list A :=
  match arr with
  | elementHigh :: elementLow :: rest =>
      let isDescending := (compareFn elementLow elementHigh <? 0)%Z in
      let n := 2 + runLength compareFn isDescending elementLow rest in
      (if isDescending then reverse (take n arr) else take n arr, drop n arr)
  | _ => (arr, [])
  end.

(** The loop that finds where [pivot] belongs among [sorted], between
    [left] and [right]; [mid] is [left + ((right - left) >> 1)]. *)
Fixpoint binarySearch {A} (fuel : nat) (compareFn : A → A → Z) (pivot : A)
    (sorted : list A) (left right : nat) : nat :=
  match fuel with
  | 0 => left
  | S fuel =>
      if (left <? right)%nat then
        let mid := left + (right - left) / 2 in
        match sorted !! mid with
        | Some x =>
            if (compareFn pivot x <? 0)%Z
            then binarySearch fuel compareFn pivot sorted left mid
            else binarySearch fuel compareFn pivot sorted (S mid) right
        | None => left
        end
      else left
  end.

Definition insertPivot {A} (compareFn : A → A → Z) (sorted : list A) (pivot : A)
    : list A :=
  let left := binarySearch (length sorted) compareFn pivot sorted 0 (length sorted) in
  take left sorted ++ pivot :: drop left sorted.

Definition binaryInsertionSort {A} (compareFn : A → A → Z) (sorted rest : list A)
    : list A :=
  foldl (insertPivot compareFn) sorted rest.

Definition sortWith {A} (compareFn : A → A → Z) (arr : list A) : list A :=
  let '(run, rest) := countAndMakeRun compareFn arr in
  binaryInsertionSort compareFn run rest.

(** [x] stands directly before [y] on the strength of a comparison of
    the two: [y] was not put before [x], or [x] was put before [y]. *)
Definition placed {A} (compareFn : A → A → Z) (x y : A) : Prop :=
  (0 ≤ compareFn y x)%Z ∨ (compareFn x y < 0)%Z.

Section selector.
(** [semver.valid(v)] is not [null]; [semver.gt(a, b)]; the time value of
    [new Date(s)] for a string [s]. *)
Variable semver_valid : string → bool.
Variable semver_gt : string → string → bool.
Variable Date_parse : string → time.

(** [new Date(v)]: [new Date(null)] is the epoch. *)
Definition new_Date (v : option string) : time :=
  match v with
  | Some s => Date_parse s
  | None => Some 0%Z
  end.

(** Lines 70-73. *)
Definition currentVersionDate (w : world) (options : options) : option time :=
  match git_log w (cwd options) with
  | Ok stdout => Some (Date_parse stdout)
  | Throw _ => None
  end.

(** The callback of line 77 for branch [b]; [releases] is [None] when
    the first request was answered with status 204. *)
Definition addBranch (w : world) (releases : option (list candidate))
    (b : branch_info) : result (option (list candidate)) :=
  githubRequest (fetch_commit w (commit_endpoint (b_commit_url b)))
    ≫= λ body : option commit_info,
  match body, releases with
  | Some commit, Some releases =>
      Ok (Some (releases ++ [{| name := b_name b +:+ " (branch)";
                                tag_name := b_name b;
                                published_at := Some (author_date commit);
                                draft := None;
                                prerelease := None;
                                branch := Some true;
                                date := None |}]))
  | _, _ => Throw TypeError
  end.

(** Lines 76-86. *)
Definition fetchBranches (w : world) (options : options)
    (releases : option (list candidate)) : result (option (list candidate)) :=
  if includeBranches options then
    githubRequest (fetch_branches w) ≫= λ branches : option (list branch_info),
    match branches with
    | Some branches => foldM (addBranch w) releases branches
    | None => Throw TypeError
    end
  else Ok releases.

(** Lines 74-87: the array on which [map] is called. *)
Definition fetchCandidates (w : world) (options : options) : result (list candidate) :=
  githubRequest (fetch_releases w) ≫= λ releases : option (list release),
  fetchBranches w options (map of_release <$> releases)
    ≫= λ releases : option (list candidate),
  match releases with
  | Some releases => Ok releases
  | None => Throw TypeError
  end.

(** The callback of [map], lines 88-93. *)
Definition annotate (r : candidate) : candidate :=
  {| name := name r +:+ (if truthy (draft r) then " (draft)"
                         else if truthy (prerelease r) then " (prerelease)"
                         else "");
     tag_name := tag_name r;
     published_at := published_at r;
     draft := draft r;
     prerelease := prerelease r;
     branch := branch r;
     date := Some (new_Date (published_at r)) |}.

(** The callback of [filter], lines 94-102. *)
Definition keep (options : options) (currentVersionDate : option time)
    (r : candidate) : bool :=
  if bool_decide (Some (tag_name r) = currentVersion options)
     || (truthy (prerelease r) && negb (includePrereleases options))
     || (truthy (draft r) && negb (includeDrafts options))
  then false
  else
    let noCurrent :=
      match currentVersion options with
      | Some v => String.eqb v ""
      | None => true
      end in
    let semverNewer :=
      match currentVersion options with
      | Some v => semver_valid v && semver_valid (tag_name r) && semver_gt (tag_name r) v
      | None => false
      end in
    let gitNewer := date_lt currentVersionDate (date r) in
    noCurrent || semverNewer || gitNewer.

(** [(a, b) => a.date < b.date ? 1 : -1] *)
Definition byDate (a b : candidate) : Z :=
  if date_lt (date a) (date b) then 1%Z else (-1)%Z.

(** Lines 87-103. *)
Definition selectReleases (options : options) (currentVersionDate : option time)
    (releases : list candidate) : list candidate :=
  sortWith byDate (filter (λ r, keep options currentVersionDate r)
                          (annotate <$> releases)).

Definition getReleases (w : world) (options : options) : result (list candidate) :=
  let currentVersionDate := currentVersionDate w options in
  releases ← fetchCandidates w options;
  Ok (selectReleases options currentVersionDate releases).

(** *** The selection rules, in the words of the specification *)

(** No current version is given: the option is absent or empty. *)
Definition no_current (options : options) : Prop :=
  currentVersion options = None ∨ currentVersion options = Some "".

Definition excluded (options : options) (r : candidate) : Prop :=
  currentVersion options = Some (tag_name r) ∨
  (prerelease r = Some true ∧ includePrereleases options = false) ∨
  (draft r = Some true ∧ includeDrafts options = false).

Definition semver_newer (options : options) (r : candidate) : Prop :=
  ∃ v, currentVersion options = Some v ∧ semver_valid v = true ∧
       semver_valid (tag_name r) = true ∧ semver_gt (tag_name r) v = true.

(** The candidate's date is strictly after a known current date. *)
Definition date_newer (currentVersionDate : option time) (r : candidate) : Prop :=
  ∃ x y, currentVersionDate = Some (Some x) ∧ date r = Some (Some y) ∧ (x < y)%Z.

Definition retained (options : options) (currentVersionDate : option time)
    (r : candidate) : Prop :=
  no_current options ∨ semver_newer options r ∨ date_newer currentVersionDate r.

(** The candidate that the selector builds for branch [b]. *)
Definition branch_candidate (w : world) (b : branch_info) (r : candidate) : Prop :=
  ∃ response,
    fetch_commit w (commit_endpoint (b_commit_url b)) = Ok response ∧
    name r = b_name b +:+ " (branch)" ∧
    tag_name r = b_name b ∧
    date r = Some (Date_parse (author_date (json response))) ∧
    branch r = Some true ∧
    draft r = None ∧
    prerelease r = None.

(** Some request that the selector makes is answered with a status above
    299. *)
Definition non_success {A} (fetched : result (response A)) : Prop :=
  ∃ response, fetched = Ok response ∧ (299 < status response)%Z.

Inductive request_fails (w : world) (options : options) : Prop :=
  | releases_fail :
      non_success (fetch_releases w) → request_fails w options
  | branches_fail :
      includeBranches options = true →
      non_success (fetch_branches w) → request_fails w options
  | commit_fails branches b :
      includeBranches options = true →
      githubRequest (fetch_branches w) = Ok (Some branches) →
      b ∈ branches →
      non_success (fetch_commit w (commit_endpoint (b_commit_url b))) →
      request_fails w options.
End selector.

(** [a] occurs before [b] in the array. *)
Definition precedes {A} (arr : list A) (a b : A) : Prop :=
  ∃ i j, arr !! i = Some a ∧ arr !! j = Some b ∧ i < j.

Definition with_flags (includePrereleases includeDrafts : bool) (o : options)
    : options :=
  {| currentVersion := currentVersion o;
     cwd := cwd o;
     includeBranches := includeBranches o;
     includePrereleases := includePrereleases;
     includeDrafts := includeDrafts |}.

(** *** Sample data *)

Definition sample_valid (v : string) : bool :=
  bool_decide (v ∈ ["3.1.0"; "3.2.0"; "3.3.0"]).

Definition sample_gt (a b : string) : bool := String.ltb b a.

Definition sample_parse (s : string) : time :=
  if String.eqb s "Sat Feb 10 00:00:00 2024 +0000" then Some 1707523200000%Z
  else if String.eqb s "2024-01-10T00:00:00Z" then Some 1704844800000%Z
  else if String.eqb s "2024-02-10T00:00:00Z" then Some 1707523200000%Z
  else if String.eqb s "2024-03-10T00:00:00Z" then Some 1710028800000%Z
  else if String.eqb s "2024-04-10T00:00:00Z" then Some 1712707200000%Z
  else None.

Definition sample_releases : list release :=
  [ {| r_name := "v3.3.0"; r_tag_name := "3.3.0"; r_draft := false;
       r_prerelease := false; r_published_at := Some "2024-03-10T00:00:00Z" |};
    {| r_name := "v3.2.0"; r_tag_name := "3.2.0"; r_draft := false;
       r_prerelease := false; r_published_at := Some "2024-02-10T00:00:00Z" |};
    {| r_name := "v3.1.0"; r_tag_name := "3.1.0"; r_draft := false;
       r_prerelease := true; r_published_at := Some "2024-01-10T00:00:00Z" |} ].

Definition sample_branches : list branch_info :=
  [ {| b_name := "master";
       b_commit_url := "https://api.github.com/repos/adapt-security/adapt-authoring/commits/abc" |} ].

(** A checkout of 3.2.0 whose last commit is dated 2024-02-10. *)
Definition sample_world : world :=
  {| git_log := λ _, Ok "Sat Feb 10 00:00:00 2024 +0000";
     fetch_releases := Ok {| status := 200; statusText := "OK"; json := sample_releases |};
     fetch_branches := Ok {| status := 200; statusText := "OK"; json := sample_branches |};
     fetch_commit := λ _,
       Ok {| status := 200; statusText := "OK";
             json := {| author_date := "2024-04-10T00:00:00Z" |} |} |}.

(** The same remote host, outside of a checkout. *)
Definition sample_world_no_git : world :=
  {| git_log := λ _, Throw (Error "fatal: not a git repository");
     fetch_releases := fetch_releases sample_world;
     fetch_branches := fetch_branches sample_world;
     fetch_commit := fetch_commit sample_world |}.

(** The remote host refuses the commit lookups. *)
Definition sample_world_forbidden : world :=
  {| git_log := git_log sample_world;
     fetch_releases := fetch_releases sample_world;
     fetch_branches := fetch_branches sample_world;
     fetch_commit := λ _,
       Ok {| status := 403; statusText := "Forbidden";
             json := {| author_date := "" |} |} |}.

Definition sample_options : options :=
  {| currentVersion := Some "3.2.0"; cwd := "/srv/app";
     includeBranches := true; includePrereleases := false; includeDrafts := false |}.

(** What the selector returns for [sample_world] and [sample_options]. *)
Definition sample_master : candidate :=
  {| name := "master (branch)"; tag_name := "master";
     published_at := Some "2024-04-10T00:00:00Z";
     draft := None; prerelease := None; branch := Some true;
     date := Some (Some 1712707200000%Z) |}.

Definition sample_330 : candidate :=
  {| name := "v3.3.0"; tag_name := "3.3.0";
     published_at := Some "2024-03-10T00:00:00Z";
     draft := Some false; prerelease := Some false; branch := None;
     date := Some (Some 1710028800000%Z) |}.

(** A second branch, with the head commit of [sample_master]. *)
Definition sample_develop : candidate :=
  {| name := "develop (branch)"; tag_name := "develop";
     published_at := Some "2024-04-10T00:00:00Z";
     draft := None; prerelease := None; branch := Some true;
     date := Some (Some 1712707200000%Z) |}.

(** A release whose [published_at] does not parse: its date is an
    Invalid Date. *)
Definition undated (tag : string) : candidate :=
  {| name := tag; tag_name := tag; published_at := Some "soon";
     draft := Some false; prerelease := Some false; branch := None;
     date := Some None |}.

(** The oldest release, annotated. *)
Definition sample_310 : candidate :=
  {| name := "v3.1.0"; tag_name := "3.1.0";
     published_at := Some "2024-01-10T00:00:00Z";
     draft := Some false; prerelease := Some false; branch := None;
     date := Some (Some 1704844800000%Z) |}.

(** The installed version is a branch name, not a semantic version. *)
Definition sample_options_develop : options :=
  {| currentVersion := Some "develop"; cwd := "/srv/app";
     includeBranches := true; includePrereleases := true; includeDrafts := true |}.

End Releases.

(** ** Well-formed directory trees *)

Module Tree.
Import Scanner.

(** No directory lists the same name twice, as [fs.readdir] guarantees. *)
Fixpoint unique_names (n : node) : bool :=
  match n with
  | Dir contents =>
      bool_decide (NoDup contents.*1) && forallb (λ c, unique_names c.2) contents
  | _ => true
  end.

End Tree.

(** ** Request parsing *)

Module Query.
Import (notations) Stdlib.Strings.Ascii.

(** [c] occurs in [s]. *)
Fixpoint has_char (c : Ascii.ascii) (s : string) : bool :=
  match s with
  | "" => false
  | String c' s => Ascii.eqb c' c || has_char c s
  end.

(** [s.split(sep)] for a separator of one character: never empty. *)
Fixpoint split (sep : Ascii.ascii) (s : string) : list string :=
  match s with
  | "" => [""]
  | String c s =>
      if Ascii.eqb c sep then "" :: split sep s
      else match split sep s with
           | part :: parts => String c part :: parts
           | [] => [String c ""]
           end
  end.

(** The callback of [reduce]: [const [k, v] = s.split('=')] and
    [{ ...q, [k]: v }]; [v] is [undefined], here [None], when [s] has no
    ['=']. *)
Definition addParam (q : gmap string (option string)) (s : string)
    : gmap string (option string) :=
  match split "="%char s with
  | k :: v :: _ => <[k := Some v]> q
  | [k] => <[k := None]> q
  | [] => q
  end.

(** [parseQuery(req)]: [req.url] after the call, and the object
    returned. *)
Definition parseQuery (url : string) : string * gmap string (option string) :=
  match split "?"%char url with
  | url' :: query :: _ =>
      if String.eqb query "" then (url, ∅)
      else (url', foldl addParam ∅ (split "&"%char query))
  | _ => (url, ∅)
  end.

(** [k1=v1&k2=v2&...] *)
Definition render (params : list (string * string)) : string :=
  String.concat "&" ((λ kv, kv.1 +:+ "=" +:+ kv.2) <$> params).

(** A name or value that needs no escaping. *)
Definition plain (s : string) : Prop :=
  has_char "?"%char s = false ∧ has_char "&"%char s = false ∧
  has_char "="%char s = false.

End Query.

(** ** Request bodies *)

Module Body.

(** What the request stream emits. *)
Inductive event :=
  | on_data (chunk : string)
  | on_error (e : error)
  | on_end.

(** The value a call resolves with. *)
Inductive parsed :=
  | empty_object
  | undefined
  | document (j : Schemas.json).

Inductive promise :=
  | pending
  | resolved (v : parsed)
  | rejected (e : error).

(** [resolve] and [reject] have no effect on a settled promise. *)
Definition settle (p q : promise) : promise :=
  match p with
  | pending => q
  | _ => p
  end.

Section handlers.
(** [JSON.parse], [None] when it throws. *)
Variable JSON_parse : string → option Schemas.json.

(** One event delivered to the three listeners; [body] is their shared
    [const body = '']. The [data] listener evaluates [body.concat(data)]
    and drops the string it builds. An exception of [JSON.parse] in the
    [end] listener leaves the promise as it is. *)
Definition handle (st : string * promise) (ev : event) : string * promise :=
  let body := st.1 in
  match ev with
  | on_data chunk => (body, st.2)
  | on_error e => (body, settle st.2 (rejected e))
  | on_end =>
      if (0 <? String.length body)%nat then
        match JSON_parse body with
        | Some j => (body, settle st.2 (resolved (document j)))
        | None => (body, st.2)
        end
      else (body, settle st.2 (resolved undefined))
  end.

(** [parseBody(req)] for a request with method [method] whose stream
    emits [events]: the state of the returned promise afterwards. *)
Definition parseBody (method : string) (events : list event) : promise :=
  if String.eqb method "POST" then (foldl handle ("", pending) events).2
  else resolved empty_object.
End handlers.

(** The first [end] or [error] event decides. *)
Fixpoint outcome (events : list event) : promise :=
  match events with
  | [] => pending
  | on_data _ :: events => outcome events
  | on_error e :: _ => rejected e
  | on_end :: _ => resolved undefined
  end.

End Body.

(** ** Start commands *)

Module Start.
Import (notations) Stdlib.Strings.Ascii.

Definition newline : string := String (Ascii.ascii_of_nat 10) "".

(** [dir => `cd ${dir}\nnpm start`] *)
Definition getCmd (dir : string) : string :=
  "cd " +:+ dir +:+ newline +:+ "npm start".

(** [/^[A-Z]/] *)
Definition is_upper (c : Ascii.ascii) : bool :=
  (65 <=? Ascii.nat_of_ascii c)%nat && (Ascii.nat_of_ascii c <=? 90)%nat.

(** [toLowerCase] on the letters [A] to [Z]. *)
Definition toLowerCase (c : Ascii.ascii) : Ascii.ascii :=
  if is_upper c then Ascii.ascii_of_nat (Ascii.nat_of_ascii c + 32) else c.

(** [s.replaceAll(/\\/g, '/')] *)
Fixpoint replaceAll (s : string) : string :=
  match s with
  | "" => ""
  | String c s => String (if Ascii.eqb c "\"%char then "/"%char else c) (replaceAll s)
  end.

(** [s.slice(start)] for a non-negative [start]. *)
Definition slice (start : nat) (s : string) : string :=
  String.substring start (String.length s - start) s.

Record commands := {
  bash : string;
  windows : option string
}.

(** [getStartCommands(cwd)] when [process.platform] is [platform]. On
    Windows, [cwd.match(/^[A-Z]/)] is [null] unless [cwd] begins with a
    capital letter, and [null[0]] throws. *)
Definition getStartCommands (platform cwd : string) : result commands :=
  if String.eqb platform "win32" then
    match cwd with
    | String c _ =>
        if is_upper c then
          let driveLetter := String (toLowerCase c) "" in
          Ok {| bash := getCmd ("/" +:+ driveLetter +:+ "/" +:+ slice 3 (replaceAll cwd));
                windows := Some (getCmd cwd) |}
        else Throw TypeError
    | "" => Throw TypeError
    end
  else Ok {| bash := getCmd cwd; windows := None |}.

End Start.

(** ** Prerequisites *)

Module Prereq.

Section check.
(** [this.exec(command)] in the current directory; the first group of
    [data.match(/(\d+\.\d+\.\d+)\D/)], [None] for [null];
    [semver.satisfies(version, range)]. *)
Variable exec : string → result string.
Variable version_in : string → option string.
Variable satisfies : option string → string → bool.

(** [`${installedVersion}`] *)
Definition show (installedVersion : option string) : string :=
  default "null" installedVersion.

(** The callback of [Object.entries(prereqs).map]. *)
Definition checkOne (prereq : string * string) : result () :=
  let name := prereq.1 in
  let version := prereq.2 in
  match exec (name +:+ " --version") with
  | Throw _ => Throw (Error ("Missing prerequisite '" +:+ name +:+ "'"))
  | Ok data =>
      let installedVersion := version_in data in
      if satisfies installedVersion version then Ok ()
      else Throw (Error ("Installed version of " +:+ name +:+ " ("
                         +:+ show installedVersion
                         +:+ ") doesn't satisfy required version ("
                         +:+ version +:+ ")"))
  end.

Definition message (e : error) : string :=
  match e with
  | Error message => message
  | TypeError => ""
  end.

(** [(await Promise.allSettled(...)).filter(p => p.status === 'rejected')
    .map(p => p.reason)] *)
Definition failedPrereqs (prereqs : list (string * string)) : list error :=
  omap (λ p, match checkOne p with
             | Throw e => Some e
             | Ok _ => None
             end) prereqs.

Definition failureMessage (failed : list error) : string :=
  foldl (λ m e2, m +:+ "- " +:+ message e2 +:+ Start.newline)
        ("Prerequisite check failed:" +:+ Start.newline) failed.

Definition warnings : list string :=
  [ "WARNING: --ignore-prereqs flag passed so process will continue";
    "WARNING: If issues are encountered please make sure the correct prerequisites are installed"
      +:+ Start.newline ].

(** [checkPrerequisites(options)]: what is printed, and the outcome.
    [package] is what [loadPackage(cliRoot)] gives, with [None] for a
    manifest without [prerequisites], on which [Object.entries] throws. *)
Definition checkPrerequisites
    (package : result (option (list (string * string)))) (ignorePrereqs : bool)
    : list string * result () :=
  match package with
  | Throw e => ([], Throw e)
  | Ok None => ([], Throw TypeError)
  | Ok (Some prereqs) =>
      let failed := failedPrereqs prereqs in
      if (0 <? length failed)%nat then
        let msg := failureMessage failed in
        if ignorePrereqs then (msg :: warnings, Ok ())
        else ([], Throw (Error msg))
      else ([], Ok ())
  end.

(** The tool answers to [--version] with a version in the required range. *)
Definition met (prereq : string * string) : Prop :=
  ∃ data, exec (prereq.1 +:+ " --version") = Ok data ∧
          satisfies (version_in data) prereq.2 = true.
End check.

(** A machine with git 2.43 and node 16, where npm is not installed. *)
Definition sample_exec (command : string) : result string :=
  if String.eqb command "git --version" then Ok "git version 2.43.0 "
  else if String.eqb command "node --version" then Ok "v16.20.2 "
  else Throw (Error "command not found").

Definition sample_version_in (data : string) : option string :=
  if String.eqb data "git version 2.43.0 " then Some "2.43.0"
  else if String.eqb data "v16.20.2 " then Some "16.20.2"
  else None.

(** Git is recent enough, node is not. *)
Definition sample_satisfies (version : option string) (range : string) : bool :=
  bool_decide (version = Some "2.43.0").

Definition sample_prereqs : list (string * string) :=
  [("git", "2.x"); ("node", "18.x"); ("npm", "9.x")].

End Prereq.

(** ** Commands on the repository *)

Module Cli.

(** An exception, with the properties the source reads: [message],
    [code], [statusCode], and [data.errors] when [e.data] is an object
    ([None] when reading [e.data.errors] throws). *)
Record js_error := {
  message : string;
  code : option string;
  statusCode : option Z;
  data_errors : option string
}.

(** [new Error(message)] *)
Definition new_Error (message : string) : js_error :=
  {| message := message; code := None; statusCode := None; data_errors := None |}.

(** A promise once awaited; [Pending] when it never settles. *)
Inductive outcome (A : Type) :=
  | Fulfilled (a : A)
  | Rejected (e : js_error)
  | Pending.
Arguments Fulfilled {A} a.
Arguments Rejected {A} e.
Arguments Pending {A}.

(** What a call does to the outside world, in order. *)
Inductive action :=
  | Exec (command cwd : string)
  | Rm (path : string)
  | Log (line : string).

(** The outside world: what a child process prints, or the text of the
    error it ends with, and how [fs.rm] ends, given everything done
    before. *)
Record env := {
  run : list action → string → string → string + string;
  remove : list action → string → outcome ()
}.

(** A computation: from the actions done so far to the actions done
    afterwards and the result. *)
Definition sh (A : Type) : Type := list action → list action * outcome A.

Definition ret {A} (a : A) : sh A := λ h, (h, Fulfilled a).

Definition andThen {A B} (m : sh A) (k : A → sh B) : sh B := λ h,
  match m h with
  | (h', Fulfilled a) => k a h'
  | (h', Rejected e) => (h', Rejected e)
  | (h', Pending) => (h', Pending)
  end.

(** [try { await m } catch (e) { handler(e) }] *)
Definition catch {A} (m : sh A) (handler : js_error → sh A) : sh A := λ h,
  match m h with
  | (h', Rejected e) => handler e h'
  | settled => settled
  end.

Definition throw {A} (e : js_error) : sh A := λ h, (h, Rejected e).

(** [console.log(line)] *)
Definition log (line : string) : sh () := λ h, (h ++ [Log line], Fulfilled ()).

Section commands.
Variable E : env.
(** [process.cwd()] *)
Variable process_cwd : string.

(** [exec(command, cwd = process.cwd())]: rejects with
    [new Error(error || stderr)]. *)
Definition exec (command : string) (cwd : option string) : sh string := λ h,
  let dir := default process_cwd cwd in
  (h ++ [Exec command dir],
   match run E h command dir with
   | inl stdout => Fulfilled stdout
   | inr text => Rejected (new_Error text)
   end).

(** [fs.rm(path, { recursive: true })] *)
Definition rm (path : string) : sh () := λ h, (h ++ [Rm path], remove E h path).

(** [`${x}`] for a string that may be [undefined]. *)
Definition show (x : option string) : string := default "undefined" x.

(** [x || fallback] *)
Definition or_else (x : option string) (fallback : string) : string :=
  match x with
  | Some s => if String.eqb s "" then fallback else s
  | None => fallback
  end.

Definition GITHUB_ORG_URL : string := "https://github.com/adapt-security".
Definition GITHUB_REPO : string := "adapt-authoring".

Record options := {
  repo : option string;
  tag : option string;
  cwd : option string;
  cleanInstall : option bool
}.

Definition clone_url (o : options) : string :=
  GITHUB_ORG_URL +:+ "/" +:+ or_else (repo o) GITHUB_REPO +:+ ".git".

Definition clone_command (o : options) : string :=
  "git clone --branch " +:+ or_else (tag o) "master" +:+ " " +:+ clone_url o
  +:+ " " +:+ show (cwd o).

(** [`npm ${options.cleanInstall === false ? 'install' : 'ci'}`] *)
Definition install_command (o : options) : string :=
  "npm " +:+ match cleanInstall o with
             | Some false => "install"
             | _ => "ci"
             end.

Definition cloneRepo (o : options) : sh () :=
  andThen (log ("Cloning " +:+ clone_url o +:+ "#" +:+ or_else (tag o) "master"
                +:+ " into " +:+ show (cwd o))) (λ _,
  andThen (catch (exec (clone_command o) None) (λ e,
             throw {| message := "Failed to clone git repository, " +:+ message e;
                      code := Some "GITCLONEEEXIST";
                      statusCode := None;
                      data_errors := None |})) (λ _,
  andThen (log "Installing npm dependencies") (λ _,
  andThen (exec (install_command o) (cwd o)) (λ _,
  ret ())))).

Definition updateRepo (o : options) : sh () :=
  andThen (log ("Checking out " +:+ show (tag o) +:+ " in " +:+ show (cwd o))) (λ _,
  andThen (exec "git fetch --all --tags" (cwd o)) (λ _,
  andThen (exec "git reset --hard" (cwd o)) (λ _,
  andThen (exec ("git checkout " +:+ show (tag o)) (cwd o)) (λ _,
  andThen (rm (show (cwd o) +:+ "/node_modules")) (λ _,
  andThen (log "Installing npm dependencies") (λ _,
  andThen (exec "npm ci" (cwd o)) (λ _,
  ret ()))))))).

(** What an update does when nothing fails, in order. *)
Definition update_script (o : options) : list action :=
  let dir := default process_cwd (cwd o) in
  [ Log ("Checking out " +:+ show (tag o) +:+ " in " +:+ show (cwd o));
    Exec "git fetch --all --tags" dir;
    Exec "git reset --hard" dir;
    Exec ("git checkout " +:+ show (tag o)) dir;
    Rm (show (cwd o) +:+ "/node_modules");
    Log "Installing npm dependencies";
    Exec "npm ci" dir ].

(** How action [a] ends when it is tried after [h]. *)
Definition attempt (h : list action) (a : action) : outcome () :=
  match a with
  | Exec command dir =>
      match run E h command dir with
      | inl _ => Fulfilled ()
      | inr text => Rejected (new_Error text)
      end
  | Rm path => remove E h path
  | Log _ => Fulfilled ()
  end.

(** The actions of [script] tried in order after [h], up to the first
    that does not end well. *)
Fixpoint perform (h : list action) (script : list action) : list action * outcome () :=
  match script with
  | [] => (h, Fulfilled ())
  | a :: script =>
      match attempt h a with
      | Fulfilled _ => perform (h ++ [a]) script
      | failed => (h ++ [a], failed)
      end
  end.
End commands.

Definition is_effect (a : action) : bool :=
  match a with
  | Log _ => false
  | _ => true
  end.

(** The actions that are not console output. *)
Definition effects (h : list action) : list action :=
  filter (λ a, is_effect a) h.

(** A machine where every command succeeds, except that [node_modules]
    is not there to be removed. *)
Definition sample_env : env :=
  {| run := λ _ _ _, inl "";
     remove := λ _ _, Rejected {| message := "ENOENT: no such file or directory";
                                  code := Some "ENOENT";
                                  statusCode := None;
                                  data_errors := None |} |}.

(** A machine without network access. *)
Definition offline_env : env :=
  {| run := λ _ command _,
       if String.prefix "git clone" command then inr "Error: Command failed" else inl "";
     remove := λ _ _, Fulfilled () |}.

Definition sample_options : options :=
  {| repo := None; tag := Some "v1.2.0"; cwd := Some "/srv/app"; cleanInstall := None |}.

End Cli.

(** ** Registration of the super user *)

Module Register.
Import Cli.

(** [{ email, password }] *)
Definition credentials : Type := option string * option string.

Record request := {
  url : string;
  method : string;
  headers : list (string * string);
  body : option credentials
}.

(** A response: its status and what [response.json()] gives, [None] when
    it rejects, [Some None] for a body that is [null], otherwise the
    [message] and [code] of the body. *)
Record response := {
  status : Z;
  json : option (option (option string * option string))
}.

(** The error of a failed [import] or [fetch], a system error: a message
    and a code, and no [data]. *)
Definition failure : Type := string * option string.

Definition system_error (f : failure) : js_error :=
  {| message := f.1; code := f.2; statusCode := None; data_errors := None |}.

(** [undefined.x], [null.x] *)
Definition type_error : js_error := new_Error "TypeError".

(** What happened, in order, each with its answer. *)
Inductive event :=
  | ImportedConfig (cwd : string) (answer : option (string * string) + failure)
  | Fetched (req : request) (answer : response + failure)
  | ImportedCore (cwd : string) (answer : () + failure)
  | Muted
  | Readied (answer : () + failure)
  | ReadLine (answer : option string)
  | AskedEmail (answer : option string)
  | AskedPasswords (first second : option string)
  | Logged (line : string).

(** The outside world, given everything that happened before: the
    [adapt-authoring-server] entry of the configuration module, the
    answer to a request, the import of the core module, [App.instance]
    and its [onReady()], a line on standard input ([None] when none ever
    comes), and what is typed at the prompts ([None] for a prompt that is
    cancelled). An import and a request are taken to be answered, with a
    value or with an error: a call that waits for ever on one of them is
    outside of this model. *)
Record env := {
  import_config : list event → string → option (string * string) + failure;
  fetch : list event → request → response + failure;
  import_core : list event → string → () + failure;
  on_ready : list event → () + failure;
  read_line : list event → option string;
  ask_email : list event → option string;
  ask_passwords : list event → option string * option string
}.

(** The transcript and the module variable [app]. *)
Record state := {
  transcript : list event;
  app : bool
}.

Definition record (ev : event) (st : state) : state :=
  {| transcript := transcript st ++ [ev]; app := app st |}.

Definition io (A : Type) : Type := state → state * outcome A.

Record options := {
  cwd : option string;
  superEmail : option string;
  superPassword : option string;
  pipePasswd : bool;
  opt_method : option string;
  opt_headers : option (list (string * string))
}.

(** [{ ...options, method: 'GET' }] *)
Definition with_GET (o : options) : options :=
  {| cwd := cwd o; superEmail := superEmail o; superPassword := superPassword o;
     pipePasswd := pipePasswd o; opt_method := Some "GET";
     opt_headers := opt_headers o |}.

Definition nl : string := String (Ascii.ascii_of_nat 10) EmptyString.

(** [!!s] *)
Definition truthy (s : option string) : bool :=
  match s with
  | Some s => negb (String.eqb s "")
  | None => false
  end.

Section register.
Variable E : env.
Variable process_cwd : string.

Definition internalApiRequest (endpoint : string) (data : option credentials)
    (opts : options) : io () := λ st,
  let dir := default process_cwd (cwd opts) in
  let imported := import_config E (transcript st) dir in
  let st := record (ImportedConfig dir imported) st in
  match imported with
  | inl (Some (host, port)) =>
      let req := {| url := "http://" +:+ host +:+ ":" +:+ port +:+ "/api/" +:+ endpoint;
                    method := default "POST" (opt_method opts);
                    headers := default [("Content-Type", "application/json")]
                                 (opt_headers opts);
                    body := data |} in
      let answer := fetch E (transcript st) req in
      let st := record (Fetched req answer) st in
      match answer with
      | inl response =>
          if (status response =? 204)%Z then (st, Fulfilled ())
          else if (299 <? status response)%Z then
            match json response with
            | Some (Some (msg, code)) =>
                (st, Rejected {| message := default "" msg;
                                 code := code;
                                 statusCode := Some (status response);
                                 data_errors := None |})
            | Some None => (st, Rejected type_error)
            | None => (st, Rejected (new_Error "invalid json"))
            end
          else (st, Fulfilled ())
      | inr f => (st, Rejected (system_error f))
      end
  | inl None => (st, Rejected type_error)
  | inr f => (st, Rejected (system_error f))
  end.

(** [startApp(cwd = process.cwd())]: the instance, or [undefined] (here
    [false]) when the application did not get ready. *)
Definition startApp (cwd : option string) : io bool := λ st,
  if app st then (st, Fulfilled true)
  else
    let dir := default process_cwd cwd in
    let imported := import_core E (transcript st) dir in
    let st := record (ImportedCore dir imported) st in
    match imported with
    | inr f => (st, Rejected (system_error f))
    | inl _ =>
        let st := record Muted st in
        let ready := on_ready E (transcript st) in
        let st := record (Readied ready) st in
        match ready with
        | inl _ => ({| transcript := transcript st; app := true |}, Fulfilled true)
        | inr f => (record (Logged f.1) st, Fulfilled false)
        end
    end.

(** [getPipedPassword()] *)
Definition getPipedPassword : io string := λ st,
  let line := read_line E (transcript st) in
  (record (ReadLine line) st,
   match line with
   | Some s => Fulfilled s
   | None => Pending
   end).

(** The request of the loop and its [catch]; [again] is the rest of the
    loop, with [email] and [password] as they are by then. *)
Definition submit (again : option string → option string → io ()) (o : options)
    (email password : option string) : io () := λ st,
  match internalApiRequest "auth/local/registersuper" (Some (email, password)) o st with
  | (st, Rejected e) =>
      if bool_decide (code e = Some "VALIDATION_FAILED") then
        match data_errors e with
        | Some errors =>
            again email password
              (record (Logged (nl +:+ "ERROR: Failed to register super user, "
                                 +:+ errors +:+ nl)) st)
        | None => (st, Rejected type_error)
        end
      else (st, Rejected e)
  | settled => settled
  end.

(** The [while (!success)] loop, run for at most [fuel] iterations. *)
Fixpoint attempts (fuel : nat) (o : options) (email password : option string) : io () :=
  λ st,
  match fuel with
  | 0 => (st, Pending)
  | S fuel =>
      let '(st, email) :=
        if truthy email then (st, email)
        else let emailInput := ask_email E (transcript st) in
             (record (AskedEmail emailInput) st, emailInput) in
      if truthy password then submit (attempts fuel o) o email password st
      else
        let inputs := ask_passwords E (transcript st) in
        let st := record (AskedPasswords inputs.1 inputs.2) st in
        if bool_decide (inputs.1 = inputs.2) then submit (attempts fuel o) o email inputs.1 st
        else attempts fuel o email password
               (record (Logged "Passwords don't match. Please try again") st)
  end.

Definition registerSuperUser (fuel : nat) (o : options) : io () := λ st,
  let probe := internalApiRequest "" None (with_GET o) st in
  let started :=
    match probe with
    | (st, Rejected e) =>
        if bool_decide (code e = Some "ECONNREFUSED") then
          match startApp (cwd o) st with
          | (st, Fulfilled _) => (st, Fulfilled ())
          | (st, Rejected e) => (st, Rejected e)
          | (st, Pending) => (st, Pending)
          end
        else (st, Rejected e)
    | settled => settled
    end in
  match started with
  | (st, Fulfilled _) =>
      let email := superEmail o in
      if pipePasswd o then
        match getPipedPassword st with
        | (st, Fulfilled line) => attempts fuel o email (Some line) st
        | (st, Rejected e) => (st, Rejected e)
        | (st, Pending) => (st, Pending)
        end
      else attempts fuel o email (superPassword o) st
  | settled => settled
  end.
End register.

Definition is_fetch (ev : event) : bool :=
  match ev with
  | Fetched _ _ => true
  | _ => false
  end.

(** How many requests were sent. *)
Definition requests (events : list event) : nat :=
  length (filter (λ ev, is_fetch ev) events).

Definition is_start (ev : event) : bool :=
  match ev with
  | ImportedCore _ _ => true
  | _ => false
  end.

(** How many times the core module was imported to start the
    application. *)
Definition starts (events : list event) : nat :=
  length (filter (λ ev, is_start ev) events).

(** The request was refused: nothing is listening. *)
Definition refused (r : outcome ()) : bool :=
  match r with
  | Rejected e => bool_decide (code e = Some "ECONNREFUSED")
  | _ => false
  end.

(** How a request ends, from the answer to [fetch]. *)
Definition settle (answer : response + failure) : outcome () :=
  match answer with
  | inl response =>
      if (status response =? 204)%Z then Fulfilled ()
      else if (299 <? status response)%Z then
        match json response with
        | Some (Some (msg, code)) =>
            Rejected {| message := default "" msg; code := code;
                        statusCode := Some (status response); data_errors := None |}
        | Some None => Rejected type_error
        | None => Rejected (new_Error "invalid json")
        end
      else Fulfilled ()
  | inr f => Rejected (system_error f)
  end.

(** How a request ends that never reaches [fetch]. *)
Definition unconfigured (answer : option (string * string) + failure) : js_error :=
  match answer with
  | inr f => system_error f
  | _ => type_error
  end.

(** The request sent to the server at [hp], host and port. *)
Definition request_to (hp : string * string) (endpoint : string)
    (data : option credentials) (o : options) : request :=
  {| url := "http://" +:+ hp.1 +:+ ":" +:+ hp.2 +:+ "/api/" +:+ endpoint;
     method := default "POST" (opt_method o);
     headers := default [("Content-Type", "application/json")] (opt_headers o);
     body := data |}.

(** The events of the loop that are no request: a prompt, or the line
    about passwords that differ. *)
Definition prompt (ev : event) : Prop :=
  match ev with
  | AskedEmail _ | AskedPasswords _ _ => True
  | Logged line => line = "Passwords don't match. Please try again"
  | _ => False
  end.

(** How the loop ends after a request that ended as [r]. *)
Definition after_request (r : outcome ()) : outcome () :=
  match r with
  | Rejected e =>
      if bool_decide (code e = Some "VALIDATION_FAILED") then Rejected type_error
      else Rejected e
  | settled => settled
  end.

(** [sent] was given, or typed at the prompt for the email address. *)
Definition entered (given sent : option string) (prompts : list event) : Prop :=
  (truthy given = true ∧ sent = given) ∨ AskedEmail sent ∈ prompts.

(** [sent] was given, or typed twice at the prompt for the password. *)
Definition confirmed (given sent : option string) (prompts : list event) : Prop :=
  (truthy given = true ∧ sent = given) ∨ AskedPasswords sent sent ∈ prompts.

(** The runs of the loop: prompts, then nothing more, or one request. *)
Definition loop_run (process_cwd : string) (o : options) (email password : option string)
    (new : list event) (r : outcome ()) : Prop :=
  ∃ prompts tail, new = prompts ++ tail ∧ Forall prompt prompts ∧
    ((tail = [] ∧ r = Pending) ∨
     (∃ em pw, entered email em prompts ∧ confirmed password pw prompts ∧
        let dir := default process_cwd (cwd o) in
        ((∃ answer, (∀ hp, answer ≠ inl (Some hp)) ∧
            tail = [ImportedConfig dir answer] ∧
            r = after_request (Rejected (unconfigured answer))) ∨
         (∃ hp answer,
            tail = [ImportedConfig dir (inl (Some hp));
                    Fetched (request_to hp "auth/local/registersuper" (Some (em, pw)) o) answer] ∧
            r = after_request (settle answer))))).

(** A server that is up and refuses the registration as invalid, and a
    user who first mistypes the confirmation. *)
Definition sample_env : env :=
  {| import_config := λ _ _, inl (Some ("localhost", "5000"));
     fetch := λ _ req,
       if String.eqb (method req) "GET" then inl {| status := 200; json := None |}
       else inl {| status := 400;
                   json := Some (Some (Some "invalid email", Some "VALIDATION_FAILED")) |};
     import_core := λ _ _, inl ();
     on_ready := λ _, inl ();
     read_line := λ _, None;
     ask_email := λ _, Some "admin";
     ask_passwords := λ h,
       if (length h <? 5)%nat then (Some "secret", Some "sceret")
       else (Some "secret", Some "secret") |}.

(** No server is listening and the core module cannot be imported. *)
Definition down_env : env :=
  {| import_config := λ _ _, inl (Some ("localhost", "5000"));
     fetch := λ _ _, inr ("connect ECONNREFUSED", Some "ECONNREFUSED");
     import_core := λ _ _, inr ("Cannot find module", Some "ERR_MODULE_NOT_FOUND");
     on_ready := λ _, inl ();
     read_line := λ _, None;
     ask_email := λ _, None;
     ask_passwords := λ _, (None, None) |}.

Definition sample_options : options :=
  {| cwd := Some "/srv/app"; superEmail := None; superPassword := None;
     pipePasswd := false; opt_method := None; opt_headers := None |}.

Definition fresh : state := {| transcript := []; app := false |}.

End Register.

(** * Proofs *)

(** ** Tree scanner *)

Section scanner_proofs.
Import Scanner.

(** Induction on a tree, with the hypothesis for every entry of a
    directory. *)
Fixpoint node_ind (P : node → Prop) (HFile : P File)
    (HDir : ∀ contents, Forall (λ c, P c.2) contents → P (Dir contents))
    (HFaulty : ∀ e, P (Faulty e)) (n : node) : P n :=
  match n with
  | File => HFile
  | Faulty e => HFaulty e
  | Dir contents =>
      HDir contents
        ((fix entries (cs : list (string * node)) : Forall (λ c, P c.2) cs :=
            match cs with
            | [] => List.Forall_nil _
            | c :: cs =>
                List.Forall_cons _ c cs (node_ind P HFile HDir HFaulty c.2) (entries cs)
            end) contents)
  end.

Implicit Types (visit : path → list path) (dir p : path) (n : node).

Lemma walk_Dir visit dir contents :
  walk visit dir (Dir contents) = walk_contents visit dir contents.
Proof. done. Qed.

Lemma walk_contents_cons visit dir c sub contents :
  walk_contents visit dir ((c, sub) :: contents) =
    here ← walk visit (resolve dir c) sub;
    rest ← walk_contents visit dir contents;
    Ok (here ++ rest).
Proof. done. Qed.

Lemma file_at_File rel : file_at File rel ↔ rel = [].
Proof. split; [by inversion 1 | intros ->; constructor]. Qed.

Lemma file_at_Dir contents rel :
  file_at (Dir contents) rel ↔
  ∃ c sub rel', rel = c :: rel' ∧ (c, sub) ∈ contents ∧ file_at sub rel'.
Proof.
  split.
  - inversion 1; subst. eauto 6.
  - intros (c & sub & rel' & -> & ? & ?). by econstructor.
Qed.

Lemma file_at_Faulty e rel : ¬ file_at (Faulty e) rel.
Proof. inversion 1. Qed.

(** What a successful walk has pushed: [visit] of every non-directory
    below the entry, and nothing else. *)
Lemma walk_found visit n : ∀ dir found,
  walk visit dir n = Ok found →
  ∀ p, p ∈ found ↔ ∃ rel, file_at n rel ∧ p ∈ visit (dir ++ rel).
Proof.
  induction n as [| contents IH | e] using node_ind; intros dir found Hwalk p.
  - injection Hwalk as <-. split.
    + intros Hp. exists []. rewrite app_nil_r. split; [constructor | done].
    + intros (rel & ->%file_at_File & Hp). by rewrite app_nil_r in Hp.
  - rewrite walk_Dir in Hwalk. revert found Hwalk.
    induction IH as [| [c sub] contents IHsub _ IHrest]; intros found Hwalk.
    + injection Hwalk as <-. split; [by intros ?%elem_of_nil |].
      intros (rel & (? & ? & ? & _ & []%elem_of_nil & _)%file_at_Dir & _).
    + rewrite walk_contents_cons in Hwalk.
      apply bind_Ok_inv in Hwalk as (here & Hhere & Hwalk).
      apply bind_Ok_inv in Hwalk as (rest & Hrest & Hwalk).
      injection Hwalk as <-. simpl in IHsub.
      rewrite elem_of_app, (IHsub _ _ Hhere), (IHrest _ Hrest). split.
      * intros [(rel & Hrel & Hp) | (rel & Hrel & Hp)].
        -- exists (c :: rel). split.
           ++ econstructor; [left | done].
           ++ unfold resolve in Hp. by rewrite <- app_assoc in Hp.
        -- exists rel. split; [| done].
           apply file_at_Dir in Hrel as (c' & sub' & rel' & -> & ? & ?).
           econstructor; [by right | done].
      * intros (rel & (c' & sub' & rel' & -> & Hin & Hsub)%file_at_Dir & Hp).
        apply elem_of_cons in Hin as [[= -> ->] | Hin].
        -- left. exists rel'. split; [done |].
           unfold resolve. by rewrite <- app_assoc.
        -- right. exists (c' :: rel'). split; [by econstructor | done].
  - done.
Qed.

(** A walk rejects only when some [stat] or [readdir] does. *)
Lemma walk_readable visit n : ∀ dir,
  readable n = true → ∃ found, walk visit dir n = Ok found.
Proof.
  induction n as [| contents IH | e] using node_ind; intros dir Hr.
  - by eexists.
  - rewrite walk_Dir. simpl in Hr.
    induction IH as [| [c sub] contents IHsub _ IHrest]; [by eexists |].
    simpl in Hr. apply andb_prop in Hr as [Hsub Hrest].
    rewrite walk_contents_cons. simpl in IHsub.
    destruct (IHsub (resolve dir c) Hsub) as [here ->].
    destruct (IHrest Hrest) as [rest ->]. by eexists.
  - done.
Qed.

Lemma scan_found visit dir n found :
  scan visit dir n = Ok found →
  ∀ p, p ∈ found ↔ ∃ rel, rel ≠ [] ∧ file_at n rel ∧ p ∈ visit (dir ++ rel).
Proof.
  intros Hscan p. destruct n as [| contents | e]; try done.
  change (walk visit dir (Dir contents) = Ok found) in Hscan.
  rewrite (walk_found _ _ _ _ Hscan). split.
  - intros (rel & Hrel & Hp). exists rel. split; [| done].
    apply file_at_Dir in Hrel as (? & ? & ? & -> & _). done.
  - intros (rel & _ & ? & ?). by exists rel.
Qed.

Lemma scan_readable visit dir n :
  is_dir n = true → readable n = true → ∃ found, scan visit dir n = Ok found.
Proof.
  intros Hd Hr. destruct n; try done. by apply walk_readable.
Qed.

(** C8. The scanner returns exactly the paths under the root that lead to
    a file and end with the suffix; every such path lies strictly below
    the root. The aggregator's scan returns exactly the directories that
    contain a file whose path ends with the marker name. Both succeed when
    every directory below the root can be read. *)
Theorem scanner_exact (dir : path) (n : node) :
  (is_dir n = true → readable n = true →
     ∃ files dirs, getConfigSchemaPathsRecursive dir n = Ok files ∧
                   getAdaptDepsRecursive dir n = Ok dirs) ∧
  (∀ files, getConfigSchemaPathsRecursive dir n = Ok files →
     ∀ p, p ∈ files ↔
       ∃ rel, rel ≠ [] ∧ file_at n rel ∧ p = dir ++ rel ∧
              endsWith (to_string p) relativeSchemaPath = true) ∧
  (∀ dirs, getAdaptDepsRecursive dir n = Ok dirs →
     ∀ d, d ∈ dirs ↔
       ∃ rel, rel ≠ [] ∧ file_at n rel ∧
              endsWith (to_string (dir ++ rel)) metaFilename = true ∧
              d = dirname (dir ++ rel)).
Proof.
  split; [| split].
  - intros Hd Hr. unfold getConfigSchemaPathsRecursive, getAdaptDepsRecursive.
    destruct (scan_readable (λ fullPath,
      if endsWith (to_string fullPath) relativeSchemaPath then [fullPath] else [])
      dir n Hd Hr) as [files ->].
    destruct (scan_readable (λ fullPath,
      if endsWith (to_string fullPath) metaFilename then [dirname fullPath] else [])
      dir n Hd Hr) as [dirs ->].
    by exists files, dirs.
  - intros files Hscan p. unfold getConfigSchemaPathsRecursive in Hscan.
    rewrite (scan_found _ _ _ _ Hscan). split.
    + intros (rel & ? & ? & Hp). exists rel.
      destruct (endsWith (to_string (dir ++ rel)) relativeSchemaPath) eqn:He.
      * apply list_elem_of_singleton in Hp as ->. done.
      * by apply elem_of_nil in Hp.
    + intros (rel & ? & ? & -> & He). exists rel. rewrite He.
      repeat split; try done. by apply list_elem_of_singleton.
  - intros dirs Hscan d. unfold getAdaptDepsRecursive in Hscan.
    rewrite (scan_found _ _ _ _ Hscan). split.
    + intros (rel & ? & ? & Hd). exists rel.
      destruct (endsWith (to_string (dir ++ rel)) metaFilename) eqn:He.
      * apply list_elem_of_singleton in Hd as ->. done.
      * by apply elem_of_nil in Hd.
    + intros (rel & ? & ? & He & ->). exists rel. rewrite He.
      repeat split; try done. by apply list_elem_of_singleton.
Qed.

Lemma scanner_exact_witness :
  ∃ files dirs,
    getConfigSchemaPathsRecursive sample_root sample_modules = Ok files ∧
    getAdaptDepsRecursive sample_root sample_modules = Ok dirs.
Proof.
  apply (proj1 (scanner_exact sample_root sample_modules)); reflexivity.
Defined.

End scanner_proofs.

(** ** Schema collector *)

Section schemas_proofs.
Import Scanner Schemas.

Variable readManifest : path → option Deps.manifest.
Variable readJson : path → option json.

Lemma collect_loadable (paths : list path) : ∀ config0,
  Forall (loadable readManifest readJson) paths →
  ∃ config, foldM (addSchema readManifest readJson) config0 paths = Ok config.
Proof.
  induction paths as [| s paths IH]; intros config0 Hall; [by eexists |].
  apply Forall_cons in Hall as [[[m Hm] [j Hj]] Hall].
  simpl. unfold addSchema, loadPackage, loadJson. rewrite Hm, Hj. simpl.
  by apply IH.
Qed.

(** C7. Whatever is discovered, a result of [getSchemas] carries the
    super-user registration schema under [user]; and [getSchemas] does
    return a result whenever the scan succeeds and the files it found can
    be loaded. *)
Theorem getSchemas_superUser (rootDir : path) (modules : node) :
  (∀ s, getSchemas readManifest readJson rootDir modules = Ok s →
        superuser_registration (user s)) ∧
  (∀ paths,
     getConfigSchemaPathsRecursive (resolve rootDir "node_modules") modules = Ok paths →
     Forall (loadable readManifest readJson) paths →
     ∃ s, getSchemas readManifest readJson rootDir modules = Ok s).
Proof.
  split.
  - intros s Hs. unfold getSchemas in Hs.
    apply bind_Ok_inv in Hs as (paths & _ & Hs).
    apply bind_Ok_inv in Hs as (config & _ & Hs).
    injection Hs as <-. cbn [user].
    do 2 eexists. split; [reflexivity |]. split; [reflexivity |].
    split; [reflexivity |]. split; [| reflexivity].
    intros k Hk. cbn in Hk.
    repeat (apply elem_of_cons in Hk as [-> | Hk]; [reflexivity |]).
    by apply elem_of_nil in Hk.
  - intros paths Hscan Hall. unfold getSchemas. rewrite Hscan. simpl.
    destruct (collect_loadable paths ∅ Hall) as [config ->]. by eexists.
Qed.

End schemas_proofs.

Lemma getSchemas_superUser_witness :
  ∃ s, Schemas.getSchemas Schemas.sample_manifests Schemas.sample_documents
         ["srv"; "app"] Scanner.sample_modules = Ok s ∧
       Schemas.superuser_registration (Schemas.user s).
Proof.
  pose proof (getSchemas_superUser Schemas.sample_manifests Schemas.sample_documents
                ["srv"; "app"] Scanner.sample_modules) as [Huser Hreturns].
  destruct (Hreturns
    [["srv"; "app"; "node_modules"; "adapt-authoring-core"; "conf"; "config.schema.json"]])
    as [s Hs].
  - reflexivity.
  - apply Forall_singleton. split; vm_compute; eauto.
  - exists s. split; [exact Hs | exact (Huser s Hs)].
Defined.

(** ** Dependency aggregator *)

Section deps_proofs.
Import Deps.

Implicit Types (memo : gmap string (list string)) (k v w : string).
Implicit Types (es : list (string * string)) (ms : list manifest).

Lemma sort_Permutation (arr : list string) : sort arr ≡ₚ arr.
Proof. apply merge_sort_Permutation. Qed.

Lemma sort_Sorted (arr : list string) : Sorted String.le (sort arr).
Proof. apply (Sorted_merge_sort String.le). Qed.

Lemma elem_of_sort (arr : list string) v : v ∈ sort arr ↔ v ∈ arr.
Proof. by rewrite sort_Permutation. Qed.

Lemma includes_true arr v : includes arr v = true ↔ v ∈ arr.
Proof. unfold includes. by rewrite bool_decide_eq_true. Qed.

(** Two sorted arrays without duplicates that hold the same strings are the
    same array. *)
Lemma sorted_distinct_unique (l1 l2 : list string) :
  Sorted String.le l1 → Sorted String.le l2 → NoDup l1 → NoDup l2 →
  (∀ v, v ∈ l1 ↔ v ∈ l2) → l1 = l2.
Proof.
  intros Hs1 Hs2 Hn1 Hn2 Hel.
  apply (Sorted_unique String.le); [done | done |].
  by apply NoDup_Permutation.
Qed.

Lemma addDep_lookup_ne memo k v k' :
  k ≠ k' → addDep memo (k, v) !! k' = memo !! k'.
Proof. intros Hne. unfold addDep; simpl. by rewrite lookup_insert_ne. Qed.

Lemma addDep_lookup_eq memo k v :
  ∃ arr, addDep memo (k, v) !! k = Some arr ∧
    ∀ w, w ∈ arr ↔ w ∈ default [] (memo !! k) ∨ w = v.
Proof.
  unfold addDep; simpl. rewrite lookup_insert_eq.
  eexists; split; [done |]. intros w. rewrite elem_of_sort.
  destruct (includes _ v) eqn:Hinc.
  - apply includes_true in Hinc. split; [tauto | by intros [? | ->]].
  - rewrite elem_of_app, list_elem_of_singleton. tauto.
Qed.

(** The arrays kept in a memo are sorted, duplicate-free and non-empty. *)
Definition memo_ok memo : Prop :=
  ∀ k arr, memo !! k = Some arr → Sorted String.le arr ∧ NoDup arr ∧ arr ≠ [].

Lemma memo_ok_empty : memo_ok ∅.
Proof. intros k arr. by rewrite lookup_empty. Qed.

Lemma addDep_ok memo kv : memo_ok memo → memo_ok (addDep memo kv).
Proof.
  intros Hok k arr. destruct kv as [k0 v]. unfold addDep; simpl.
  destruct (decide (k0 = k)) as [-> | Hne].
  2: { rewrite lookup_insert_ne by done. apply Hok. }
  rewrite lookup_insert_eq. intros [= <-].
  assert (NoDup (default [] (memo !! k))) as Hnd.
  { destruct (memo !! k) as [a |] eqn:Hk; simpl; [| constructor].
    by destruct (Hok _ _ Hk) as (_ & ? & _). }
  split; [apply sort_Sorted |]. split.
  - rewrite sort_Permutation. destruct (includes _ v) eqn:Hinc; [done |].
    apply NoDup_app. split; [done |]. split; [| apply NoDup_singleton].
    intros w Hw ->%list_elem_of_singleton.
    apply includes_true in Hw. congruence.
  - intros Hnil. assert (v ∈ sort (if includes (default [] (memo !! k)) v
        then default [] (memo !! k) else default [] (memo !! k) ++ [v])) as Hin.
    { apply elem_of_sort. destruct (includes _ v) eqn:Hinc.
      - by apply includes_true.
      - apply elem_of_app. right. by apply list_elem_of_singleton. }
    rewrite Hnil in Hin. by apply not_elem_of_nil in Hin.
Qed.

Lemma addDeps_fold_ok es memo : memo_ok memo → memo_ok (foldl addDep memo es).
Proof.
  revert memo. induction es as [| kv es IH]; intros memo Hok; simpl; [done |].
  by apply IH, addDep_ok.
Qed.

(** What a memo holds for [k] after the entries [es] were merged in. *)
Lemma addDeps_fold_elem es memo k w :
  w ∈ default [] (foldl addDep memo es !! k) ↔
  w ∈ default [] (memo !! k) ∨ (k, w) ∈ es.
Proof.
  revert memo. induction es as [| [k0 v] es IH]; intros memo; simpl.
  { rewrite elem_of_nil. tauto. }
  rewrite IH, elem_of_cons, pair_eq. destruct (decide (k0 = k)) as [-> | Hne].
  - destruct (addDep_lookup_eq memo k v) as (arr & -> & Harr); simpl.
    rewrite Harr. tauto.
  - rewrite addDep_lookup_ne by done. intuition congruence.
Qed.

(** Merging is a function of the set of declared pairs. *)
Lemma addDeps_fold_ext es es' :
  (∀ kv, kv ∈ es ↔ kv ∈ es') → foldl addDep ∅ es = foldl addDep ∅ es'.
Proof.
  intros Hext. apply map_eq; intros k.
  pose proof (addDeps_fold_ok es ∅ memo_ok_empty) as Hok.
  pose proof (addDeps_fold_ok es' ∅ memo_ok_empty) as Hok'.
  assert (∀ w, w ∈ default [] (foldl addDep ∅ es !! k) ↔
               w ∈ default [] (foldl addDep ∅ es' !! k)) as Hel.
  { intros w. rewrite !addDeps_fold_elem, Hext. done. }
  destruct (foldl addDep ∅ es !! k) as [l |] eqn:Hl;
    destruct (foldl addDep ∅ es' !! k) as [l' |] eqn:Hl'; simpl in Hel.
  - destruct (Hok _ _ Hl) as (? & ? & _), (Hok' _ _ Hl') as (? & ? & _).
    f_equal. by apply sorted_distinct_unique.
  - destruct (Hok _ _ Hl) as (_ & _ & Hne). destruct l as [| x l]; [done |].
    exfalso. eapply not_elem_of_nil, Hel. left.
  - destruct (Hok' _ _ Hl') as (_ & _ & Hne). destruct l' as [| x l']; [done |].
    exfalso. eapply not_elem_of_nil, Hel. left.
  - done.
Qed.

Lemma elem_of_declared f ms k v : (k, v) ∈ declared f ms ↔ observed f ms k v.
Proof.
  unfold declared, observed. rewrite list_elem_of_bind.
  split; intros (m & ? & ?); by exists m.
Qed.

Lemma declared_Permutation f ms ms' :
  ms ≡ₚ ms' → ∀ kv, kv ∈ declared f ms ↔ kv ∈ declared f ms'.
Proof.
  intros Hp kv. unfold declared. rewrite !list_elem_of_bind.
  split; intros (m & ? & Hm); exists m; split; try done.
  - by rewrite <- Hp.
  - by rewrite Hp.
Qed.

(** The three members of [deps] evolve independently of one another. *)
Lemma foldl_addPlugin_all d ms :
  m_all (foldl addPlugin d ms) = foldl addDep (m_all d) (declared dependencies ms).
Proof.
  revert d. induction ms as [| m ms IH]; intros d; [done |].
  simpl. rewrite IH. unfold declared. simpl.
  by rewrite foldl_app.
Qed.

Lemma foldl_addPlugin_dev d ms :
  m_dev (foldl addPlugin d ms) = foldl addDep (m_dev d) (declared devDependencies ms).
Proof.
  revert d. induction ms as [| m ms IH]; intros d; [done |].
  simpl. rewrite IH. unfold declared. simpl.
  by rewrite foldl_app.
Qed.

Lemma foldl_addPlugin_adapt_Some d ms k v :
  m_adapt (foldl addPlugin d ms) !! k = Some v →
  m_adapt d !! k = Some v ∨ ∃ m, m ∈ ms ∧ name m = k ∧ version m = v.
Proof.
  revert d. induction ms as [| m ms IH]; intros d; simpl; [by left |].
  intros [Hd | (m' & Hin & Hm')]%IH.
  - simpl in Hd. destruct (decide (name m = k)) as [<- | Hne].
    + rewrite lookup_insert_eq in Hd. injection Hd as <-.
      right. exists m. split; [left | done].
    + rewrite lookup_insert_ne in Hd by done. by left.
  - right. exists m'. split; [by right | done].
Qed.

Lemma foldl_addPlugin_adapt_is_Some d ms k :
  is_Some (m_adapt (foldl addPlugin d ms) !! k) ↔
  is_Some (m_adapt d !! k) ∨ ∃ m, m ∈ ms ∧ name m = k.
Proof.
  revert d. induction ms as [| m ms IH]; intros d; simpl.
  { split; [by left | intros [? | (? & []%elem_of_nil & _)]; done]. }
  rewrite IH. simpl. rewrite lookup_insert_is_Some. split.
  - intros [[<- | [_ ?]] | (m' & ? & ?)].
    + right. exists m. split; [left | done].
    + by left.
    + right. exists m'. split; [by right | done].
  - intros [? | (m' & [-> | ?]%elem_of_cons & Hm')].
    + left. destruct (decide (name m = k)); [by left | by right].
    + left. by left.
    + right. by exists m'.
Qed.

(** The key sets of [deps.adapt] before and after [processDeps] coincide. *)
Lemma adapt_lookup_None ms k :
  adapt (appDependencies ms) !! k = None ↔ ¬ ∃ m, m ∈ ms ∧ name m = k.
Proof.
  simpl. rewrite !lookup_fmap, !fmap_None, eq_None_not_Some.
  rewrite foldl_addPlugin_adapt_is_Some. simpl. rewrite lookup_empty.
  split; [tauto |]. intros Hn [[? [=]] | ?]. tauto.
Qed.

(** Line 289-291: no plugin name survives in [deps.all]. *)
Lemma all_excludes_plugins ms k :
  is_Some (adapt (appDependencies ms) !! k) → all (appDependencies ms) !! k = None.
Proof.
  intros [x Hk]. unfold appDependencies in *. simpl in *.
  apply map_lookup_filter_None. right. intros y _. simpl. congruence.
Qed.

(** Collapsing a sorted, duplicate-free, non-empty array of the observed
    specifiers gives the reported value. *)
Lemma collapse_reported (obs : string → Prop) (l : list string) :
  Sorted String.le l → NoDup l → l ≠ [] → (∀ w, w ∈ l ↔ obs w) →
  reported obs (collapse (VArr l)).
Proof.
  intros Hs Hn Hne Hel. destruct l as [| x [| y l]]; [done | |].
  - (* one specifier *)
    split.
    + intros v Hv. simpl. f_equal. apply Hv, Hel. left.
    + intros []. exists x. intros w. rewrite <- Hel. apply list_elem_of_singleton.
  - (* at least two *)
    split.
    + intros v Hv. exfalso.
      assert (x = v) as -> by (apply Hv, Hel; left).
      assert (y = v) as -> by (apply Hv, Hel; right; left).
      apply NoDup_cons_1_1 in Hn. apply Hn. left.
    + intros _. by exists (x :: y :: l).
Qed.

Lemma memo_reported es k l :
  foldl addDep ∅ es !! k = Some l →
  reported (λ w, (k, w) ∈ es) (collapse (VArr l)).
Proof.
  intros Hl.
  destruct (addDeps_fold_ok es ∅ memo_ok_empty k l Hl) as (Hs & Hn & Hne).
  apply collapse_reported; try done.
  intros w. pose proof (addDeps_fold_elem es ∅ k w) as Hw.
  rewrite Hl, lookup_empty in Hw. simpl in Hw. rewrite Hw, elem_of_nil. tauto.
Qed.

Lemma reported_ext (obs obs' : string → Prop) val :
  (∀ w, obs w ↔ obs' w) → reported obs val → reported obs' val.
Proof.
  intros Heq [H1 H2]. split.
  - intros v Hv. apply H1. intros w. by rewrite Heq.
  - intros Hn. destruct H2 as (l & ? & ? & ? & Hl).
    + intros [v Hv]. apply Hn. exists v. intros w. by rewrite <- Heq.
    + exists l. repeat split; try done.
      * intros ?. by apply Heq, Hl.
      * intros ?. by apply Hl, Heq.
Qed.

(** C4. In [all] and in [dev], a dependency maps to the bare specifier when
    exactly one distinct specifier was observed for it across the
    discovered plugins, and otherwise to the sorted array of the distinct
    specifiers observed. *)
Theorem getAppDependencies_values (ms : list manifest) (k : string) (val : value) :
  (all (appDependencies ms) !! k = Some val →
     reported (observed dependencies ms k) val) ∧
  (dev (appDependencies ms) !! k = Some val →
     reported (observed devDependencies ms k) val).
Proof.
  split.
  - intros [Hk _]%map_lookup_filter_Some. simpl in Hk.
    rewrite !lookup_fmap, foldl_addPlugin_all in Hk. simpl in Hk.
    destruct (foldl addDep ∅ (declared dependencies ms) !! k) as [l |] eqn:Hl;
      [| done].
    injection Hk as <-. eapply reported_ext; [| by apply memo_reported].
    intros w. apply elem_of_declared.
  - simpl. rewrite !lookup_fmap, foldl_addPlugin_dev. simpl.
    destruct (foldl addDep ∅ (declared devDependencies ms) !! k) as [l |] eqn:Hl;
      [| done].
    intros [= <-]. eapply reported_ext; [| by apply memo_reported].
    intros w. apply elem_of_declared.
Qed.

(** One specifier declared by two plugins yields a scalar; two distinct
    specifiers yield a sorted two-element array. *)
Lemma getAppDependencies_values_witness :
  (all (appDependencies [plugin_core; plugin_auth]) !! "glob" = Some (VStr "^8.0.0") ∧
   reported (observed dependencies [plugin_core; plugin_auth] "glob") (VStr "^8.0.0")) ∧
  (all (appDependencies [plugin_core; plugin_auth]) !! "lodash"
     = Some (VArr ["^1.0.0"; "^2.0.0"]) ∧
   reported (observed dependencies [plugin_core; plugin_auth] "lodash")
     (VArr ["^1.0.0"; "^2.0.0"])) ∧
  (dev (appDependencies [plugin_core; plugin_auth]) !! "standard"
     = Some (VStr "^17.0.0") ∧
   reported (observed devDependencies [plugin_core; plugin_auth] "standard")
     (VStr "^17.0.0")).
Proof.
  split; [| split]; (split; [vm_compute; reflexivity |]).
  - apply (proj1 (getAppDependencies_values [plugin_core; plugin_auth] "glob" _)).
    vm_compute; reflexivity.
  - apply (proj1 (getAppDependencies_values [plugin_core; plugin_auth] "lodash" _)).
    vm_compute; reflexivity.
  - apply (proj2 (getAppDependencies_values [plugin_core; plugin_auth] "standard" _)).
    vm_compute; reflexivity.
Defined.

(** C1. The final loop of [getAppDependencies] scans [deps.all] only: a
    plugin that another plugin lists under [devDependencies] is still a key
    of [dev], while it is removed from [all]. *)
Theorem getAppDependencies_dev_keeps_plugin :
  let deps := appDependencies [plugin_core; plugin_auth] in
  adapt deps !! "adapt-authoring-core" = Some (VStr "1.0.0") ∧
  all deps !! "adapt-authoring-core" = None ∧
  dev deps !! "adapt-authoring-core" = Some (VStr "^1.0.0").
Proof. vm_compute. done. Qed.

(** C3, as stated, fails: when two discovered plugins share a name,
    [deps.adapt] keeps the version of the one merged last. *)
Lemma getAppDependencies_order_dependent :
  [plugin_core; plugin_core_nested] ≡ₚ [plugin_core_nested; plugin_core] ∧
  appDependencies [plugin_core; plugin_core_nested]
    ≠ appDependencies [plugin_core_nested; plugin_core].
Proof.
  split; [apply Permutation_swap |].
  intros Heq.
  apply (f_equal (λ d, adapt d !! "adapt-authoring-core")) in Heq.
  vm_compute in Heq. discriminate.
Qed.

Lemma processed_all_Permutation ms ms' :
  ms ≡ₚ ms' →
  all (processDeps (foldl addPlugin no_deps ms))
  = all (processDeps (foldl addPlugin no_deps ms')).
Proof.
  intros Hp. simpl. rewrite !foldl_addPlugin_all. simpl.
  by rewrite (addDeps_fold_ext _ _ (declared_Permutation dependencies _ _ Hp)).
Qed.

Lemma processed_dev_Permutation ms ms' :
  ms ≡ₚ ms' →
  dev (processDeps (foldl addPlugin no_deps ms))
  = dev (processDeps (foldl addPlugin no_deps ms')).
Proof.
  intros Hp. simpl. rewrite !foldl_addPlugin_dev. simpl.
  by rewrite (addDeps_fold_ext _ _ (declared_Permutation devDependencies _ _ Hp)).
Qed.

Lemma adapt_Permutation ms ms' :
  ms ≡ₚ ms' → versions_agree ms →
  m_adapt (foldl addPlugin no_deps ms) = m_adapt (foldl addPlugin no_deps ms').
Proof.
  intros Hp Hagree. apply map_eq; intros k.
  destruct (m_adapt (foldl addPlugin no_deps ms) !! k) as [v |] eqn:Hk;
    destruct (m_adapt (foldl addPlugin no_deps ms') !! k) as [v' |] eqn:Hk';
    try done.
  - apply foldl_addPlugin_adapt_Some in Hk as [Hk | (m & Hm & Hn & Hv)];
      [by simpl in Hk; rewrite lookup_empty in Hk |].
    apply foldl_addPlugin_adapt_Some in Hk' as [Hk' | (m' & Hm' & Hn' & Hv')];
      [by simpl in Hk'; rewrite lookup_empty in Hk' |].
    rewrite <- Hp in Hm'. f_equal. rewrite <- Hv, <- Hv'.
    apply Hagree; congruence.
  - apply foldl_addPlugin_adapt_Some in Hk as [Hk | (m & Hm & Hn & Hv)];
      [by simpl in Hk; rewrite lookup_empty in Hk |].
    assert (is_Some (m_adapt (foldl addPlugin no_deps ms') !! k)) as [? ?].
    { apply foldl_addPlugin_adapt_is_Some. right. exists m. by rewrite <- Hp. }
    congruence.
  - apply foldl_addPlugin_adapt_Some in Hk' as [Hk' | (m & Hm & Hn & Hv)];
      [by simpl in Hk'; rewrite lookup_empty in Hk' |].
    assert (is_Some (m_adapt (foldl addPlugin no_deps ms) !! k)) as [? ?].
    { apply foldl_addPlugin_adapt_is_Some. right. exists m. by rewrite Hp. }
    congruence.
Qed.

(** C3, amended. Two arrival orders of the same plugins give the same
    [all] and the same [dev]; they give the same [adapt], hence the same
    [DependencySet], when plugins that share a name share their version. *)
Theorem getAppDependencies_order_independent (ms ms' : list manifest) :
  ms ≡ₚ ms' →
  all (appDependencies ms) = all (appDependencies ms') ∧
  dev (appDependencies ms) = dev (appDependencies ms') ∧
  (versions_agree ms → appDependencies ms = appDependencies ms').
Proof.
  intros Hp.
  assert (all (appDependencies ms) = all (appDependencies ms')) as Hall.
  { unfold appDependencies. cbn [all]. apply map_filter_strong_ext_1.
    intros k x. rewrite (processed_all_Permutation _ _ Hp). cbn [fst].
    pose proof (adapt_lookup_None ms k) as H1.
    pose proof (adapt_lookup_None ms' k) as H2.
    unfold appDependencies in H1, H2. cbn [adapt] in H1, H2.
    rewrite H1, H2. split; intros [Hn ?]; (split; [| done]);
      intros (m & Hm & ?); apply Hn; exists m; split; try done.
    - by rewrite Hp.
    - by rewrite <- Hp. }
  assert (dev (appDependencies ms) = dev (appDependencies ms')) as Hdev.
  { unfold appDependencies. cbn [dev]. by apply processed_dev_Permutation. }
  repeat split; try done.
  intros Hagree.
  assert (adapt (appDependencies ms) = adapt (appDependencies ms')) as Hadapt.
  { unfold appDependencies. cbn [adapt processDeps].
    by rewrite (adapt_Permutation _ _ Hp Hagree). }
  destruct (appDependencies ms), (appDependencies ms'). simpl in *. congruence.
Qed.

Lemma getAppDependencies_order_independent_witness :
  [plugin_core; plugin_auth] ≡ₚ [plugin_auth; plugin_core] ∧
  appDependencies [plugin_core; plugin_auth] = appDependencies [plugin_auth; plugin_core].
Proof.
  split; [apply Permutation_swap |].
  apply (getAppDependencies_order_independent [plugin_core; plugin_auth]
           [plugin_auth; plugin_core]).
  - apply Permutation_swap.
  - intros m1 m2 Hm1 Hm2.
    apply elem_of_cons in Hm1 as [-> | Hm1]; [| apply list_elem_of_singleton in Hm1 as ->];
    (apply elem_of_cons in Hm2 as [-> | Hm2]; [| apply list_elem_of_singleton in Hm2 as ->]);
    vm_compute; congruence.
Defined.

(** The I/O wrapper only decides which manifests are merged, and in which
    order. *)
Lemma getAppDependencies_merged (readManifest : Scanner.path → option manifest)
    (cwd : Scanner.path) (modules : Scanner.node) (deps : DependencySet) :
  getAppDependencies readManifest cwd modules = Ok deps →
  ∃ dirs ms,
    Scanner.getAdaptDepsRecursive (Scanner.resolve cwd "node_modules") modules = Ok dirs ∧
    Forall2 (λ d m, readManifest (Scanner.resolve d "package.json") = Some m) dirs ms ∧
    deps = appDependencies ms.
Proof.
  unfold getAppDependencies. intros (dirs & Hscan & Hdeps)%bind_Ok_inv.
  apply bind_Ok_inv in Hdeps as (merged & Hfold & Hdeps). injection Hdeps as <-.
  exists dirs. unfold appDependencies.
  enough (∀ deps0, foldM (λ deps d,
                    match readManifest (Scanner.resolve d "package.json") with
                    | Some m => Ok (addPlugin deps m)
                    | None => Throw (Error "package.json")
                    end) deps0 dirs = Ok merged →
          ∃ ms, Forall2 (λ d m, readManifest (Scanner.resolve d "package.json") = Some m)
                  dirs ms ∧ merged = foldl addPlugin deps0 ms) as Hgen.
  { destruct (Hgen _ Hfold) as (ms & ? & ->). by exists ms. }
  clear Hscan Hfold. induction dirs as [| d dirs IH]; intros deps0 Hfold.
  - injection Hfold as <-. exists []. by split; [constructor |].
  - cbn [foldM] in Hfold. apply bind_Ok_inv in Hfold as (deps1 & Hread & Hfold).
    destruct (readManifest (Scanner.resolve d "package.json")) as [m |] eqn:Hm;
      [| done].
    injection Hread as <-. destruct (IH _ Hfold) as (ms & ? & ->).
    exists (m :: ms). by split; [constructor |].
Qed.

End deps_proofs.

(** ** Release selector *)

Section releases_proofs.
Import Releases.

Variable semver_valid : string → bool.
Variable semver_gt : string → string → bool.
Variable Date_parse : string → time.

#[local] Abbreviation keep := (keep semver_valid semver_gt).
#[local] Abbreviation selectReleases := (selectReleases semver_valid semver_gt Date_parse).
#[local] Abbreviation getReleases := (getReleases semver_valid semver_gt Date_parse).
#[local] Abbreviation annotate := (annotate Date_parse).
#[local] Abbreviation retained := (retained semver_valid semver_gt).
#[local] Abbreviation semver_newer := (semver_newer semver_valid semver_gt).
#[local] Abbreviation branch_candidate := (branch_candidate Date_parse).

Implicit Types (w : world) (o : options) (r : candidate).
Implicit Types (cvd : option time) (releases : list candidate).

Lemma truthy_true (x : option bool) : truthy x = true ↔ x = Some true.
Proof. destruct x as [[] |]; simpl; split; congruence. Qed.

Lemma date_lt_true (x y : option time) :
  date_lt x y = true ↔ ∃ t u, x = Some (Some t) ∧ y = Some (Some u) ∧ (t < u)%Z.
Proof.
  destruct x as [[t |] |], y as [[u |] |]; simpl;
    try (split; [discriminate | intros (? & ? & ? & ? & _); discriminate]).
  rewrite Z.ltb_lt. split.
  - intros ?. by exists t, u.
  - intros (? & ? & [= <-] & [= <-] & ?). done.
Qed.

(** The callback of [filter] implements the two rules of the
    specification. *)
Lemma keep_true o cvd r :
  keep o cvd r = true ↔ ¬ excluded o r ∧ retained o cvd r.
Proof.
  unfold Releases.keep, excluded, Releases.retained, no_current,
    Releases.semver_newer, date_newer.
  destruct (bool_decide_reflect (Some (tag_name r) = currentVersion o)) as [Htag | Htag];
    simpl.
  { split; [discriminate |]. intros [Hex _]. destruct Hex. by left. }
  destruct (truthy (prerelease r) && negb (includePrereleases o)) eqn:Hpre; simpl.
  { apply andb_prop in Hpre as [Hp%truthy_true Hi%negb_true_iff].
    split; [discriminate |]. intros [Hex _]. destruct Hex. right. by left. }
  destruct (truthy (draft r) && negb (includeDrafts o)) eqn:Hdraft; simpl.
  { apply andb_prop in Hdraft as [Hd%truthy_true Hi%negb_true_iff].
    split; [discriminate |]. intros [Hex _]. destruct Hex. right. by right. }
  assert (¬ (currentVersion o = Some (tag_name r)
             ∨ prerelease r = Some true ∧ includePrereleases o = false
             ∨ draft r = Some true ∧ includeDrafts o = false)) as Hnot.
  { intros [? | [[Hp Hi] | [Hd Hi]]].
    - by apply Htag.
    - apply truthy_true in Hp. rewrite Hp, Hi in Hpre. discriminate.
    - apply truthy_true in Hd. rewrite Hd, Hi in Hdraft. discriminate. }
  rewrite !orb_true_iff, date_lt_true. split.
  - intros H. split; [done |]. destruct H as [[Hno | Hsem] | Hdate].
    + left. destruct (currentVersion o) as [v |]; [| by left].
      right. apply String.eqb_eq in Hno. by subst.
    + right. left. destruct (currentVersion o) as [v |]; [| done].
      apply andb_prop in Hsem as [[? ?]%andb_prop ?]. by exists v.
    + by do 2 right.
  - intros [_ [[Hno | Hno] | [(v & Hv & ? & ? & ?) | Hdate]]].
    + rewrite Hno. by do 2 left.
    + rewrite Hno. by do 2 left.
    + rewrite Hv. left. right. by rewrite !andb_true_iff.
    + by right.
Qed.

(** *** The sort *)

Lemma countAndMakeRun_Permutation {A} (compareFn : A → A → Z) (arr : list A) :
  (countAndMakeRun compareFn arr).1 ++ (countAndMakeRun compareFn arr).2 ≡ₚ arr.
Proof.
  unfold countAndMakeRun. destruct arr as [| x0 [| x1 rest]]; [done | done |].
  cbv zeta. generalize (2 + runLength compareFn (compareFn x1 x0 <? 0)%Z x1 rest).
  intros n. destruct (compareFn x1 x0 <? 0)%Z; cbn [fst snd].
  - by rewrite reverse_Permutation, take_drop.
  - by rewrite take_drop.
Qed.

Lemma insertPivot_Permutation {A} (compareFn : A → A → Z) (sorted : list A) (pivot : A) :
  insertPivot compareFn sorted pivot ≡ₚ pivot :: sorted.
Proof.
  unfold insertPivot. rewrite <- Permutation_middle. by rewrite take_drop.
Qed.

Lemma binaryInsertionSort_Permutation {A} (compareFn : A → A → Z) (rest : list A) :
  ∀ sorted, binaryInsertionSort compareFn sorted rest ≡ₚ sorted ++ rest.
Proof.
  unfold binaryInsertionSort.
  induction rest as [| pivot rest IH]; intros sorted; simpl.
  - by rewrite app_nil_r.
  - rewrite IH, insertPivot_Permutation. by rewrite <- Permutation_middle.
Qed.

Lemma sortWith_Permutation {A} (compareFn : A → A → Z) (arr : list A) :
  sortWith compareFn arr ≡ₚ arr.
Proof.
  unfold sortWith.
  pose proof (countAndMakeRun_Permutation compareFn arr) as Hrun.
  destruct (countAndMakeRun compareFn arr) as [run rest].
  by rewrite binaryInsertionSort_Permutation.
Qed.

Lemma elem_of_sortWith {A} (compareFn : A → A → Z) (arr : list A) (x : A) :
  x ∈ sortWith compareFn arr ↔ x ∈ arr.
Proof. by rewrite sortWith_Permutation. Qed.

Lemma elem_of_selectReleases o cvd releases r :
  r ∈ selectReleases o cvd releases ↔
  r ∈ annotate <$> releases ∧ keep o cvd r = true.
Proof.
  unfold Releases.selectReleases.
  rewrite elem_of_sortWith, list_elem_of_filter, Is_true_true. tauto.
Qed.

Lemma getReleases_fetched w o releases :
  fetchCandidates w o = Ok releases →
  getReleases w o = Ok (selectReleases o (currentVersionDate Date_parse w o) releases).
Proof. intros Hf. unfold Releases.getReleases. by rewrite Hf. Qed.

(** C2. Of the fetched candidates, the selector returns exactly those that
    are not excluded (tag equal to the current version, prerelease or
    draft not asked for) and that are retained (no current version, or a
    strictly greater semantic version, or a strictly later date). *)
Theorem getReleases_selection (w : world) (o : options) (releases : list candidate) :
  fetchCandidates w o = Ok releases →
  ∃ selected,
    getReleases w o = Ok selected ∧
    ∀ r, r ∈ selected ↔
         r ∈ annotate <$> releases ∧ ¬ excluded o r ∧
         retained o (currentVersionDate Date_parse w o) r.
Proof.
  intros Hf. eexists. split; [by apply getReleases_fetched |].
  intros r. by rewrite elem_of_selectReleases, keep_true.
Qed.

(** C10. When a current version is given but [git log] fails, whatever is
    returned passed the semantic-version test; if the current version is
    not a valid semantic version, nothing is returned. *)
Theorem getReleases_unknown_date (w : world) (o : options) (v : string) (e : error)
    (releases : list candidate) :
  currentVersion o = Some v → v ≠ "" →
  git_log w (cwd o) = Throw e →
  fetchCandidates w o = Ok releases →
  ∃ selected,
    getReleases w o = Ok selected ∧
    (∀ r, r ∈ selected → semver_newer o r) ∧
    (semver_valid v = false → selected = []).
Proof.
  intros Hv Hne Hgit Hf. eexists. split; [by apply getReleases_fetched |].
  assert (currentVersionDate Date_parse w o = None) as ->.
  { unfold currentVersionDate. by rewrite Hgit. }
  assert (∀ r, keep o None r = true → semver_newer o r) as Hsem.
  { intros r [_ [[Hno | Hno] | [Hs | (? & ? & [=] & _)]]]%keep_true; try done;
      rewrite Hv in Hno; congruence. }
  split.
  - intros r [_ Hk]%elem_of_selectReleases. by apply Hsem.
  - intros Hinvalid.
    destruct (selectReleases o None releases) as [| r rest] eqn:Hsel; [done |].
    assert (r ∈ selectReleases o None releases) as Hr by (rewrite Hsel; left).
    apply elem_of_selectReleases in Hr as [_ (v' & Hv' & Hvalid & _)%Hsem].
    congruence.
Qed.

Lemma githubRequest_non_success {A} (fetched : result (response A)) :
  non_success fetched → ∃ e, githubRequest fetched = Throw e.
Proof.
  intros (response & -> & Hs). unfold githubRequest. simpl.
  apply Z.ltb_lt in Hs. rewrite Hs. by eexists.
Qed.

Lemma addBranch_fails w acc (b : branch_info) :
  non_success (fetch_commit w (commit_endpoint (b_commit_url b))) →
  ∃ e, addBranch w acc b = Throw e.
Proof.
  intros Hfail. unfold addBranch.
  destruct (githubRequest_non_success _ Hfail) as [e ->]. by exists e.
Qed.

(** A rejection of one callback rejects [Promise.all]. *)
Lemma foldM_addBranch_fails w branches b : ∀ acc,
  b ∈ branches →
  non_success (fetch_commit w (commit_endpoint (b_commit_url b))) →
  ∃ e, foldM (addBranch w) acc branches = Throw e.
Proof.
  induction branches as [| b' branches IH]; intros acc Hin Hfail.
  { by apply elem_of_nil in Hin. }
  cbn [foldM]. apply elem_of_cons in Hin as [<- | Hin].
  - destruct (addBranch_fails w acc b Hfail) as [e ->]. by exists e.
  - destruct (addBranch w acc b') as [acc' | e]; simpl; [by apply IH | by exists e].
Qed.

(** C6. A request answered with a status above 299 makes [githubRequest],
    and with it the whole call, throw. A failing [git log] does not: the
    call then behaves as with an undefined current date. *)
Theorem getReleases_failures (w : world) (o : options) :
  (∀ A (fetched : result (response A)) response,
     fetched = Ok response → (299 < status response)%Z →
     githubRequest fetched = Throw (Error (statusText response))) ∧
  (request_fails w o → ∃ e, getReleases w o = Throw e) ∧
  (∀ e, git_log w (cwd o) = Throw e →
     getReleases w o =
       fetchCandidates w o ≫= λ releases, Ok (selectReleases o None releases)).
Proof.
  split; [| split].
  - intros A fetched response -> Hs. unfold githubRequest. simpl.
    apply Z.ltb_lt in Hs. by rewrite Hs.
  - intros Hfail. unfold Releases.getReleases, fetchCandidates.
    destruct Hfail as [Hrel | Hinc Hbr | branches b Hinc Hbr Hin Hcommit].
    + destruct (githubRequest_non_success _ Hrel) as [e ->]. by exists e.
    + destruct (githubRequest (fetch_releases w)) as [rels | e]; simpl;
        [| by exists e].
      unfold fetchBranches. rewrite Hinc.
      destruct (githubRequest_non_success _ Hbr) as [e ->]. by exists e.
    + destruct (githubRequest (fetch_releases w)) as [rels | e]; simpl;
        [| by exists e].
      unfold fetchBranches. rewrite Hinc, Hbr. simpl.
      destruct (foldM_addBranch_fails w branches b (map of_release <$> rels) Hin Hcommit)
        as [e ->].
      by exists e.
  - intros e Hgit. unfold Releases.getReleases, currentVersionDate.
    by rewrite Hgit.
Qed.

Lemma Sorted_mono {A} (R R' : relation A) (l : list A) :
  (∀ x y, R x y → R' x y) → Sorted R l → Sorted R' l.
Proof.
  intros HR. induction 1 as [| x l Hs IH Hhd]; constructor; [done |].
  destruct Hhd; constructor; auto.
Qed.

Lemma Sorted_adjacent {A} (R : relation A) (l : list A) :
  Sorted R l → ∀ i x y, l !! i = Some x → l !! S i = Some y → R x y.
Proof.
  induction 1 as [| x0 l Hs IH Hhd]; intros i x y Hx Hy; [done |].
  destruct i as [| i]; simpl in *.
  - injection Hx as ->. destruct Hhd as [| y0 l Hxy]; simpl in Hy; [done |].
    by injection Hy as ->.
  - by eapply IH.
Qed.

Lemma Sorted_insert {A} (R : relation A) (l1 l2 : list A) (p : A) :
  Sorted R (l1 ++ l2) →
  (∀ x, last l1 = Some x → R x p) →
  (∀ y, head l2 = Some y → R p y) →
  Sorted R (l1 ++ p :: l2).
Proof.
  induction l1 as [| a l1 IH]; simpl; intros Hs Hlast Hhead.
  - constructor; [done |]. destruct l2; constructor. by apply Hhead.
  - apply Sorted_inv in Hs as [Hs Hhd]. constructor.
    + apply IH; [done | | done]. intros x Hx. apply Hlast. by destruct l1.
    + destruct l1 as [| b l1]; simpl in *.
      * constructor. by apply Hlast.
      * apply HdRel_inv in Hhd. by constructor.
Qed.

Lemma Sorted_reverse {A} (R : relation A) (l : list A) :
  Sorted R l → Sorted (flip R) (reverse l).
Proof.
  induction 1 as [| x l Hs IH Hhd]; [constructor |].
  rewrite reverse_cons.
  rewrite <- (app_nil_r (reverse l ++ [x])), <- app_assoc. simpl.
  apply Sorted_insert; [by rewrite app_nil_r | | done].
  intros z Hz. rewrite last_reverse in Hz.
  destruct Hhd as [| y l Hxy]; [done |]. by injection Hz as <-.
Qed.

(** A run that is not descending: no element was to come before the one
    in front of it. *)
Lemma runLength_ascending {A} (compareFn : A → A → Z) (arr : list A) :
  ∀ previous,
    Sorted (λ y x, (0 ≤ compareFn x y)%Z)
      (previous :: take (runLength compareFn false previous arr) arr).
Proof.
  induction arr as [| current arr IH]; intros previous; simpl.
  { repeat constructor. }
  destruct (compareFn current previous <? 0)%Z eqn:Horder; simpl.
  { repeat constructor. }
  constructor; [apply IH |]. constructor. by apply Z.ltb_ge.
Qed.

(** A descending run: every element was to come before the one in front
    of it. *)
Lemma runLength_descending {A} (compareFn : A → A → Z) (arr : list A) :
  ∀ previous,
    Sorted (λ y x, (compareFn x y < 0)%Z)
      (previous :: take (runLength compareFn true previous arr) arr).
Proof.
  induction arr as [| current arr IH]; intros previous; simpl.
  { repeat constructor. }
  destruct (compareFn current previous <? 0)%Z eqn:Horder; simpl.
  - constructor; [apply IH |]. constructor. by apply Z.ltb_lt.
  - repeat constructor.
Qed.

Lemma countAndMakeRun_placed {A} (compareFn : A → A → Z) (arr : list A) :
  Sorted (placed compareFn) (countAndMakeRun compareFn arr).1.
Proof.
  unfold countAndMakeRun. destruct arr as [| x0 [| x1 rest]]; simpl fst.
  { constructor. }
  { repeat constructor. }
  cbv zeta. destruct (compareFn x1 x0 <? 0)%Z eqn:Horder; cbn [fst].
  - apply (Sorted_mono (flip (λ y x, (compareFn x y < 0)%Z))); [by right |].
    apply Sorted_reverse. cbn [Nat.add take].
    constructor; [apply runLength_descending |]. constructor. by apply Z.ltb_lt.
  - apply (Sorted_mono (λ y x, (0 ≤ compareFn x y)%Z)); [by left |].
    cbn [Nat.add take].
    constructor; [apply runLength_ascending |]. constructor. by apply Z.ltb_ge.
Qed.

(** Where the search ends, [pivot] was compared with both neighbours: it
    was not to come before the element on its left, and it was to come
    before the element on its right. *)
Lemma binarySearch_neighbours {A} (compareFn : A → A → Z) (pivot : A)
    (sorted : list A) (fuel : nat) :
  ∀ left right,
    (right - left ≤ fuel)%nat → (left ≤ right)%nat → (right ≤ length sorted)%nat →
    (∀ x, left ≠ 0 → sorted !! (left - 1) = Some x → (0 ≤ compareFn pivot x)%Z) →
    (∀ y, sorted !! right = Some y → (compareFn pivot y < 0)%Z) →
    let p := binarySearch fuel compareFn pivot sorted left right in
    (p ≤ length sorted)%nat ∧
    (∀ x, p ≠ 0 → sorted !! (p - 1) = Some x → (0 ≤ compareFn pivot x)%Z) ∧
    (∀ y, sorted !! p = Some y → (compareFn pivot y < 0)%Z).
Proof.
  induction fuel as [| fuel IH]; intros left right Hfuel Hle Hlen Hleft Hright;
    cbn [binarySearch].
  { assert (left = right) as -> by lia. done. }
  destruct (left <? right)%nat eqn:Hlt.
  2: { apply Nat.ltb_ge in Hlt. assert (left = right) as -> by lia. done. }
  apply Nat.ltb_lt in Hlt.
  assert (left + (right - left) / 2 < right) as Hmid.
  { pose proof (Nat.div_lt (right - left) 2). lia. }
  destruct (lookup_lt_is_Some_2 sorted (left + (right - left) / 2)) as [x Hx]; [lia |].
  rewrite Hx. destruct (compareFn pivot x <? 0)%Z eqn:Horder.
  - apply IH; [lia | lia | lia | done |].
    intros y Hy. rewrite Hx in Hy. injection Hy as <-. by apply Z.ltb_lt.
  - apply IH; [lia | lia | lia | | done].
    intros y _ Hy. replace (S (left + (right - left) / 2) - 1)
      with (left + (right - left) / 2) in Hy by lia.
    rewrite Hx in Hy. injection Hy as <-. by apply Z.ltb_ge.
Qed.

Lemma insertPivot_placed {A} (compareFn : A → A → Z) (sorted : list A) (pivot : A) :
  Sorted (placed compareFn) sorted →
  Sorted (placed compareFn) (insertPivot compareFn sorted pivot).
Proof.
  intros Hsorted. unfold insertPivot.
  destruct (binarySearch_neighbours compareFn pivot sorted (length sorted) 0 (length sorted))
    as (Hp & Hleft & Hright); [lia | lia | lia | done | |].
  { intros y Hy. apply lookup_lt_Some in Hy. lia. }
  set (p := binarySearch _ _ _ _ _ _) in *.
  apply Sorted_insert; [by rewrite take_drop | |].
  - intros x Hx. left. rewrite last_lookup, length_take in Hx.
    destruct (decide (p = 0)) as [Hzero | Hpos].
    { rewrite Hzero in Hx. by destruct sorted. }
    replace (Init.Nat.pred (p `min` length sorted)) with (p - 1) in Hx by lia.
    apply Hleft; [done |]. rewrite lookup_take_lt in Hx; [done | lia].
  - intros y Hy. right. rewrite head_lookup, lookup_drop in Hy.
    apply Hright. by rewrite Nat.add_0_r in Hy.
Qed.

Lemma sortWith_placed {A} (compareFn : A → A → Z) (arr : list A) :
  Sorted (placed compareFn) (sortWith compareFn arr).
Proof.
  unfold sortWith. pose proof (countAndMakeRun_placed compareFn arr) as Hrun.
  destruct (countAndMakeRun compareFn arr) as [run rest]. simpl in Hrun.
  unfold binaryInsertionSort. revert run Hrun.
  induction rest as [| pivot rest IH]; intros run Hrun; simpl; [done |].
  by apply IH, insertPivot_placed.
Qed.

(** An insertion leaves the elements that are there in their order. *)
Lemma lookup_insert_at {A} (l : list A) (p i : nat) (x a : A) :
  l !! i = Some a →
  (take p l ++ x :: drop p l) !! (if (i <? p)%nat then i else S i) = Some a.
Proof.
  intros Hi. pose proof (lookup_lt_Some _ _ _ Hi) as Hlen.
  destruct (i <? p)%nat eqn:Hip.
  - apply Nat.ltb_lt in Hip. rewrite lookup_app_l by (rewrite length_take; lia).
    by rewrite lookup_take_lt.
  - apply Nat.ltb_ge in Hip. rewrite lookup_app_r by (rewrite length_take; lia).
    rewrite length_take. replace (S i - p `min` length l) with (S (i - p)) by lia.
    simpl. rewrite lookup_drop. by replace (p + (i - p)) with i by lia.
Qed.

Lemma precedes_insertPivot {A} (compareFn : A → A → Z) (sorted : list A)
    (pivot a b : A) :
  precedes sorted a b → precedes (insertPivot compareFn sorted pivot) a b.
Proof.
  intros (i & j & Hi & Hj & Hij). unfold insertPivot.
  set (p := binarySearch _ _ _ _ _ _).
  exists (if (i <? p)%nat then i else S i), (if (j <? p)%nat then j else S j).
  split; [by apply lookup_insert_at |]. split; [by apply lookup_insert_at |].
  destruct (Nat.ltb_spec i p), (Nat.ltb_spec j p); lia.
Qed.

Lemma precedes_binaryInsertionSort {A} (compareFn : A → A → Z) (rest : list A)
    (a b : A) :
  ∀ sorted, precedes sorted a b →
            precedes (binaryInsertionSort compareFn sorted rest) a b.
Proof.
  unfold binaryInsertionSort.
  induction rest as [| pivot rest IH]; intros sorted Hpre; simpl; [done |].
  by apply IH, precedes_insertPivot.
Qed.

(** An element that is to come before every other goes to the front. *)
Lemma binarySearch_front {A} (compareFn : A → A → Z) (pivot : A) (sorted : list A)
    (fuel : nat) :
  (∀ x, x ∈ sorted → (compareFn pivot x < 0)%Z) →
  ∀ right, (right ≤ length sorted)%nat →
           binarySearch fuel compareFn pivot sorted 0 right = 0.
Proof.
  intros Hfront. induction fuel as [| fuel IH]; intros right Hright;
    cbn [binarySearch]; [done |].
  destruct (0 <? right)%nat eqn:Hlt; [| done]. apply Nat.ltb_lt in Hlt.
  assert (0 + (right - 0) / 2 < right) as Hmid.
  { pose proof (Nat.div_lt (right - 0) 2). lia. }
  destruct (lookup_lt_is_Some_2 sorted (0 + (right - 0) / 2)) as [x Hx]; [lia |].
  rewrite Hx. pose proof (Hfront x (list_elem_of_lookup_2 _ _ _ Hx)) as Horder.
  apply Z.ltb_lt in Horder. rewrite Horder. apply IH. lia.
Qed.

Lemma insertPivot_front {A} (compareFn : A → A → Z) (sorted : list A) (pivot : A) :
  (∀ x, x ∈ sorted → (compareFn pivot x < 0)%Z) →
  insertPivot compareFn sorted pivot = pivot :: sorted.
Proof.
  intros Hfront. unfold insertPivot.
  rewrite (binarySearch_front compareFn pivot sorted _ Hfront); [| done].
  by rewrite take_0, drop_0.
Qed.

Lemma binaryInsertionSort_front {A} (compareFn : A → A → Z) (rest : list A)
    (a b : A) :
  ∀ sorted j,
    rest !! j = Some a →
    (b ∈ sorted ∨ ∃ i, i < j ∧ rest !! i = Some b) →
    (∀ x, x ∈ sorted ++ rest → (compareFn a x < 0)%Z) →
    precedes (binaryInsertionSort compareFn sorted rest) a b.
Proof.
  induction rest as [| pivot rest IH]; intros sorted j Hj Hb Hfront; [done |].
  change (binaryInsertionSort compareFn sorted (pivot :: rest))
    with (binaryInsertionSort compareFn (insertPivot compareFn sorted pivot) rest).
  destruct j as [| j]; simpl in Hj.
  - injection Hj as ->. destruct Hb as [Hb | (i & Hi & _)]; [| lia].
    apply precedes_binaryInsertionSort. rewrite insertPivot_front.
    + apply list_elem_of_lookup_1 in Hb as [i Hi].
      exists 0, (S i). repeat split; [done | lia].
    + intros x Hx. apply Hfront, elem_of_app. by left.
  - apply (IH _ j); [done | |].
    + destruct Hb as [Hb | (i & Hi & Hb)].
      * left. rewrite insertPivot_Permutation. by right.
      * destruct i as [| i]; simpl in Hb.
        -- injection Hb as ->. left. rewrite insertPivot_Permutation. by left.
        -- right. exists i. split; [lia | done].
    + intros x Hx. apply Hfront.
      rewrite insertPivot_Permutation in Hx.
      apply elem_of_app in Hx as [Hx | Hx].
      * apply elem_of_cons in Hx as [-> | Hx]; apply elem_of_app.
        -- right. by left.
        -- by left.
      * apply elem_of_app. right. by right.
Qed.

(** What is to come before every element of the array ends up before
    everything that stood in front of it. *)
Lemma sortWith_front {A} (compareFn : A → A → Z) (arr : list A) (a b : A)
    (ia ib : nat) :
  arr !! ib = Some b → arr !! ia = Some a → ib < ia →
  (∀ x, x ∈ arr → (compareFn a x < 0)%Z) →
  precedes (sortWith compareFn arr) a b.
Proof.
  intros Hb Ha Hlt Hfront. unfold sortWith, countAndMakeRun.
  destruct arr as [| x0 [| x1 rest]].
  { done. }
  { apply lookup_lt_Some in Ha. simpl in Ha. lia. }
  cbv zeta. set (arr := x0 :: x1 :: rest) in *.
  set (descending := (compareFn x1 x0 <? 0)%Z).
  set (n := 2 + runLength compareFn descending x1 rest).
  assert (take n arr ++ drop n arr = arr) as Hsplit by apply take_drop.
  destruct (decide (ia < n)) as [Hin | Hout].
  - (* [a] is part of the run, which is then descending *)
    assert (take n arr !! ia = Some a) as Ha' by by rewrite lookup_take_lt.
    assert (take n arr !! ib = Some b) as Hb' by (rewrite lookup_take_lt; [done | lia]).
    destruct descending eqn:Hdesc; cbn [fst snd].
    + apply precedes_binaryInsertionSort.
      pose proof (lookup_lt_Some _ _ _ Ha') as Hlen.
      exists (length (take n arr) - S ia), (length (take n arr) - S ib).
      rewrite !reverse_lookup by lia.
      replace (length (take n arr) - S (length (take n arr) - S ia)) with ia by lia.
      replace (length (take n arr) - S (length (take n arr) - S ib)) with ib by lia.
      repeat split; [done | done | lia].
    + exfalso. destruct ia as [| ia]; [lia |].
      assert (Sorted (λ y x, (0 ≤ compareFn x y)%Z) (take n arr)) as Hrun.
      { unfold n, arr. cbn [Nat.add take].
        constructor; [apply runLength_ascending |]. constructor.
        by apply Z.ltb_ge. }
      destruct (lookup_lt_is_Some_2 (take n arr) ia) as [y Hy].
      { apply lookup_lt_Some in Ha'. lia. }
      pose proof (Sorted_adjacent _ _ Hrun ia y a Hy Ha') as Horder.
      assert (y ∈ arr) as Hin_arr.
      { rewrite <- Hsplit. apply elem_of_app. left. by eapply list_elem_of_lookup_2. }
      specialize (Hfront y Hin_arr). simpl in Horder. lia.
  - (* [a] is inserted, at the front *)
    assert (length (take n arr) = n) as Hlen.
    { rewrite length_take. apply lookup_lt_Some in Ha. lia. }
    assert (drop n arr !! (ia - n) = Some a) as Ha'.
    { rewrite lookup_drop. by replace (n + (ia - n)) with ia by lia. }
    assert (∀ run, run ≡ₚ take n arr →
              precedes (binaryInsertionSort compareFn run (drop n arr)) a b) as Hgoal.
    { intros run Hrun. apply (binaryInsertionSort_front _ _ _ _ _ (ia - n)); [done | |].
      - destruct (decide (ib < n)) as [Hbin | Hbout].
        + left. rewrite Hrun. apply (list_elem_of_lookup_2 _ ib).
          by rewrite lookup_take_lt.
        + right. exists (ib - n). split; [lia |].
          rewrite lookup_drop. by replace (n + (ib - n)) with ib by lia.
      - intros x Hx. apply Hfront. by rewrite <- Hsplit, <- Hrun. }
    destruct descending; cbn [fst snd]; apply Hgoal; [apply reverse_Permutation | done].
Qed.

Lemma placed_byDate (a b : candidate) :
  placed byDate a b → date_lt (date a) (date b) = false.
Proof.
  unfold placed, byDate. intros [Hba | Hab].
  - destruct (date_lt (date b) (date a)) eqn:Hlt; [| lia].
    apply date_lt_true in Hlt as (t & u & -> & -> & Hlt). simpl.
    apply Z.ltb_ge. lia.
  - by destruct (date_lt (date a) (date b)); [lia |].
Qed.

Lemma append_empty_r (s : string) : s +:+ "" = s.
Proof.
  induction s as [| c s IH]; [done |].
  change (String c (s +:+ "") = String c s). by rewrite IH.
Qed.

(** What [Promise.all] over the branches leaves in [releases]. *)
Lemma foldM_addBranch_Some w (branches : list branch_info) :
  ∀ (old : list candidate) res,
  foldM (addBranch w) (Some old) branches = Ok res →
  ∃ new, res = Some (old ++ new) ∧
    ∀ r, r ∈ new → ∃ b, b ∈ branches ∧ branch_candidate w b (annotate r).
Proof.
  induction branches as [| b branches IH]; intros old res Hres.
  { injection Hres as <-. exists []. rewrite app_nil_r. split; [done |].
    by intros r ?%elem_of_nil. }
  cbn [foldM] in Hres. apply bind_Ok_inv in Hres as (acc & Hadd & Hres).
  unfold addBranch in Hadd. apply bind_Ok_inv in Hadd as (body & Hbody & Hadd).
  destruct body as [commit |]; [| done]. injection Hadd as <-.
  apply IH in Hres as (new & -> & Hnew).
  eexists (_ :: new). rewrite <- app_assoc. split; [done |].
  intros r [-> | Hr]%elem_of_cons.
  - exists b. split; [left |].
    unfold githubRequest in Hbody.
    apply bind_Ok_inv in Hbody as (response & Hfetch & Hbody).
    exists response. split; [done |].
    destruct (299 <? status response)%Z; [done |].
    case_bool_decide; [| done]. injection Hbody as <-.
    cbn. by rewrite append_empty_r.
  - destruct (Hnew r Hr) as (b' & ? & ?). exists b'. split; [by right | done].
Qed.

(** The array that is sorted holds the releases first and the branches
    after them. *)
Lemma fetchCandidates_order w o releases :
  fetchCandidates w o = Ok releases →
  ∃ old new, releases = old ++ new ∧
    Forall (λ r, branch r = None) old ∧ Forall (λ r, branch r = Some true) new.
Proof.
  intros Hf. unfold fetchCandidates in Hf.
  apply bind_Ok_inv in Hf as (rels & _ & Hf).
  apply bind_Ok_inv in Hf as (res & Hbr & Hf).
  destruct res as [res |]; [| done]. injection Hf as ->.
  assert (∀ l : list release, Forall (λ r, branch r = None) (map of_release l)) as Hold.
  { intros l. apply Forall_forall. by intros r (x & -> & _)%list_elem_of_fmap. }
  unfold fetchBranches in Hbr. destruct (includeBranches o).
  - apply bind_Ok_inv in Hbr as (branches & _ & Hbr).
    destruct branches as [branches |]; [| done].
    destruct rels as [rels |]; simpl in Hbr.
    + apply foldM_addBranch_Some in Hbr as (new & [= ->] & Hnew).
      exists (map of_release rels), new. split; [done |]. split; [done |].
      apply Forall_forall. intros r Hr.
      by destruct (Hnew r Hr) as (b & _ & (? & _ & _ & _ & _ & ? & _)).
    + destruct branches as [| b branches]; [done |].
      cbn [foldM] in Hbr. apply bind_Ok_inv in Hbr as (acc & Hadd & _).
      unfold addBranch in Hadd. apply bind_Ok_inv in Hadd as (body & _ & Hadd).
      by destruct body.
  - injection Hbr as Hres. destruct rels as [rels |]; [| done].
    injection Hres as <-. exists (map of_release rels), [].
    by rewrite app_nil_r.
Qed.

(** C5. The returned array is in descending order of date: no candidate
    is directly followed by one with a later date. A branch whose head
    commit is the most recent, no returned candidate having a later date,
    comes before every release with an older date. *)
Theorem getReleases_sorted (w : world) (o : options) (selected : list candidate) :
  getReleases w o = Ok selected →
  (∀ i a b, selected !! i = Some a → selected !! S i = Some b →
            date_lt (date a) (date b) = false) ∧
  (∀ a b, a ∈ selected → b ∈ selected →
          branch a = Some true → branch b = None →
          (∀ x, x ∈ selected → date_lt (date a) (date x) = false) →
          date_lt (date b) (date a) = true →
          precedes selected a b).
Proof.
  intros Hget. unfold Releases.getReleases in Hget.
  apply bind_Ok_inv in Hget as (releases & Hfetch & Hget). injection Hget as <-.
  unfold Releases.selectReleases.
  match goal with |- context [sortWith byDate ?l] => set (arr := l) end.
  split.
  - intros i a b Ha Hb. apply placed_byDate.
    exact (Sorted_adjacent _ _ (sortWith_placed byDate arr) i a b Ha Hb).
  - intros a b Ha Hb Hbranch Hrelease Hrecent _.
    rewrite sortWith_Permutation in Ha, Hb.
    destruct (fetchCandidates_order _ _ _ Hfetch) as (old & new & -> & Hold & Hnew).
    unfold arr in *. rewrite fmap_app, filter_app in *.
    set (front := filter _ (annotate <$> old)) in *.
    set (back := filter _ (annotate <$> new)) in *.
    assert (Forall (λ r, branch r = None) front) as Hfront.
    { apply Forall_forall. intros r [_ (r0 & -> & Hr0)%list_elem_of_fmap]%list_elem_of_filter.
      rewrite Forall_forall in Hold. exact (Hold r0 Hr0). }
    assert (Forall (λ r, branch r = Some true) back) as Hback.
    { apply Forall_forall. intros r [_ (r0 & -> & Hr0)%list_elem_of_fmap]%list_elem_of_filter.
      rewrite Forall_forall in Hnew. exact (Hnew r0 Hr0). }
    rewrite Forall_forall in Hfront, Hback.
    apply elem_of_app in Ha as [Ha | Ha].
    { specialize (Hfront a Ha). congruence. }
    apply elem_of_app in Hb as [Hb | Hb].
    2: { specialize (Hback b Hb). congruence. }
    apply list_elem_of_lookup_1 in Ha as [ia Hia].
    apply list_elem_of_lookup_1 in Hb as [ib Hib].
    apply (sortWith_front byDate _ a b (length front + ia) ib).
    + by apply lookup_app_l_Some.
    + rewrite lookup_app_r by lia. by replace (length front + ia - length front) with ia by lia.
    + apply lookup_lt_Some in Hib. lia.
    + intros x Hx. unfold byDate. rewrite Hrecent; [lia |].
      by rewrite sortWith_Permutation.
Qed.

(** Two orders that only this sort gives. Equal dates: a candidate put in
    place later goes in front. Invalid dates: the comparator answers [-1]
    both ways, the whole array counts as one descending run and is
    reversed. *)
Example sortWith_equal_dates :
  tag_name <$> sortWith byDate [sample_330; sample_310; sample_master; sample_develop]
  = ["develop"; "master"; "3.3.0"; "3.1.0"].
Proof. vm_compute. reflexivity. Qed.

Example sortWith_invalid_dates :
  tag_name <$> sortWith byDate [sample_310; undated "a"; undated "b"; sample_master]
  = ["master"; "b"; "a"; "3.1.0"].
Proof. vm_compute. reflexivity. Qed.

Lemma fetchCandidates_branch w o releases r :
  fetchCandidates w o = Ok releases →
  r ∈ releases → branch r = Some true →
  includeBranches o = true ∧
  ∃ branches b,
    githubRequest (fetch_branches w) = Ok (Some branches) ∧
    b ∈ branches ∧ branch_candidate w b (annotate r).
Proof.
  intros Hf Hr Hbranch. unfold fetchCandidates in Hf.
  apply bind_Ok_inv in Hf as (rels & _ & Hf).
  apply bind_Ok_inv in Hf as (res & Hbr & Hf).
  destruct res as [res |]; [| done]. injection Hf as ->.
  unfold fetchBranches in Hbr.
  assert (∀ l : list release, r ∉ map of_release l) as Hnot.
  { intros l (x & -> & _)%list_elem_of_fmap. done. }
  destruct (includeBranches o).
  - split; [done |].
    apply bind_Ok_inv in Hbr as (branches & Hbranches & Hbr).
    destruct branches as [branches |]; [| done].
    exists branches. destruct rels as [rels |]; simpl in Hbr.
    + apply foldM_addBranch_Some in Hbr as (new & [= ->] & Hnew).
      apply elem_of_app in Hr as [Hr | Hr]; [by apply Hnot in Hr |].
      destruct (Hnew r Hr) as (b & ? & ?). by exists b.
    + destruct branches as [| b branches]; [done |].
      cbn [foldM] in Hbr. apply bind_Ok_inv in Hbr as (acc & Hadd & _).
      unfold addBranch in Hadd. apply bind_Ok_inv in Hadd as (body & _ & Hadd).
      by destruct body.
  - injection Hbr as Hres. destruct rels as [rels |]; [| done].
    injection Hres as <-. by apply Hnot in Hr.
Qed.

Lemma keep_with_flags o cvd r pre drafts :
  draft r = None → prerelease r = None →
  keep (with_flags pre drafts o) cvd r = keep o cvd r.
Proof. intros Hd Hp. unfold Releases.keep. rewrite Hd, Hp. done. Qed.

(** Every branch that was listed has its candidate among those pushed. *)
Lemma foldM_addBranch_each w (branches : list branch_info) :
  ∀ (old : list candidate) res,
  foldM (addBranch w) (Some old) branches = Ok res →
  ∃ new, res = Some (old ++ new) ∧
    ∀ b, b ∈ branches → ∃ r, r ∈ new ∧ branch_candidate w b (annotate r).
Proof.
  induction branches as [| b branches IH]; intros old res Hres.
  { injection Hres as <-. exists []. rewrite app_nil_r. split; [done |].
    by intros b ?%elem_of_nil. }
  cbn [foldM] in Hres. apply bind_Ok_inv in Hres as (acc & Hadd & Hres).
  unfold addBranch in Hadd. apply bind_Ok_inv in Hadd as (body & Hbody & Hadd).
  destruct body as [commit |]; [| done]. injection Hadd as <-.
  apply IH in Hres as (new & -> & Hnew).
  eexists (_ :: new). rewrite <- app_assoc. split; [done |].
  intros b' [-> | Hb]%elem_of_cons.
  - eexists. split; [left |].
    unfold githubRequest in Hbody.
    apply bind_Ok_inv in Hbody as (response & Hfetch & Hbody).
    exists response. split; [done |].
    destruct (299 <? status response)%Z; [done |].
    case_bool_decide; [| done]. injection Hbody as <-.
    cbn. by rewrite append_empty_r.
  - destruct (Hnew b' Hb) as (r & ? & ?). exists r. split; [by right | done].
Qed.

Lemma fetchCandidates_each w o releases :
  fetchCandidates w o = Ok releases →
  includeBranches o = true →
  ∃ branches,
    githubRequest (fetch_branches w) = Ok (Some branches) ∧
    ∀ b, b ∈ branches → ∃ r, r ∈ annotate <$> releases ∧ branch_candidate w b r.
Proof.
  intros Hf Hinc. unfold fetchCandidates in Hf.
  apply bind_Ok_inv in Hf as (rels & _ & Hf).
  apply bind_Ok_inv in Hf as (res & Hbr & Hf).
  destruct res as [res |]; [| done]. injection Hf as ->.
  unfold fetchBranches in Hbr. rewrite Hinc in Hbr.
  apply bind_Ok_inv in Hbr as (branches & Hbranches & Hbr).
  destruct branches as [branches |]; [| done].
  exists branches. split; [done |].
  destruct rels as [rels |]; simpl in Hbr.
  - apply foldM_addBranch_each in Hbr as (new & [= ->] & Hnew).
    intros b Hb. destruct (Hnew b Hb) as (r & Hr & Hcandidate).
    exists (annotate r). split; [| done].
    apply list_elem_of_fmap. exists r. split; [done |].
    apply elem_of_app. by right.
  - destruct branches as [| b branches]; [done |].
    cbn [foldM] in Hbr. apply bind_Ok_inv in Hbr as (acc & Hadd & _).
    unfold addBranch in Hadd. apply bind_Ok_inv in Hadd as (body & _ & Hadd).
    by destruct body.
Qed.

(** C9. With [includeBranches], every branch that the host lists gives a
    candidate. A candidate marked as a branch was built from one of the
    listed branches: its name is the branch name followed by " (branch)",
    its tag the branch name, its date that of the head commit, [branch] is
    true, and it has neither a draft nor a prerelease property. It is
    returned exactly when its tag is not the current version and it is
    retained: the draft and prerelease rules never remove it, whatever
    [includePrereleases] and [includeDrafts] are. *)
Theorem getReleases_branches (w : world) (o : options) (releases : list candidate) :
  fetchCandidates w o = Ok releases →
  (includeBranches o = true →
     ∃ branches,
       githubRequest (fetch_branches w) = Ok (Some branches) ∧
       ∀ b, b ∈ branches → ∃ r, r ∈ annotate <$> releases ∧ branch_candidate w b r) ∧
  (∀ r, r ∈ annotate <$> releases → branch r = Some true →
        includeBranches o = true ∧
        ∃ branches b,
          githubRequest (fetch_branches w) = Ok (Some branches) ∧
          b ∈ branches ∧ branch_candidate w b r) ∧
  (∃ selected,
      getReleases w o = Ok selected ∧
      ∀ r, branch r = Some true →
           (r ∈ selected ↔
              r ∈ annotate <$> releases ∧ currentVersion o ≠ Some (tag_name r) ∧
              retained o (currentVersionDate Date_parse w o) r)) ∧
  (∀ pre drafts, ∃ selected selected',
      getReleases w o = Ok selected ∧
      getReleases w (with_flags pre drafts o) = Ok selected' ∧
      ∀ r, branch r = Some true → (r ∈ selected ↔ r ∈ selected')).
Proof.
  intros Hf.
  assert (∀ r, r ∈ annotate <$> releases → branch r = Some true →
        includeBranches o = true ∧
        ∃ branches b,
          githubRequest (fetch_branches w) = Ok (Some branches) ∧
          b ∈ branches ∧ branch_candidate w b r) as Hbranch.
  { intros r (r0 & -> & Hr0)%list_elem_of_fmap Hb.
    by eapply fetchCandidates_branch. }
  split; [by apply fetchCandidates_each |].
  split; [done |]. split.
  - eexists. split; [by apply getReleases_fetched |].
    intros r Hb. rewrite elem_of_selectReleases, keep_true.
    split.
    + intros (Hr & Hex & Hret). split; [done |]. split; [| done].
      intros Htag. apply Hex. by left.
    + intros (Hr & Htag & Hret). split; [done |]. split; [| done].
      destruct (Hbranch r Hr Hb) as (_ & ? & b & _ & _ & (? & _ & _ & _ & _ & _ & Hd & Hp)).
      intros [? | [[Hp' _] | [Hd' _]]]; [done | congruence | congruence].
  - intros pre drafts.
    assert (fetchCandidates w (with_flags pre drafts o) = Ok releases) as Hf'
      by exact Hf.
    do 2 eexists. split; [by apply getReleases_fetched |].
    split; [by apply getReleases_fetched |].
    intros r Hb. rewrite !elem_of_selectReleases.
    change (currentVersionDate Date_parse w (with_flags pre drafts o))
      with (currentVersionDate Date_parse w o).
    split; intros [Hr Hk]; (split; [done |]);
      destruct (Hbranch r Hr Hb) as (_ & ? & b & _ & _ & (? & _ & _ & _ & _ & _ & Hd & Hp));
      by rewrite keep_with_flags in *.
Qed.

End releases_proofs.

(** The example of the specification: current version 3.2.0, a later
    release 3.3.0, an earlier prerelease 3.1.0, and a branch whose head
    commit is the most recent. *)
Example getReleases_sample :
  Releases.tag_name <$>
    match Releases.getReleases Releases.sample_valid Releases.sample_gt
            Releases.sample_parse Releases.sample_world Releases.sample_options with
    | Ok selected => selected
    | Throw _ => []
    end
  = ["master"; "3.3.0"].
Proof. vm_compute. reflexivity. Qed.

Section releases_witnesses.
Import Releases.

Lemma getReleases_selection_witness :
  ∃ releases,
    fetchCandidates sample_world sample_options = Ok releases ∧
    ∃ selected,
      getReleases sample_valid sample_gt sample_parse sample_world sample_options
        = Ok selected ∧
      ∀ r, r ∈ selected ↔
           r ∈ annotate sample_parse <$> releases ∧ ¬ excluded sample_options r ∧
           retained sample_valid sample_gt sample_options
             (currentVersionDate sample_parse sample_world sample_options) r.
Proof.
  eexists. split; [vm_compute; reflexivity |].
  apply getReleases_selection. vm_compute; reflexivity.
Defined.

Lemma getReleases_sorted_witness :
  getReleases sample_valid sample_gt sample_parse sample_world sample_options
    = Ok [sample_master; sample_330] ∧
  (∀ i a b, [sample_master; sample_330] !! i = Some a →
            [sample_master; sample_330] !! S i = Some b →
            date_lt (date a) (date b) = false) ∧
  precedes [sample_master; sample_330] sample_master sample_330.
Proof.
  assert (getReleases sample_valid sample_gt sample_parse sample_world sample_options
          = Ok [sample_master; sample_330]) as Hget by (vm_compute; reflexivity).
  destruct (getReleases_sorted sample_valid sample_gt sample_parse sample_world
              sample_options _ Hget) as [Hadjacent Hbranch].
  split; [exact Hget |]. split; [exact Hadjacent |].
  apply Hbranch.
  - left.
  - right. left.
  - reflexivity.
  - reflexivity.
  - intros x Hx. apply elem_of_cons in Hx as [-> | Hx]; [reflexivity |].
    apply elem_of_cons in Hx as [-> | Hx]; [reflexivity |].
    by apply elem_of_nil in Hx.
  - reflexivity.
Defined.

Lemma getReleases_failures_witness :
  ∃ e, getReleases sample_valid sample_gt sample_parse sample_world_forbidden
         sample_options = Throw e.
Proof.
  apply (proj1 (proj2 (getReleases_failures sample_valid sample_gt sample_parse
                         sample_world_forbidden sample_options))).
  apply (commit_fails _ _ sample_branches
           {| b_name := "master";
              b_commit_url :=
                "https://api.github.com/repos/adapt-security/adapt-authoring/commits/abc" |}).
  - reflexivity.
  - vm_compute; reflexivity.
  - left.
  - eexists. split; [reflexivity |]. simpl. lia.
Defined.

Lemma getReleases_branches_witness :
  (∃ r, r ∈ [sample_master; sample_330] ∧
        branch_candidate sample_parse sample_world
          {| b_name := "master";
             b_commit_url :=
               "https://api.github.com/repos/adapt-security/adapt-authoring/commits/abc" |}
          r) ∧
  getReleases sample_valid sample_gt sample_parse sample_world sample_options
    = Ok [sample_master; sample_330] ∧
  ∀ pre drafts, ∃ selected,
    getReleases sample_valid sample_gt sample_parse sample_world
      (with_flags pre drafts sample_options) = Ok selected ∧
    sample_master ∈ selected.
Proof.
  assert (fetchCandidates sample_world sample_options
          = Ok (map of_release sample_releases
                  ++ [{| name := "master (branch)"; tag_name := "master";
                         published_at := Some "2024-04-10T00:00:00Z";
                         draft := None; prerelease := None; branch := Some true;
                         date := None |}])) as Hfetch by (vm_compute; reflexivity).
  destruct (getReleases_branches sample_valid sample_gt sample_parse sample_world
              sample_options _ Hfetch) as (Heach & Hbuilt & Hreturned & Hflags).
  assert (getReleases sample_valid sample_gt sample_parse sample_world sample_options
          = Ok [sample_master; sample_330]) as Hget by (vm_compute; reflexivity).
  split; [| split; [exact Hget |]].
  - destruct (Heach eq_refl) as (branches & Hbranches & Hall).
    injection Hbranches as <-.
    destruct (Hall _ (list_elem_of_here _ _)) as (r & Hr & Hcandidate).
    exists r. split; [| exact Hcandidate].
    destruct Hreturned as (selected & Hselected & Hiff).
    rewrite Hget in Hselected. injection Hselected as <-.
    apply Hiff.
    + by destruct Hcandidate as (? & _ & _ & _ & _ & ? & _).
    + split; [exact Hr |].
      destruct Hcandidate as (response & Hresponse & _ & Htag & Hdate & _).
      injection Hresponse as <-.
      split; [rewrite Htag; discriminate |].
      do 2 right. eexists _, _. split; [reflexivity |]. split; [exact Hdate |].
      vm_compute. reflexivity.
  - intros pre drafts.
    destruct (Hflags pre drafts) as (selected & selected' & Hselected & Hselected' & Hiff).
    exists selected'. split; [exact Hselected' |].
    apply Hiff; [reflexivity |].
    rewrite Hget in Hselected. injection Hselected as <-. left.
Defined.

Lemma getReleases_unknown_date_witness :
  ∃ selected,
    getReleases sample_valid sample_gt sample_parse sample_world_no_git
      sample_options_develop = Ok selected ∧
    (∀ r, r ∈ selected →
          semver_newer sample_valid sample_gt sample_options_develop r) ∧
    (sample_valid "develop" = false → selected = []).
Proof.
  eapply getReleases_unknown_date.
  - reflexivity.
  - discriminate.
  - reflexivity.
  - vm_compute; reflexivity.
Defined.

End releases_witnesses.

(** * Further properties *)

(** ** Dependency aggregator *)

Section deps_more.
Import Deps.

Implicit Types (ms : list manifest) (k v : string).

Lemma memo_lookup_is_Some (es : list (string * string)) k :
  is_Some (foldl addDep ∅ es !! k) ↔ ∃ v, (k, v) ∈ es.
Proof.
  pose proof (addDeps_fold_ok es ∅ memo_ok_empty k) as Hok.
  pose proof (λ w, addDeps_fold_elem es ∅ k w) as Hel.
  rewrite lookup_empty in Hel. simpl in Hel. split.
  - intros [l Hl]. destruct (Hok l Hl) as (_ & _ & Hne).
    destruct l as [| v l]; [done |]. exists v.
    destruct (Hel v) as [[[]%elem_of_nil | ?] _]; [| done].
    rewrite Hl. left.
  - intros [v Hv]. destruct (foldl addDep ∅ es !! k) as [l |] eqn:Hl; [done |].
    exfalso. eapply not_elem_of_nil, Hel. by right.
Qed.

(** X1. Which names are keys of [all] and of [dev]: a name is reported in
    [all] when some plugin lists it under [dependencies] and no discovered
    plugin bears it, and in [dev] when some plugin lists it under
    [devDependencies]. *)
Theorem getAppDependencies_keys (ms : list manifest) (k : string) :
  (is_Some (all (appDependencies ms) !! k) ↔
     (∃ v, observed dependencies ms k v) ∧ ¬ ∃ m, m ∈ ms ∧ name m = k) ∧
  (is_Some (dev (appDependencies ms) !! k) ↔ ∃ v, observed devDependencies ms k v).
Proof.
  assert (∀ f, (∃ v, (k, v) ∈ declared f ms) ↔ ∃ v, observed f ms k v) as Hobs.
  { intros f. split; intros [v Hv]; exists v; by apply elem_of_declared. }
  split.
  - rewrite <- adapt_lookup_None, <- Hobs, <- memo_lookup_is_Some.
    unfold is_Some. setoid_rewrite map_lookup_filter_Some. simpl.
    rewrite !lookup_fmap, foldl_addPlugin_all. simpl. split.
    + intros (x & Hx & Hnone). split; [| done].
      destruct (foldl addDep ∅ (declared dependencies ms) !! k); [by eexists | done].
    + intros [[l Hl] Hnone]. rewrite Hl. simpl. by eexists.
  - rewrite <- Hobs, <- memo_lookup_is_Some. simpl.
    rewrite !lookup_fmap, foldl_addPlugin_dev. simpl.
    by rewrite !fmap_is_Some.
Qed.

Lemma collapse_VStr (s : string) : collapse (VStr s) = VStr s.
Proof. destruct s as [| c [| c' s]]; reflexivity. Qed.

Lemma foldl_addPlugin_adapt_last d ms1 (m : manifest) ms2 :
  Forall (λ m', name m' ≠ name m) ms2 →
  m_adapt (foldl addPlugin d (ms1 ++ m :: ms2)) !! name m = Some (version m).
Proof.
  intros Hlast. rewrite foldl_app. simpl.
  assert (∀ d', m_adapt d' !! name m = Some (version m) →
    m_adapt (foldl addPlugin d' ms2) !! name m = Some (version m)) as Hkeep.
  { induction Hlast as [| m' ms2 Hm' _ IH]; intros d' Hd'; [done |].
    simpl. apply IH. simpl. by rewrite lookup_insert_ne. }
  apply Hkeep. simpl. apply lookup_insert_eq.
Qed.

(** X2. [adapt] holds exactly the names of the discovered plugins, each with
    the version, unchanged by [processDeps], of the plugin of that name
    that was merged last. *)
Theorem getAppDependencies_adapt (ms1 : list manifest) (m : manifest)
    (ms2 : list manifest) :
  Forall (λ m', name m' ≠ name m) ms2 →
  adapt (appDependencies (ms1 ++ m :: ms2)) !! name m = Some (VStr (version m)) ∧
  ∀ k, is_Some (adapt (appDependencies (ms1 ++ m :: ms2)) !! k) ↔
       ∃ m', m' ∈ ms1 ++ m :: ms2 ∧ name m' = k.
Proof.
  intros Hlast. split.
  - simpl. rewrite !lookup_fmap, (foldl_addPlugin_adapt_last _ _ _ _ Hlast).
    change (Some (collapse (VStr (version m))) = Some (VStr (version m))).
    by rewrite collapse_VStr.
  - intros k. rewrite <- not_eq_None_Some, adapt_lookup_None.
    split; [| by intros ? Hn]. intros Hnn.
    destruct (decide (Exists (λ m', name m' = k) (ms1 ++ m :: ms2))) as [Hex | Hex].
    + apply Exists_exists in Hex as (m' & ? & ?). by exists m'.
    + destruct Hnn. intros (m' & ? & ?). apply Hex, Exists_exists. by exists m'.
Qed.

Lemma getAppDependencies_adapt_witness :
  adapt (appDependencies ([plugin_core] ++ plugin_core_nested :: [plugin_auth]))
    !! "adapt-authoring-core" = Some (VStr "0.9.0").
Proof.
  apply (getAppDependencies_adapt [plugin_core] plugin_core_nested [plugin_auth]).
  apply Forall_singleton. discriminate.
Defined.

Lemma last_occurrence {A} (P : A → Prop) `{∀ x, Decision (P x)} (l : list A) :
  Exists P l → ∃ l1 x l2, l = l1 ++ x :: l2 ∧ P x ∧ Forall (λ y, ¬ P y) l2.
Proof.
  induction l as [| x l IH]; intros Hex; [by apply Exists_nil in Hex |].
  destruct (decide (Exists P l)) as [Hl | Hl].
  - destruct (IH Hl) as (l1 & y & l2 & -> & ? & ?). by exists (x :: l1), y, l2.
  - apply Exists_cons in Hex as [Hx | Hex]; [| done].
    exists [], x, l. split; [done |]. split; [done |].
    apply Forall_forall. intros y Hy Py. apply Hl, Exists_exists. by exists y.
Qed.

Lemma merged_twice ms :
  foldl addPlugin no_deps (ms ++ ms) = foldl addPlugin no_deps ms.
Proof.
  assert (∀ f kv, kv ∈ declared f (ms ++ ms) ↔ kv ∈ declared f ms) as Hdecl.
  { intros f kv. unfold declared. rewrite bind_app, elem_of_app. tauto. }
  assert (m_adapt (foldl addPlugin no_deps (ms ++ ms))
          = m_adapt (foldl addPlugin no_deps ms)) as Hadapt.
  { apply map_eq. intros k.
    destruct (decide (Exists (λ m, name m = k) ms)) as [Hex | Hex].
    - apply last_occurrence in Hex as (l1 & m & l2 & -> & <- & Hlast); [| apply _].
      rewrite (foldl_addPlugin_adapt_last _ l1 m l2) by done.
      rewrite (app_assoc (l1 ++ m :: l2) l1 (m :: l2)).
      by rewrite (foldl_addPlugin_adapt_last _ _ m l2).
    - assert (∀ l, (∀ m, m ∈ l → m ∈ ms) →
                   m_adapt (foldl addPlugin no_deps l) !! k = None) as Hnone.
      { intros l Hl. apply eq_None_not_Some.
        rewrite foldl_addPlugin_adapt_is_Some. simpl. rewrite lookup_empty.
        intros [[? [=]] | (m & Hm & ?)]. apply Hex, Exists_exists.
        exists m. split; [by apply Hl | done]. }
      rewrite !Hnone; [done | done |].
      intros m [? | ?]%elem_of_app; done. }
  destruct (foldl addPlugin no_deps (ms ++ ms)) as [a1 l1 d1] eqn:H1.
  destruct (foldl addPlugin no_deps ms) as [a2 l2 d2] eqn:H2.
  simpl in Hadapt. f_equal; [done | |].
  - change l1 with (m_all {| m_adapt := a1; m_all := l1; m_dev := d1 |}).
    change l2 with (m_all {| m_adapt := a2; m_all := l2; m_dev := d2 |}).
    rewrite <- H1, <- H2, !foldl_addPlugin_all. simpl.
    apply addDeps_fold_ext, Hdecl.
  - change d1 with (m_dev {| m_adapt := a1; m_all := l1; m_dev := d1 |}).
    change d2 with (m_dev {| m_adapt := a2; m_all := l2; m_dev := d2 |}).
    rewrite <- H1, <- H2, !foldl_addPlugin_dev. simpl.
    apply addDeps_fold_ext, Hdecl.
Qed.

(** X3. Discovering every plugin a second time changes nothing: the merge is
    idempotent. *)
Theorem getAppDependencies_idempotent (ms : list manifest) :
  appDependencies (ms ++ ms) = appDependencies ms.
Proof. unfold appDependencies. by rewrite merged_twice. Qed.

Section wrapper.
Import Scanner.
Variable readManifest : path → option manifest.

Lemma merge_unreadable (dirs : list path) (d : path) : ∀ deps0,
  d ∈ dirs → readManifest (resolve d "package.json") = None →
  ∃ e, foldM (λ deps d,
                match readManifest (resolve d "package.json") with
                | Some m => Ok (addPlugin deps m)
                | None => Throw (Error "package.json")
                end) deps0 dirs = Throw e.
Proof.
  induction dirs as [| d' dirs IH]; intros deps0 Hd Hnone.
  { by apply elem_of_nil in Hd. }
  cbn [foldM].
  destruct (readManifest (resolve d' "package.json")) as [m |] eqn:Hm; simpl.
  - apply elem_of_cons in Hd as [-> | Hd]; [congruence |]. by apply IH.
  - by eexists.
Qed.

(** X4. A scan that fails rejects the call with its own error, and one
    plugin directory whose manifest cannot be read or parsed rejects the
    whole call, whatever the other manifests hold: there is no partial
    result. *)
Theorem getAppDependencies_rejects (cwd : path) (modules : node) :
  (∀ e, getAdaptDepsRecursive (resolve cwd "node_modules") modules = Throw e →
        getAppDependencies readManifest cwd modules = Throw e) ∧
  (∀ dirs d,
     getAdaptDepsRecursive (resolve cwd "node_modules") modules = Ok dirs →
     d ∈ dirs → readManifest (resolve d "package.json") = None →
     ∃ e, getAppDependencies readManifest cwd modules = Throw e).
Proof.
  split.
  - intros e Hscan. unfold getAppDependencies. by rewrite Hscan.
  - intros dirs d Hscan Hd Hnone. unfold getAppDependencies. rewrite Hscan. simpl.
    destruct (merge_unreadable dirs d no_deps Hd Hnone) as [e ->]. by exists e.
Qed.

End wrapper.

End deps_more.

(** ** Tree scanner *)

Section scanner_more.
Import Scanner Tree.

Implicit Types (visit : path → list path) (dir p : path) (n : node).

Lemma walk_Ok_readable visit n : ∀ dir found,
  walk visit dir n = Ok found → readable n = true.
Proof.
  induction n as [| contents IH | e] using node_ind; intros dir found Hwalk;
    [done | | done].
  rewrite walk_Dir in Hwalk. simpl. revert found Hwalk.
  induction IH as [| [c sub] contents IHsub _ IHrest]; intros found Hwalk; [done |].
  rewrite walk_contents_cons in Hwalk.
  apply bind_Ok_inv in Hwalk as (here & Hhere & Hwalk).
  apply bind_Ok_inv in Hwalk as (rest & Hrest & _).
  simpl in *. rewrite (IHsub _ _ Hhere). simpl. by eapply IHrest.
Qed.

Lemma scan_Ok_iff visit dir n :
  (∃ found, scan visit dir n = Ok found) ↔ is_dir n = true ∧ readable n = true.
Proof.
  split; [| by intros [? ?]; apply scan_readable].
  intros [found Hscan]. destruct n as [| contents | e]; try done.
  split; [done |]. by eapply (walk_Ok_readable visit (Dir contents)).
Qed.

(** X5. Either scan returns a result exactly when its root is a directory and
    every [stat] and [readdir] below it succeeds; a single rejection
    rejects the scan, with no partial result. *)
Theorem scanner_returns (dir : path) (n : node) :
  ((∃ files, getConfigSchemaPathsRecursive dir n = Ok files) ↔
     is_dir n = true ∧ readable n = true) ∧
  ((∃ dirs, getAdaptDepsRecursive dir n = Ok dirs) ↔
     is_dir n = true ∧ readable n = true).
Proof. split; apply scan_Ok_iff. Qed.

Lemma walk_NoDup visit n :
  (∀ q, NoDup (visit q)) → (∀ q p, p ∈ visit q → p = q) →
  ∀ dir found,
    unique_names n = true → walk visit dir n = Ok found → NoDup found.
Proof.
  intros Hnd Hself.
  induction n as [| contents IH | e] using node_ind; intros dir found Hu Hwalk.
  - injection Hwalk as <-. apply Hnd.
  - rewrite walk_Dir in Hwalk. simpl in Hu.
    apply andb_prop in Hu as [Hnames%bool_decide_eq_true Hu]. revert found Hwalk.
    induction IH as [| [c sub] contents IHsub _ IHrest]; intros found Hwalk.
    { injection Hwalk as <-. constructor. }
    rewrite walk_contents_cons in Hwalk.
    apply bind_Ok_inv in Hwalk as (here & Hhere & Hwalk).
    apply bind_Ok_inv in Hwalk as (rest & Hrest & Hwalk). injection Hwalk as <-.
    simpl in Hu, Hnames, IHsub. apply andb_prop in Hu as [Hsub Hu].
    apply NoDup_cons in Hnames as [Hc Hnames].
    apply NoDup_app. split; [by eapply IHsub |]. split; [| by apply IHrest].
    intros p Hp Hp'.
    apply (walk_found _ _ _ _ Hhere) in Hp as (rel & _ & ->%Hself).
    change (walk visit dir (Dir contents) = Ok rest) in Hrest.
    apply (walk_found _ _ _ _ Hrest) in Hp' as (rel' & Hrel' & Hp'%Hself).
    apply file_at_Dir in Hrel' as (c' & sub' & rel'' & -> & Hin & _).
    unfold resolve in Hp'. rewrite <- app_assoc in Hp'.
    apply app_inv_head in Hp'. injection Hp' as -> _.
    apply Hc, list_elem_of_fmap. by exists (c', sub').
  - done.
Qed.

(** X6. In a tree where no directory lists a name twice, no schema file is
    reported twice. *)
Theorem getConfigSchemaPathsRecursive_NoDup (dir : path) (n : node)
    (files : list path) :
  unique_names n = true →
  getConfigSchemaPathsRecursive dir n = Ok files →
  NoDup files.
Proof.
  intros Hu Hscan. unfold getConfigSchemaPathsRecursive in Hscan.
  destruct n as [| contents | e]; try done.
  eapply (walk_NoDup _ (Dir contents)); [| | exact Hu | exact Hscan].
  - intros q. simpl. destruct (endsWith _ _); [apply NoDup_singleton | constructor].
  - intros q p. simpl. destruct (endsWith _ _).
    + by intros ->%list_elem_of_singleton.
    + by intros ?%elem_of_nil.
Qed.

Lemma getConfigSchemaPathsRecursive_NoDup_witness :
  NoDup [["srv"; "app"; "node_modules"; "adapt-authoring-core"; "conf";
          "config.schema.json"]].
Proof.
  apply (getConfigSchemaPathsRecursive_NoDup sample_root sample_modules);
    vm_compute; reflexivity.
Defined.

End scanner_more.

(** ** Schema collector *)

Section schemas_more.
Import Scanner Schemas.

Variable readManifest : path → option Deps.manifest.
Variable readJson : path → option json.

(** The [package.json] that [getSchemas] pairs with the schema file [s]. *)
#[local] Abbreviation manifest_of s := (resolve (dirname (dirname s)) "package.json").

Lemma addSchema_Ok config s config' :
  addSchema readManifest readJson config s = Ok config' →
  ∃ m j, readManifest (manifest_of s) = Some m ∧ readJson s = Some j ∧
         config' = <[Deps.name m :=
                       {| name := Deps.name m;
                          description := Deps.description m;
                          version := Deps.version m;
                          schema := j |}]> config.
Proof.
  unfold addSchema, loadPackage, loadJson. intros Hadd.
  destruct (readManifest (manifest_of s)) as [m |]; [| done].
  destruct (readJson s) as [j |]; [| done].
  injection Hadd as <-. by exists m, j.
Qed.

Lemma addSchema_Throw config s e :
  addSchema readManifest readJson config s = Throw e →
  (readManifest (manifest_of s) = None ∧
   e = Error ("Failed to load " +:+ to_string (manifest_of s))) ∨
  (readJson s = None ∧ e = Error ("Failed to load " +:+ to_string s)).
Proof.
  unfold addSchema, loadPackage, loadJson. intros Hadd.
  destruct (readManifest (manifest_of s)) as [m |]; simpl in Hadd.
  - destruct (readJson s) as [j |]; [done |]. right. by injection Hadd as <-.
  - left. by injection Hadd as <-.
Qed.

Lemma collect_entries (paths : list path) : ∀ config0 config,
  foldM (addSchema readManifest readJson) config0 paths = Ok config →
  (∀ k e, config !! k = Some e →
     config0 !! k = Some e ∨
     ∃ s m, s ∈ paths ∧ readManifest (manifest_of s) = Some m ∧
            readJson s = Some (schema e) ∧ Deps.name m = k ∧ name e = k ∧
            version e = Deps.version m ∧ description e = Deps.description m) ∧
  (∀ k, is_Some (config0 !! k) → is_Some (config !! k)) ∧
  (∀ s, s ∈ paths →
     ∃ m, readManifest (manifest_of s) = Some m ∧ is_Some (config !! Deps.name m)).
Proof.
  induction paths as [| s paths IH]; intros config0 config Hfold.
  { injection Hfold as <-. split; [by left |]. split; [done |].
    by intros s ?%elem_of_nil. }
  cbn [foldM] in Hfold. apply bind_Ok_inv in Hfold as (config1 & Hadd & Hfold).
  apply addSchema_Ok in Hadd as (m & j & Hm & Hj & ->).
  destruct (IH _ _ Hfold) as (Hfrom & Hkeep & Hall). split; [| split].
  - intros k e [Hk | (s' & m' & ? & ?)]%Hfrom.
    + destruct (decide (Deps.name m = k)) as [<- | Hne].
      * rewrite lookup_insert_eq in Hk. injection Hk as <-.
        right. exists s, m. split; [left | done].
      * rewrite lookup_insert_ne in Hk by done. by left.
    + right. exists s', m'. split; [by right | done].
  - intros k Hk. apply Hkeep. apply lookup_insert_is_Some.
    destruct (decide (Deps.name m = k)); [by left | by right].
  - intros s' [-> | Hs']%elem_of_cons; [| by apply Hall].
    exists m. split; [done |]. apply Hkeep. by rewrite lookup_insert_eq.
Qed.

Lemma collect_Throw (paths : list path) : ∀ config0 e,
  foldM (addSchema readManifest readJson) config0 paths = Throw e →
  ∃ s, s ∈ paths ∧
    ((readManifest (manifest_of s) = None ∧
      e = Error ("Failed to load " +:+ to_string (manifest_of s))) ∨
     (readJson s = None ∧ e = Error ("Failed to load " +:+ to_string s))).
Proof.
  induction paths as [| s paths IH]; intros config0 e Hfold; [done |].
  cbn [foldM] in Hfold.
  destruct (addSchema readManifest readJson config0 s) as [config1 | e'] eqn:Hadd.
  - destruct (IH _ _ Hfold) as (s' & ? & ?). exists s'. split; [by right | done].
  - injection Hfold as <-. exists s. split; [left | by eapply addSchema_Throw].
Qed.

(** X7. [config] has one entry per package that owns a discovered schema
    file: each entry is filed under its own [name], carries the name,
    description and version of the manifest two levels above a discovered
    schema file, and the document of that file; and the package of every
    discovered schema file has an entry. *)
Theorem getSchemas_config (rootDir : path) (modules : node) (s : schemas) :
  getSchemas readManifest readJson rootDir modules = Ok s →
  ∃ paths,
    getConfigSchemaPathsRecursive (resolve rootDir "node_modules") modules = Ok paths ∧
    (∀ k e, config s !! k = Some e →
       ∃ p m, p ∈ paths ∧ readManifest (manifest_of p) = Some m ∧
              readJson p = Some (schema e) ∧ Deps.name m = k ∧ name e = k ∧
              version e = Deps.version m ∧ description e = Deps.description m) ∧
    (∀ p, p ∈ paths →
       ∃ m, readManifest (manifest_of p) = Some m ∧
            is_Some (config s !! Deps.name m)).
Proof.
  unfold getSchemas. intros (paths & Hscan & Hs)%bind_Ok_inv.
  apply bind_Ok_inv in Hs as (cfg & Hfold & Hs). injection Hs as <-.
  exists paths. split; [done |]. cbn [config].
  destruct (collect_entries _ _ _ Hfold) as (Hfrom & _ & Hall).
  split; [| done]. intros k e [Hk | ?]%Hfrom; [| done].
  by rewrite lookup_empty in Hk.
Qed.

(** X8. When [getSchemas] rejects, either the scan did, with the same error,
    or a file it needed could not be loaded, and the message names that
    file. *)
Theorem getSchemas_rejects (rootDir : path) (modules : node) (e : error) :
  getSchemas readManifest readJson rootDir modules = Throw e →
  getConfigSchemaPathsRecursive (resolve rootDir "node_modules") modules = Throw e ∨
  ∃ paths p,
    getConfigSchemaPathsRecursive (resolve rootDir "node_modules") modules = Ok paths ∧
    p ∈ paths ∧
    ((readManifest (manifest_of p) = None ∧
      e = Error ("Failed to load " +:+ to_string (manifest_of p))) ∨
     (readJson p = None ∧ e = Error ("Failed to load " +:+ to_string p))).
Proof.
  unfold getSchemas. intros Hs.
  destruct (getConfigSchemaPathsRecursive _ modules) as [paths | e'] eqn:Hscan;
    [| left; by injection Hs as <-].
  right. simpl in Hs.
  destruct (foldM (addSchema readManifest readJson) ∅ paths) as [cfg | e'] eqn:Hfold;
    [done |].
  injection Hs as <-. destruct (collect_Throw _ _ _ Hfold) as (p & ? & ?).
  by exists paths, p.
Qed.

End schemas_more.

Lemma getSchemas_config_witness :
  ∃ s, Schemas.getSchemas Schemas.sample_manifests Schemas.sample_documents
         ["srv"; "app"] Scanner.sample_modules = Ok s ∧
       is_Some (Schemas.config s !! "adapt-authoring-core").
Proof.
  eexists. split; [vm_compute; reflexivity |].
  destruct (getSchemas_config Schemas.sample_manifests Schemas.sample_documents
              ["srv"; "app"] Scanner.sample_modules _ eq_refl)
    as (paths & Hscan & _ & Hall).
  injection Hscan as <-.
  destruct (Hall _ ltac:(left)) as (m & Hm & Hkey).
  injection Hm as <-. exact Hkey.
Defined.

Lemma getSchemas_rejects_witness :
  let e := Error "Failed to load /srv/app/node_modules/adapt-authoring-core/package.json" in
  let manifest_of (s : Scanner.path) :=
    Scanner.resolve (Scanner.dirname (Scanner.dirname s)) "package.json" in
  Scanner.getConfigSchemaPathsRecursive
    (Scanner.resolve ["srv"; "app"] "node_modules") Scanner.sample_modules = Throw e ∨
  ∃ paths p,
    Scanner.getConfigSchemaPathsRecursive
      (Scanner.resolve ["srv"; "app"] "node_modules") Scanner.sample_modules = Ok paths ∧
    p ∈ paths ∧
    (((λ _, None) (manifest_of p) = @None Deps.manifest ∧
      e = Error ("Failed to load " +:+ Scanner.to_string (manifest_of p))) ∨
     (Schemas.sample_documents p = None ∧
      e = Error ("Failed to load " +:+ Scanner.to_string p))).
Proof.
  apply (getSchemas_rejects (λ _, None) Schemas.sample_documents
           ["srv"; "app"] Scanner.sample_modules).
  reflexivity.
Defined.

(** ** Release selector *)

Section releases_more.
Import Releases.

Variable semver_valid : string → bool.
Variable semver_gt : string → string → bool.
Variable Date_parse : string → time.

#[local] Abbreviation keep := (keep semver_valid semver_gt).
#[local] Abbreviation selectReleases := (selectReleases semver_valid semver_gt Date_parse).
#[local] Abbreviation getReleases := (getReleases semver_valid semver_gt Date_parse).
#[local] Abbreviation annotate := (annotate Date_parse).

Implicit Types (w : world) (o : options) (r : candidate).

Lemma foldM_addBranch_None w (branches : list branch_info) res :
  foldM (addBranch w) None branches = Ok res → res = None.
Proof.
  destruct branches as [| b branches]; [by intros [= <-] |].
  cbn [foldM]. intros (acc & Hadd & _)%bind_Ok_inv.
  unfold addBranch in Hadd. apply bind_Ok_inv in Hadd as (body & _ & Hadd).
  by destruct body.
Qed.

(** X9. A transport failure of the first request rejects the call with that
    very error; an answer with status 204, which leaves [releases]
    undefined, always makes it throw, a [TypeError] when no branches are
    asked for. *)
Theorem getReleases_no_releases (w : world) (o : options) :
  (∀ e, fetch_releases w = Throw e → getReleases w o = Throw e) ∧
  (∀ response, fetch_releases w = Ok response → status response = 204%Z →
     ∃ e, getReleases w o = Throw e ∧ (includeBranches o = false → e = TypeError)).
Proof.
  split.
  - intros e He. unfold Releases.getReleases, fetchCandidates, githubRequest.
    by rewrite He.
  - intros response Hr Hs. unfold Releases.getReleases, fetchCandidates.
    assert (githubRequest (fetch_releases w) = Ok None) as ->.
    { unfold githubRequest. rewrite Hr. simpl. rewrite Hs. done. }
    simpl. unfold fetchBranches. destruct (includeBranches o).
    + destruct (githubRequest (fetch_branches w)) as [[branches |] | e]; simpl.
      * destruct (foldM (addBranch w) None branches) as [res | e] eqn:Hfold.
        -- apply foldM_addBranch_None in Hfold as ->. by exists TypeError.
        -- by exists e.
      * by exists TypeError.
      * by exists e.
    + by exists TypeError.
Qed.

(** X10. Without [includeBranches] the branch and commit endpoints play no
    part: the outcome is the same for any two hosts that agree on
    [git log] and on the releases, and no returned candidate is marked as
    a branch. *)
Theorem getReleases_without_branches (w : world) (o : options) :
  includeBranches o = false →
  (∀ w', git_log w' = git_log w → fetch_releases w' = fetch_releases w →
         getReleases w' o = getReleases w o) ∧
  (∀ selected r, getReleases w o = Ok selected → r ∈ selected → branch r = None).
Proof.
  intros Hinc. split.
  - intros w' Hgit Hrel.
    unfold Releases.getReleases, fetchCandidates, fetchBranches, currentVersionDate.
    by rewrite Hinc, Hgit, Hrel.
  - intros selected r Hget Hr. unfold Releases.getReleases in Hget.
    apply bind_Ok_inv in Hget as (releases & Hf & Hget). injection Hget as <-.
    apply elem_of_selectReleases in Hr as [(r0 & -> & Hr0)%list_elem_of_fmap _].
    unfold fetchCandidates, fetchBranches in Hf. rewrite Hinc in Hf.
    apply bind_Ok_inv in Hf as (rels & _ & Hf). simpl in Hf.
    destruct rels as [rels |]; [| done]. injection Hf as <-.
    by apply list_elem_of_fmap in Hr0 as (x & -> & _).
Qed.

Lemma filter_Forall {A} (P : A → Prop) `{∀ x, Decision (P x)} (l : list A) :
  Forall P l → filter P l = l.
Proof.
  induction 1 as [| x l Hx _ IH]; [done |].
  rewrite filter_cons_True by done. by rewrite IH.
Qed.

(** X11. Sorting neither drops nor repeats a candidate: what is returned is a
    rearrangement of the annotated candidates that pass the filter. With no
    current version and both channels included, it is a rearrangement of
    everything that was fetched. *)
Theorem getReleases_rearranges (w : world) (o : options) (releases : list candidate) :
  fetchCandidates w o = Ok releases →
  ∃ selected,
    getReleases w o = Ok selected ∧
    selected ⊆+ annotate <$> releases ∧
    (currentVersion o = None → includePrereleases o = true →
     includeDrafts o = true → selected ≡ₚ annotate <$> releases).
Proof.
  intros Hf. eexists. split; [by apply getReleases_fetched |].
  unfold Releases.selectReleases. rewrite sortWith_Permutation.
  split; [apply sublist_submseteq, sublist_filter |].
  intros Hcv Hpre Hdraft.
  rewrite filter_Forall; [done |].
  apply Forall_forall. intros r _. apply Is_true_true.
  unfold Releases.keep. rewrite Hcv, Hpre, Hdraft. simpl.
  by rewrite !andb_false_r.
Qed.

End releases_more.

Section releases_more_witnesses.
Import Releases.

Lemma getReleases_no_releases_witness :
  ∃ e, Releases.getReleases sample_valid sample_gt sample_parse
         {| git_log := git_log sample_world;
            fetch_releases := Ok {| status := 204; statusText := "No Content"; json := [] |};
            fetch_branches := fetch_branches sample_world;
            fetch_commit := fetch_commit sample_world |}
         sample_options = Throw e ∧
       (includeBranches sample_options = false → e = TypeError).
Proof.
  eapply (proj2 (getReleases_no_releases sample_valid sample_gt sample_parse _ _));
    reflexivity.
Defined.

Lemma getReleases_without_branches_witness :
  Releases.getReleases sample_valid sample_gt sample_parse sample_world_forbidden
    (with_flags true true
       {| currentVersion := None; cwd := "/srv/app"; includeBranches := false;
          includePrereleases := false; includeDrafts := false |})
  = Releases.getReleases sample_valid sample_gt sample_parse sample_world
      (with_flags true true
         {| currentVersion := None; cwd := "/srv/app"; includeBranches := false;
            includePrereleases := false; includeDrafts := false |}).
Proof.
  apply (getReleases_without_branches sample_valid sample_gt sample_parse);
    reflexivity.
Defined.

Lemma getReleases_rearranges_witness :
  ∃ releases selected,
    fetchCandidates sample_world sample_options = Ok releases ∧
    Releases.getReleases sample_valid sample_gt sample_parse sample_world sample_options
      = Ok selected ∧
    selected ⊆+ Releases.annotate sample_parse <$> releases.
Proof.
  eexists. 
  destruct (getReleases_rearranges sample_valid sample_gt sample_parse
              sample_world sample_options _ eq_refl) as (selected & Hget & Hsub & _).
  exists selected. split; [reflexivity |]. split; [exact Hget | exact Hsub].
Defined.

End releases_more_witnesses.

(** ** Request parsing *)

Section query_proofs.
Import (notations) Stdlib.Strings.Ascii.
Import Query.

Implicit Types (c sep : Ascii.ascii) (s t : string).

Lemma app_String c s t : String c s +:+ t = String c (s +:+ t).
Proof. reflexivity. Qed.

Lemma has_char_app c s t : has_char c (s +:+ t) = has_char c s || has_char c t.
Proof.
  induction s as [| c' s IH]; [done |].
  rewrite app_String. simpl. by rewrite IH, orb_assoc.
Qed.

Lemma split_plain sep s : has_char sep s = false → split sep s = [s].
Proof.
  induction s as [| c s IH]; [done |]. simpl.
  intros [Hc Hs]%orb_false_elim. rewrite Hc. by rewrite (IH Hs).
Qed.

Lemma split_app sep s t :
  has_char sep s = false → split sep (s +:+ String sep t) = s :: split sep t.
Proof.
  induction s as [| c s IH].
  - intros _. change ("" +:+ String sep t) with (String sep t). simpl.
    by rewrite Ascii.eqb_refl.
  - intros [Hc Hs]%orb_false_elim. rewrite app_String. simpl.
    rewrite Hc. by rewrite (IH Hs).
Qed.

(** The first part of a split holds no separator and begins the string. *)
Lemma split_first sep s :
  ∃ part parts, split sep s = part :: parts ∧ has_char sep part = false ∧
    (parts = [] ∧ s = part ∨ ∃ t, s = part +:+ String sep t ∧ parts = split sep t).
Proof.
  induction s as [| c s (part & parts & Hs & Hpart & Hrest)].
  { exists "", []. split; [done |]. split; [done |]. by left. }
  simpl. destruct (Ascii.eqb c sep) eqn:Hc.
  - apply Ascii.eqb_eq in Hc as ->. exists "", (split sep s).
    split; [done |]. split; [done |]. right. by exists s.
  - rewrite Hs. exists (String c part), parts. split; [done |]. split.
    { simpl. by rewrite Hc. }
    destruct Hrest as [[-> ->] | (t & -> & ->)]; [by left |].
    right. by exists t.
Qed.

Lemma concat_cons2 (sep x y : string) (l : list string) :
  String.concat sep (x :: y :: l) = x +:+ sep +:+ String.concat sep (y :: l).
Proof. reflexivity. Qed.

Lemma split_concat sep (l : list string) :
  l ≠ [] → Forall (λ s, has_char sep s = false) l →
  split sep (String.concat (String sep "") l) = l.
Proof.
  intros Hne Hall. induction Hall as [| x l Hx Hall IH]; [done |].
  destruct l as [| y l]; [by apply split_plain |].
  rewrite concat_cons2. change (String sep "" +:+ ?t) with (String sep t).
  rewrite split_app by done. by rewrite IH.
Qed.

Lemma has_char_concat c (sep : string) (l : list string) :
  has_char c sep = false → Forall (λ s, has_char c s = false) l →
  has_char c (String.concat sep l) = false.
Proof.
  intros Hsep Hall. induction Hall as [| x l Hx Hall IH]; [done |].
  destruct l as [| y l]; [done |].
  by rewrite concat_cons2, !has_char_app, Hx, Hsep, IH.
Qed.

Lemma has_char_concat_head c (sep x : string) (l : list string) :
  has_char c x = true → has_char c (String.concat sep (x :: l)) = true.
Proof.
  intros Hx. destruct l as [| y l]; [done |].
  by rewrite concat_cons2, has_char_app, Hx.
Qed.

Lemma addParam_pair q (k v : string) :
  has_char "="%char k = false → has_char "="%char v = false →
  addParam q (k +:+ "=" +:+ v) = <[k := Some v]> q.
Proof.
  intros Hk Hv. unfold addParam.
  change ("=" +:+ v) with (String "="%char v).
  by rewrite split_app, (split_plain _ v).
Qed.

Lemma foldl_insert_reverse (params : list (string * option string)) :
  foldl (λ (q : gmap string (option string)) kv, <[kv.1 := kv.2]> q) ∅ params
  = list_to_map (reverse params).
Proof.
  induction params as [| kv params IH] using rev_ind; [done |].
  by rewrite foldl_app, reverse_app, IH.
Qed.

(** X12. Without a question mark, and also with nothing after it, the request
    is left as it is and no parameter is returned: a trailing ['?'] stays
    in [req.url]. *)
Theorem parseQuery_no_query (path : string) :
  has_char "?"%char path = false →
  parseQuery path = (path, ∅) ∧
  parseQuery (path +:+ "?") = (path +:+ "?", ∅).
Proof.
  intros Hpath. unfold parseQuery. split.
  - by rewrite split_plain.
  - change "?" with (String "?"%char "") at 1. by rewrite split_app.
Qed.

Lemma parseQuery_no_query_witness :
  parseQuery "/api/users" = ("/api/users", ∅) ∧
  parseQuery ("/api/users" +:+ "?") = ("/api/users" +:+ "?", ∅).
Proof. apply parseQuery_no_query. reflexivity. Defined.

(** X13. Either the request is left untouched and nothing is returned, or
    [req.url] becomes the part of the address before its first question
    mark. *)
Theorem parseQuery_url (url : string) :
  parseQuery url = (url, ∅) ∨
  has_char "?"%char (parseQuery url).1 = false ∧
  ∃ rest, url = (parseQuery url).1 +:+ String "?"%char rest.
Proof.
  unfold parseQuery.
  destruct (split_first "?"%char url)
    as (part & parts & -> & Hpart & [[-> ->] | (t & -> & ->)]); [by left |].
  destruct (split_first "?"%char t) as (query & more & -> & _).
  destruct (String.eqb query ""); [by left |].
  right. split; [done |]. by exists t.
Qed.

(** X14. Parsing inverts rendering: for names and values that need no
    escaping, the address [path?k1=v1&k2=v2...] is parsed into [path] and
    the parameters, the last value winning for a repeated name. *)
Theorem parseQuery_render (path : string) (params : list (string * string)) :
  has_char "?"%char path = false →
  params ≠ [] →
  Forall (λ kv, plain kv.1 ∧ plain kv.2) params →
  parseQuery (path +:+ "?" +:+ render params)
  = (path, list_to_map (reverse (prod_map id Some <$> params))).
Proof.
  intros Hpath Hne Hplain. unfold parseQuery.
  change ("?" +:+ render params) with (String "?"%char (render params)).
  assert (has_char "?"%char (render params) = false) as Hq.
  { apply has_char_concat; [done |]. apply Forall_fmap.
    eapply Forall_impl; [exact Hplain |]. intros [k v] [(Hk & _) (Hv & _)]. simpl in *.
    by rewrite !has_char_app, Hk, Hv. }
  rewrite split_app, (split_plain _ _ Hq) by done.
  assert (String.eqb (render params) "" = false) as ->.
  { apply String.eqb_neq. intros Hempty.
    destruct params as [| [k v] params]; [done |].
    assert (has_char "="%char (render ((k, v) :: params)) = true) as Heq.
    { apply has_char_concat_head. simpl. rewrite !has_char_app. simpl.
      by rewrite orb_true_r. }
    by rewrite Hempty in Heq. }
  f_equal. unfold render. rewrite split_concat.
  - rewrite <- foldl_insert_reverse. clear Hne Hq.
    generalize (∅ : gmap string (option string)).
    induction Hplain as [| [k v] params [(_ & _ & Hk) (_ & _ & Hv)] _ IH];
      intros q; [done |].
    simpl. rewrite addParam_pair by done. apply IH.
  - by destruct params.
  - apply Forall_fmap. eapply Forall_impl; [exact Hplain |].
    intros [k v] [(_ & Hk & _) (_ & Hv & _)]. simpl in *.
    by rewrite !has_char_app, Hk, Hv.
Qed.

Lemma parseQuery_render_witness :
  let params := [("limit", "10"); ("page", "2"); ("limit", "50")] in
  parseQuery ("/api/content" +:+ "?" +:+ render params)
    = ("/api/content", list_to_map (reverse (prod_map id Some <$> params))) ∧
  (parseQuery ("/api/content" +:+ "?" +:+ render params)).2 !! "limit"
    = Some (Some "50").
Proof.
  intros params.
  assert (parseQuery ("/api/content" +:+ "?" +:+ render params)
    = ("/api/content", list_to_map (reverse (prod_map id Some <$> params)))) as Heq.
  { apply parseQuery_render.
    - reflexivity.
    - discriminate.
    - repeat (apply Forall_cons; split; [by vm_compute |]). apply Forall_nil. exact I. }
  split; [exact Heq |]. rewrite Heq. reflexivity.
Defined.

(** X15. In an address [path?query?rest], whatever follows the second
    question mark is ignored when [query], the part between the two marks,
    is not empty: the address is parsed like [path?query]. When [query] is
    empty, nothing is parsed and [req.url] is left whole. *)
Theorem parseQuery_second_mark (path query rest : string) :
  has_char "?"%char path = false →
  has_char "?"%char query = false →
  parseQuery (path +:+ "?" +:+ query +:+ "?" +:+ rest)
  = if String.eqb query ""
    then (path +:+ "?" +:+ query +:+ "?" +:+ rest, ∅)
    else parseQuery (path +:+ "?" +:+ query).
Proof.
  intros Hpath Hquery. unfold parseQuery.
  change ("?" +:+ query +:+ "?" +:+ rest)
    with (String "?"%char (query +:+ String "?"%char rest)).
  change ("?" +:+ query) with (String "?"%char query).
  rewrite (split_app _ path), (split_app _ query), (split_app _ path) by done.
  rewrite (split_plain "?"%char query) by done.
  by destruct (String.eqb query "").
Qed.

Lemma parseQuery_second_mark_witness :
  parseQuery ("/api" +:+ "?" +:+ "a=1" +:+ "?" +:+ "b=2")
    = parseQuery ("/api" +:+ "?" +:+ "a=1") ∧
  parseQuery ("/api" +:+ "?" +:+ "" +:+ "?" +:+ "b=2")
    = ("/api" +:+ "?" +:+ "" +:+ "?" +:+ "b=2", ∅).
Proof.
  split.
  - apply (parseQuery_second_mark "/api" "a=1" "b=2"); reflexivity.
  - apply (parseQuery_second_mark "/api" "" "b=2"); reflexivity.
Defined.

End query_proofs.

(** ** Request bodies *)

Section body_proofs.
Import Body.

Variable JSON_parse : string → option Schemas.json.

Lemma handle_body (events : list event) (p : promise) :
  foldl (handle JSON_parse) ("", p) events
  = ("", foldl (λ p ev, (handle JSON_parse ("", p) ev).2) p events).
Proof.
  revert p. induction events as [| ev events IH]; intros p; [done |].
  simpl. destruct ev; simpl; apply IH.
Qed.

Lemma settled_stays (events : list event) (p : promise) :
  p ≠ pending →
  foldl (λ p ev, (handle JSON_parse ("", p) ev).2) p events = p.
Proof.
  revert p. induction events as [| ev events IH]; intros p Hp; [done |].
  simpl. destruct ev, p; simpl; try done; by apply IH.
Qed.

(** X16. The body of a POST request is never parsed: the chunks received are
    dropped, so the call resolves with [undefined] at the first [end],
    rejects at the first [error], whichever comes first, and is pending
    until then. Any other method resolves with an empty object. *)
Theorem parseBody_outcome (method : string) (events : list event) :
  parseBody JSON_parse method events
  = if String.eqb method "POST" then outcome events else resolved empty_object.
Proof.
  unfold parseBody. destruct (String.eqb method "POST"); [| done].
  rewrite handle_body. simpl.
  induction events as [| ev events IH]; [done |].
  destruct ev; simpl; [done | |]; by apply settled_stays.
Qed.

End body_proofs.

(** ** Start commands *)

Section start_proofs.
Import (notations) Stdlib.Strings.Ascii.
Import Query Start.

Implicit Types (c : Ascii.ascii) (s t : string).

Lemma substring_all s : String.substring 0 (String.length s) s = s.
Proof. induction s as [| c s IH]; [done |]. simpl. by rewrite IH. Qed.

Lemma slice_3 c1 c2 c3 s : slice 3 (String c1 (String c2 (String c3 s))) = s.
Proof. unfold slice. simpl. rewrite Nat.sub_0_r. apply substring_all. Qed.

Lemma replaceAll_app s t : replaceAll (s +:+ t) = replaceAll s +:+ replaceAll t.
Proof.
  induction s as [| c s IH]; [done |].
  rewrite app_String. simpl. by rewrite IH.
Qed.

Lemma replaceAll_plain s : has_char "\"%char s = false → replaceAll s = s.
Proof.
  induction s as [| c s IH]; [done |]. simpl.
  intros [Hc Hs]%orb_false_elim. by rewrite Hc, (IH Hs).
Qed.

Lemma replaceAll_concat (segments : list string) :
  Forall (λ s, has_char "\"%char s = false) segments →
  replaceAll (String.concat "\" segments) = String.concat "/" segments.
Proof.
  induction 1 as [| s segments Hs _ IH]; [done |].
  destruct segments as [| t segments]; [by apply replaceAll_plain |].
  rewrite !concat_cons2, !replaceAll_app, IH. by rewrite (replaceAll_plain s).
Qed.

Lemma has_char_replaceAll s : has_char "\"%char (replaceAll s) = false.
Proof.
  induction s as [| c s IH]; [done |]. simpl. rewrite IH.
  by destruct (Ascii.eqb c "\"%char) eqn:Hc; [| rewrite Hc].
Qed.

Lemma has_char_substring c s : ∀ n m,
  has_char c s = false → has_char c (String.substring n m s) = false.
Proof.
  induction s as [| c' s IH]; intros n m Hs.
  - by destruct n, m.
  - simpl in Hs. apply orb_false_elim in Hs as [Hc Hs].
    destruct n as [| n]; [| by apply IH].
    destruct m as [| m]; [done |]. simpl. by rewrite Hc, IH.
Qed.

Lemma toLowerCase_not_backslash c :
  is_upper c = true → Ascii.eqb (toLowerCase c) "\"%char = false.
Proof.
  destruct c as [[] [] [] [] [] [] [] []]; vm_compute; congruence.
Qed.

(** X17. The call throws exactly on Windows for a directory that does not
    begin with a capital letter. *)
Theorem getStartCommands_throws (platform cwd : string) :
  getStartCommands platform cwd = Throw TypeError ↔
  platform = "win32" ∧ ¬ ∃ c rest, cwd = String c rest ∧ is_upper c = true.
Proof.
  unfold getStartCommands. destruct (String.eqb_spec platform "win32") as [-> | Hp].
  - destruct cwd as [| c rest].
    + split; [| done]. intros _. split; [done |]. by intros (? & ? & ? & _).
    + destruct (is_upper c) eqn:Hc.
      * split; [done |]. intros [_ []]. by exists c, rest.
      * split; [| done]. intros _. split; [done |].
        intros (? & ? & [= <- <-] & ?). congruence.
  - split; [done |]. by intros [? _].
Qed.

(** X18. On Windows a path [D:\a\b] becomes [/d/a/b] for bash, while the
    Windows command keeps the path as given. *)
Theorem getStartCommands_drive (drive : Ascii.ascii) (segments : list string) :
  is_upper drive = true →
  Forall (λ s, has_char "\"%char s = false) segments →
  let cwd := String drive (":\" +:+ String.concat "\" segments) in
  getStartCommands "win32" cwd
  = Ok {| bash := getCmd ("/" +:+ String (toLowerCase drive) "" +:+ "/"
                          +:+ String.concat "/" segments);
          windows := Some (getCmd cwd) |}.
Proof.
  intros Hd Hseg cwd. unfold getStartCommands, cwd. simpl String.eqb. cbv iota.
  rewrite Hd. do 3 f_equal.
  change (":\" +:+ ?t) with (String ":"%char (String "\"%char t)).
  cbn [replaceAll]. rewrite slice_3. by rewrite replaceAll_concat.
Qed.

Lemma getStartCommands_drive_witness :
  getStartCommands "win32" (String "C"%char (":\" +:+ String.concat "\" ["Users"; "adapt"]))
  = Ok {| bash := getCmd ("/" +:+ String (toLowerCase "C"%char) "" +:+ "/"
                          +:+ String.concat "/" ["Users"; "adapt"]);
          windows :=
            Some (getCmd (String "C"%char (":\" +:+ String.concat "\" ["Users"; "adapt"]))) |}.
Proof.
  apply (getStartCommands_drive "C"%char ["Users"; "adapt"]).
  - reflexivity.
  - repeat (apply Forall_cons; split; [reflexivity |]). apply Forall_nil. exact I.
Defined.

(** X19. The bash command built on Windows holds no backslash. *)
Theorem getStartCommands_bash (cwd : string) (cmds : commands) :
  getStartCommands "win32" cwd = Ok cmds →
  has_char "\"%char (bash cmds) = false.
Proof.
  unfold getStartCommands. simpl String.eqb. cbv iota.
  destruct cwd as [| c rest]; [done |].
  destruct (is_upper c) eqn:Hc; [| done]. intros [= <-]. cbn [bash].
  unfold getCmd. rewrite !has_char_app. cbn [has_char].
  rewrite (toLowerCase_not_backslash c Hc).
  unfold slice. rewrite has_char_substring; [done |].
  apply (has_char_replaceAll (String c rest)).
Qed.

Lemma getStartCommands_bash_witness :
  ∃ cmds, getStartCommands "win32" "C:\Users\adapt" = Ok cmds ∧
          has_char "\"%char (bash cmds) = false.
Proof.
  eexists. split; [reflexivity |].
  by apply (getStartCommands_bash "C:\Users\adapt").
Defined.

End start_proofs.

(** ** Prerequisites *)

Section prereq_proofs.
Import Prereq.

Variable exec : string → result string.
Variable version_in : string → option string.
Variable satisfies : option string → string → bool.

#[local] Abbreviation checkOne := (checkOne exec version_in satisfies).
#[local] Abbreviation failedPrereqs := (failedPrereqs exec version_in satisfies).
#[local] Abbreviation checkPrerequisites :=
  (checkPrerequisites exec version_in satisfies).
#[local] Abbreviation met := (met exec version_in satisfies).

Lemma checkOne_Ok prereq : checkOne prereq = Ok () ↔ met prereq.
Proof.
  unfold Prereq.checkOne, Prereq.met.
  destruct (exec (prereq.1 +:+ " --version")) as [data | e].
  - destruct (satisfies (version_in data) prereq.2) eqn:Hs.
    + split; [| done]. intros _. by exists data.
    + split; [done |]. intros (? & [= <-] & ?). congruence.
  - split; [done |]. by intros (? & [=] & _).
Qed.

Lemma failedPrereqs_nil prereqs : failedPrereqs prereqs = [] ↔ Forall met prereqs.
Proof.
  unfold Prereq.failedPrereqs. induction prereqs as [| p prereqs IH]; [done |].
  rewrite Forall_cons, <- IH, <- checkOne_Ok. simpl.
  destruct (checkOne p) as [[] | e]; simpl; [tauto |].
  split; [done |]. by intros [[=] _].
Qed.

(** X20. The check passes exactly when every prerequisite is met, and then
    prints nothing; with [ignorePrereqs] it never throws, and prints, ahead
    of two warnings, the very message it would have thrown. *)
Theorem checkPrerequisites_outcome (prereqs : list (string * string)) :
  (checkPrerequisites (Ok (Some prereqs)) false = ([], Ok ()) ↔ Forall met prereqs) ∧
  (Forall met prereqs → checkPrerequisites (Ok (Some prereqs)) true = ([], Ok ())) ∧
  (¬ Forall met prereqs →
     ∃ msg,
       checkPrerequisites (Ok (Some prereqs)) false = ([], Throw (Error msg)) ∧
       checkPrerequisites (Ok (Some prereqs)) true = (msg :: warnings, Ok ())).
Proof.
  unfold Prereq.checkPrerequisites. rewrite <- failedPrereqs_nil.
  destruct (failedPrereqs prereqs) as [| e failed]; simpl.
  - split; [done |]. split; [done |]. by intros [].
  - split; [done |]. split; [done |]. intros _. by eexists.
Qed.

End prereq_proofs.

Lemma checkPrerequisites_outcome_witness :
  ∃ msg,
    Prereq.checkPrerequisites Prereq.sample_exec Prereq.sample_version_in
      Prereq.sample_satisfies (Ok (Some Prereq.sample_prereqs)) false
      = ([], Throw (Error msg)) ∧
    Prereq.checkPrerequisites Prereq.sample_exec Prereq.sample_version_in
      Prereq.sample_satisfies (Ok (Some Prereq.sample_prereqs)) true
      = (msg :: Prereq.warnings, Ok ()).
Proof.
  apply (checkPrerequisites_outcome Prereq.sample_exec Prereq.sample_version_in
           Prereq.sample_satisfies Prereq.sample_prereqs).
  intros Hall. apply Forall_cons in Hall as [_ Hall].
  apply Forall_cons in Hall as [(data & Hexec & Hsat) _].
  vm_compute in Hexec. injection Hexec as <-. vm_compute in Hsat. discriminate.
Defined.

(** ** Commands on the repository *)

Section cli_proofs.
Import Cli.

Variable E : env.
Variable process_cwd : string.

#[local] Abbreviation exec := (exec E process_cwd).
#[local] Abbreviation cloneRepo := (cloneRepo E process_cwd).
#[local] Abbreviation updateRepo := (updateRepo E process_cwd).
#[local] Abbreviation update_script := (update_script process_cwd).

Lemma effects_app h1 h2 : effects (h1 ++ h2) = effects h1 ++ effects h2.
Proof. apply filter_app. Qed.

Lemma effects_Log h line : effects (h ++ [Log line]) = effects h.
Proof. rewrite effects_app. apply app_nil_r. Qed.

Lemma effects_Exec h command dir :
  effects (h ++ [Exec command dir]) = effects h ++ [Exec command dir].
Proof. by rewrite effects_app. Qed.

Lemma effects_Rm h path : effects (h ++ [Rm path]) = effects h ++ [Rm path].
Proof. by rewrite effects_app. Qed.

(** X21. A failed clone is always reported with code [GITCLONEEEXIST],
    whatever made it fail, and the dependencies are then not installed;
    after a successful clone they are, in the directory asked for, with
    [npm ci] unless [cleanInstall] is exactly [false]. *)
Theorem cloneRepo_outcome (o : options) (h : list action) :
  let started := h ++ [Log ("Cloning " +:+ clone_url o +:+ "#"
                            +:+ or_else (tag o) "master" +:+ " into " +:+ show (cwd o))] in
  (∀ text, run E started (clone_command o) process_cwd = inr text →
     cloneRepo o h
     = (started ++ [Exec (clone_command o) process_cwd],
        Rejected {| message := "Failed to clone git repository, " +:+ text;
                    code := Some "GITCLONEEEXIST";
                    statusCode := None;
                    data_errors := None |})) ∧
  (∀ stdout, run E started (clone_command o) process_cwd = inl stdout →
     effects (cloneRepo o h).1
     = effects h ++ [Exec (clone_command o) process_cwd;
                     Exec (install_command o) (default process_cwd (cwd o))]).
Proof.
  intros started. unfold Cli.cloneRepo, andThen, catch, log, Cli.exec, throw, ret.
  simpl. fold started. split.
  - intros text ->. reflexivity.
  - intros stdout ->.
    match goal with |- context [run E ?h' ?c ?d] => destruct (run E h' c d) end;
      simpl; rewrite effects_Exec, effects_Log, effects_Exec; unfold started;
      by rewrite effects_Log, <- app_assoc.
Qed.

Lemma perform_cons script : ∀ h a,
  ∃ done, (perform E h (a :: script)).1 = h ++ a :: done.
Proof.
  induction script as [| b script IH]; intros h a.
  - cbn [perform]. exists []. by destruct (attempt E h a).
  - change (perform E h (a :: b :: script))
      with (match attempt E h a with
            | Fulfilled _ => perform E (h ++ [a]) (b :: script)
            | failed => (h ++ [a], failed)
            end).
    destruct (attempt E h a); [| by exists [] | by exists []].
    destruct (IH (h ++ [a]) b) as [done Hdone]. exists (b :: done).
    by rewrite Hdone, <- app_assoc.
Qed.

Lemma perform_run script : ∀ h,
  ∃ done,
    (perform E h script).1 = h ++ done ∧
    done `prefix_of` script ∧
    (∀ pre a post, done = pre ++ a :: post → post ≠ [] →
                   attempt E (h ++ pre) a = Fulfilled ()) ∧
    (∀ pre a, done = pre ++ [a] → attempt E (h ++ pre) a = (perform E h script).2) ∧
    ((perform E h script).2 = Fulfilled () → done = script).
Proof.
  induction script as [| a script IH]; intros h.
  { exists []. cbn [perform]. rewrite app_nil_r.
    split; [done |]. split; [done |]. split; [| split; [| done]].
    - intros pre a post Heq. by destruct pre.
    - intros pre a Heq. by destruct pre. }
  cbn [perform]. destruct (attempt E h a) as [[] | e |] eqn:Ha.
  - destruct (IH (h ++ [a])) as (done & Hdone & Hprefix & Hbefore & Hlast & Hall).
    exists (a :: done). rewrite Hdone, <- app_assoc.
    split; [done |]. split; [by apply prefix_cons |].
    split; [| split].
    + intros [| a' pre] x post Heq Hpost; simplify_eq/=.
      * by rewrite app_nil_r.
      * rewrite <- (Hbefore pre x post eq_refl Hpost).
        f_equal. by rewrite <- app_assoc.
    + intros [| a' pre] x Heq; simplify_eq/=.
      * rewrite app_nil_r, Ha. destruct script as [| b script]; [done |].
        destruct (perform_cons script (h ++ [x]) b) as [done' Hdone'].
        rewrite Hdone' in Hdone. apply app_inv_head in Hdone. done.
      * rewrite <- (Hlast pre x eq_refl). f_equal. by rewrite <- app_assoc.
    + intros Hok. by rewrite (Hall Hok).
  - exists [a]. split; [done |]. split; [by apply prefix_cons, prefix_nil |].
    split; [| split; [| done]].
    + intros [| a' pre] x post Heq Hpost; simplify_eq/=. by destruct pre.
    + intros [| a' pre] x Heq; simplify_eq/=; [by rewrite app_nil_r | by destruct pre].
  - exists [a]. split; [done |]. split; [by apply prefix_cons, prefix_nil |].
    split; [| split; [| done]].
    + intros [| a' pre] x post Heq Hpost; simplify_eq/=. by destruct pre.
    + intros [| a' pre] x Heq; simplify_eq/=; [by rewrite app_nil_r | by destruct pre].
Qed.

Lemma updateRepo_perform (o : options) (h : list action) :
  updateRepo o h = perform E h (update_script o).
Proof.
  unfold Cli.updateRepo, Cli.update_script, andThen, log, Cli.exec, rm, ret.
  cbn [perform attempt].
  repeat match goal with
  | |- context [run E ?h' ?c ?d] => destruct (run E h' c d); try reflexivity
  | |- context [remove E ?h' ?p] => destruct (remove E h' p) as [[] | |]; try reflexivity
  end.
Qed.


End cli_proofs.

Lemma cloneRepo_outcome_witness :
  Cli.cloneRepo Cli.offline_env "/srv" Cli.sample_options []
  = ([Cli.Log ("Cloning " +:+ Cli.clone_url Cli.sample_options +:+ "#"
               +:+ "v1.2.0" +:+ " into " +:+ "/srv/app");
      Cli.Exec (Cli.clone_command Cli.sample_options) "/srv"],
     Cli.Rejected {| Cli.message := "Failed to clone git repository, "
                                    +:+ "Error: Command failed";
                     Cli.code := Some "GITCLONEEEXIST";
                     Cli.statusCode := None;
                     Cli.data_errors := None |}).
Proof.
  apply (proj1 (cloneRepo_outcome Cli.offline_env "/srv" Cli.sample_options [])).
  reflexivity.
Defined.

(** Where [node_modules] is not there to be removed, the update ends
    with that error and [npm ci] is not run. *)
Example updateRepo_sample :
  Cli.updateRepo Cli.sample_env "/srv" Cli.sample_options []
  = ([Cli.Log "Checking out v1.2.0 in /srv/app";
      Cli.Exec "git fetch --all --tags" "/srv/app";
      Cli.Exec "git reset --hard" "/srv/app";
      Cli.Exec "git checkout v1.2.0" "/srv/app";
      Cli.Rm "/srv/app/node_modules"],
     Cli.Rejected {| Cli.message := "ENOENT: no such file or directory";
                     Cli.code := Some "ENOENT";
                     Cli.statusCode := None;
                     Cli.data_errors := None |}).
Proof. vm_compute. reflexivity. Qed.

(** ** The endpoint of a commit lookup *)

Section endpoint_proofs.
Import Releases.

Lemma substring_from_prefix (s : string) : ∀ i (p : string),
  String.substring i (String.length p) s = p →
  String.prefix p (String.substring i (String.length s - i) s) = true.
Proof.
  induction s as [| c s IH]; intros i p Hp.
  - assert (p = "") as -> by (by destruct i, p). by destruct i.
  - destruct i as [| i].
    + rewrite Nat.sub_0_r, substring_all. by apply String.prefix_correct.
    + simpl. by apply IH.
Qed.

Lemma substring_suffix (s : string) : ∀ i,
  ∃ base, s = base +:+ String.substring i (String.length s - i) s.
Proof.
  induction s as [| c s IH]; intros i.
  - exists "". by destruct i.
  - destruct i as [| i].
    + exists "". by rewrite Nat.sub_0_r, substring_all.
    + destruct (IH i) as [base Hbase]. exists (String c base).
      simpl. by rewrite app_String, <- Hbase.
Qed.

Lemma substring_1_length (s : string) : ∀ n,
  (String.length (String.substring n 1 s) ≤ 1)%nat.
Proof.
  induction s as [| c s IH]; intros n; [destruct n; simpl; lia |].
  destruct n as [| n]; [| apply IH]. simpl. destruct s; simpl; lia.
Qed.

(** X23. When the address of a branch's head commit contains [commits/], the
    endpoint requested is the rest of the address from its first
    occurrence on; otherwise it is at most the last character of the
    address. *)
Theorem commit_endpoint_suffix (url : string) :
  (∃ base, url = base +:+ commit_endpoint url) ∧
  match String.index 0 "commits/" url with
  | Some _ => String.prefix "commits/" (commit_endpoint url) = true
  | None => (String.length (commit_endpoint url) ≤ 1)%nat
  end.
Proof.
  unfold commit_endpoint.
  destruct (String.index 0 "commits/" url) as [i |] eqn:Hi.
  - split; [apply substring_suffix |].
    apply String.index_correct1 in Hi. by apply substring_from_prefix.
  - split.
    + destruct (decide (String.length url = 0)) as [H0 | H0].
      * destruct url; [| done]. by exists "".
      * pose proof (substring_suffix url (String.length url - 1)) as Hsuffix.
        by replace (String.length url - (String.length url - 1)) with 1
          in Hsuffix by lia.
    + apply substring_1_length.
Qed.

End endpoint_proofs.

(** ** Registration of the super user *)

Section register_proofs.
Import Cli Register.
Variable E : Register.env.
Variable process_cwd : string.

#[local] Abbreviation internalApiRequest := (Register.internalApiRequest E process_cwd).
#[local] Abbreviation startApp := (Register.startApp E process_cwd).
#[local] Abbreviation submit := (Register.submit E process_cwd).
#[local] Abbreviation attempts := (Register.attempts E process_cwd).
#[local] Abbreviation registerSuperUser := (Register.registerSuperUser E process_cwd).

Lemma settle_no_data answer e :
  settle answer = Rejected e → data_errors e = None.
Proof.
  unfold settle. destruct answer as [resp | f].
  - destruct (status resp =? 204)%Z; [discriminate |].
    destruct (299 <? status resp)%Z; [| discriminate].
    destruct (json resp) as [[[msg c] |] |]; intros [= <-]; reflexivity.
  - intros [= <-]. reflexivity.
Qed.

Lemma unconfigured_no_data answer : data_errors (unconfigured answer) = None.
Proof. by destruct answer as [[?|] | ?]. Qed.

Lemma internalApiRequest_run endpoint data o st :
  let dir := default process_cwd (cwd o) in
  (∃ answer, (∀ hp, answer ≠ inl (Some hp)) ∧
     internalApiRequest endpoint data o st =
       (record (ImportedConfig dir answer) st, Rejected (unconfigured answer))) ∨
  (∃ hp answer,
     internalApiRequest endpoint data o st =
       (record (Fetched (request_to hp endpoint data o) answer)
          (record (ImportedConfig dir (inl (Some hp))) st),
        settle answer)).
Proof.
  intros dir. unfold Register.internalApiRequest. fold dir.
  destruct (import_config E (transcript st) dir) as [[[host port] |] | f] eqn:Himp.
  - right. exists (host, port).
    set (req := {| url := _ |}).
    exists (fetch E (transcript (record (ImportedConfig dir (inl (Some (host, port)))) st)) req).
    change (request_to (host, port) endpoint data o) with req.
    destruct (fetch E _ req) as [resp | f]; simpl; [| reflexivity].
    destruct (status resp =? 204)%Z; [reflexivity |].
    destruct (299 <? status resp)%Z; [| reflexivity].
    by destruct (json resp) as [[[msg c] |] |].
  - left. exists (inl None). split; [intros hp; discriminate | reflexivity].
  - left. exists (inr f). split; [intros hp; discriminate | reflexivity].
Qed.

Lemma internalApiRequest_no_data endpoint data o st e :
  (internalApiRequest endpoint data o st).2 = Rejected e → data_errors e = None.
Proof.
  destruct (internalApiRequest_run endpoint data o st)
    as [(answer & _ & ->) | (hp & answer & ->)]; simpl.
  - intros [= <-]. apply unconfigured_no_data.
  - apply settle_no_data.
Qed.

#[local] Abbreviation loop_run := (Register.loop_run process_cwd).

Lemma submit_eq again o email password st :
  submit again o email password st =
    ((internalApiRequest "auth/local/registersuper" (Some (email, password)) o st).1,
     after_request
       (internalApiRequest "auth/local/registersuper" (Some (email, password)) o st).2).
Proof.
  unfold Register.submit.
  pose proof (internalApiRequest_no_data "auth/local/registersuper"
                (Some (email, password)) o st) as Hdata.
  destruct (internalApiRequest _ _ o st) as [st' [[] | e |]]; simpl in *; try reflexivity.
  rewrite (Hdata e eq_refl). by destruct (bool_decide _).
Qed.

Lemma submit_run again o email password st :
  ∃ tail,
    transcript (submit again o email password st).1 = transcript st ++ tail ∧
    app (submit again o email password st).1 = app st ∧
    let dir := default process_cwd (cwd o) in
    ((∃ answer, (∀ hp, answer ≠ inl (Some hp)) ∧
        tail = [ImportedConfig dir answer] ∧
        (submit again o email password st).2 = after_request (Rejected (unconfigured answer))) ∨
     (∃ hp answer,
        tail = [ImportedConfig dir (inl (Some hp));
                Fetched (request_to hp "auth/local/registersuper" (Some (email, password)) o) answer] ∧
        (submit again o email password st).2 = after_request (settle answer))).
Proof.
  rewrite submit_eq.
  destruct (internalApiRequest_run "auth/local/registersuper" (Some (email, password)) o st)
    as [(answer & Hanswer & Heq) | (hp & answer & Heq)]; rewrite Heq; simpl.
  - exists [ImportedConfig (default process_cwd (cwd o)) answer].
    repeat split; [left; by exists answer].
  - eexists [_; _]. rewrite <- app_assoc. simpl.
    repeat split; [right; by exists hp, answer].
Qed.

Lemma loop_run_submit again o given_email given_password email password st pre :
  Forall prompt pre →
  entered given_email email pre →
  confirmed given_password password pre →
  ∃ new,
    transcript (submit again o email password st).1 = transcript st ++ new ∧
    app (submit again o email password st).1 = app st ∧
    loop_run o given_email given_password (pre ++ new)
      (submit again o email password st).2.
Proof.
  intros Hpre Hemail Hpassword.
  destruct (submit_run again o email password st) as (tail & Htr & Happ & Htail).
  exists tail. split; [done |]. split; [done |].
  exists pre, tail. split; [done |]. split; [done |]. right.
  exists email, password. by repeat split.
Qed.

Lemma loop_run_again o given_email given_password email pre new r :
  Forall prompt pre →
  (truthy given_email = true ∧ email = given_email ∨ AskedEmail email ∈ pre) →
  loop_run o email given_password new r →
  loop_run o given_email given_password (pre ++ new) r.
Proof.
  intros Hpre Hemail (prompts & tail & -> & Hprompts & Hrun).
  exists (pre ++ prompts), tail. split; [by rewrite app_assoc |].
  split; [by apply Forall_app |].
  destruct Hrun as [? | (em & pw & Hem & Hpw & Hrun)]; [by left | right].
  exists em, pw. split; [| split; [| done]].
  - destruct Hem as [[Htruthy ->] | Hin].
    + destruct Hemail as [[? ->] | ?]; [by left | right; apply elem_of_app; by left].
    + right. apply elem_of_app. by right.
  - destruct Hpw as [? | Hin]; [by left | right; apply elem_of_app; by right].
Qed.

Lemma attempts_run fuel o : ∀ email password st,
  ∃ new,
    transcript (attempts fuel o email password st).1 = transcript st ++ new ∧
    app (attempts fuel o email password st).1 = app st ∧
    loop_run o email password new (attempts fuel o email password st).2.
Proof.
  induction fuel as [| fuel IH]; intros email password st.
  { exists []. simpl. rewrite app_nil_r. repeat split.
    exists [], []. repeat split; [constructor | by left]. }
  cbn [Register.attempts].
  set (asked := ask_email E (transcript st)).
  assert (∃ pre st1 email1,
            (if truthy email then (st, email)
             else (record (AskedEmail asked) st, asked)) = (st1, email1) ∧
            transcript st1 = transcript st ++ pre ∧ app st1 = app st ∧
            Forall prompt pre ∧
            (truthy email = true ∧ email1 = email ∨ AskedEmail email1 ∈ pre))
    as (pre & st1 & email1 & -> & Htr1 & Happ1 & Hpre & Hemail).
  { destruct (truthy email) eqn:Hemail.
    - exists [], st, email. rewrite app_nil_r. repeat split; [constructor | by left].
    - exists [AskedEmail asked], (record (AskedEmail asked) st), asked.
      repeat split; [by repeat constructor | right; constructor]. }
  destruct (truthy password) eqn:Hpassword.
  { destruct (loop_run_submit (attempts fuel o) o email password email1 password st1 pre)
      as (new & Htr & Happ & Hrun); [done | | by left |].
    { destruct Hemail as [[? ->] | ?]; [by left | by right]. }
    exists (pre ++ new). rewrite Htr, Htr1, Happ, Happ1, app_assoc. done. }
  set (inputs := ask_passwords E (transcript st1)).
  set (st2 := record (AskedPasswords inputs.1 inputs.2) st1).
  destruct (bool_decide (inputs.1 = inputs.2)) eqn:Hsame.
  - apply bool_decide_eq_true in Hsame.
    destruct (loop_run_submit (attempts fuel o) o email password email1 inputs.1 st2
                (pre ++ [AskedPasswords inputs.1 inputs.2]))
      as (new & Htr & Happ & Hrun).
    { apply Forall_app. split; [done | by repeat constructor]. }
    { destruct Hemail as [[? ->] | ?]; [by left | right; apply elem_of_app; by left]. }
    { right. rewrite Hsame at 2. apply elem_of_app. right. constructor. }
    exists ((pre ++ [AskedPasswords inputs.1 inputs.2]) ++ new).
    rewrite Htr, Happ. unfold st2. simpl. rewrite Htr1, Happ1, <- !app_assoc.
    rewrite <- !app_assoc in Hrun. done.
  - set (st3 := record (Logged "Passwords don't match. Please try again") st2).
    destruct (IH email1 password st3) as (new & Htr & Happ & Hrun).
    exists ((pre ++ [AskedPasswords inputs.1 inputs.2;
                     Logged "Passwords don't match. Please try again"]) ++ new).
    rewrite Htr, Happ. unfold st3, st2. simpl. rewrite Htr1, Happ1, <- !app_assoc.
    split; [done |]. split; [done |].
    rewrite app_assoc.
    apply (loop_run_again o email password email1); [| | done].
    + apply Forall_app. split; [done | by repeat constructor].
    + destruct Hemail as [? | ?]; [by left | right; apply elem_of_app; by left].
Qed.

Lemma requests_app l1 l2 : requests (l1 ++ l2) = (requests l1 + requests l2)%nat.
Proof. unfold requests. by rewrite filter_app, length_app. Qed.

Lemma requests_prompts l : Forall prompt l → requests l = 0%nat.
Proof.
  unfold requests. induction 1 as [| ev l Hev _ IH]; [done |].
  destruct ev; try done; by rewrite filter_cons_False.
Qed.

Lemma loop_run_requests o email password new r :
  loop_run o email password new r → (requests new ≤ 1)%nat.
Proof.
  intros (prompts & tail & -> & Hprompts & Hrun).
  rewrite requests_app, (requests_prompts prompts Hprompts).
  destruct Hrun as [[-> _] | (em & pw & _ & _ & [(a & _ & -> & _) | (hp & a & -> & _)])];
    unfold requests; simpl; lia.
Qed.

Lemma loop_run_logs o email password new r line :
  loop_run o email password new r → Logged line ∈ new →
  line = "Passwords don't match. Please try again".
Proof.
  intros (prompts & tail & -> & Hprompts & Hrun) Hin.
  apply elem_of_app in Hin as [Hin | Hin].
  - rewrite Forall_forall in Hprompts. exact (Hprompts _ Hin).
  - destruct Hrun as [[-> _] | (em & pw & _ & _ & [(a & _ & -> & _) | (hp & a & -> & _)])];
      repeat (apply elem_of_cons in Hin as [Hin | Hin]; [discriminate |]);
      by apply elem_of_nil in Hin.
Qed.

Lemma prompt_not_fetch prompts req answer :
  Forall prompt prompts → Fetched req answer ∉ prompts.
Proof.
  intros Hprompts Hin. rewrite Forall_forall in Hprompts. exact (Hprompts _ Hin).
Qed.

Lemma loop_run_fetched o email password new r req answer :
  loop_run o email password new r → Fetched req answer ∈ new →
  r = after_request (settle answer) ∧
  ∃ hp em pw,
    req = request_to hp "auth/local/registersuper" (Some (em, pw)) o ∧
    entered email em new ∧ confirmed password pw new.
Proof.
  intros (prompts & tail & -> & Hprompts & Hrun) Hin.
  apply elem_of_app in Hin as [Hin | Hin]; [by apply prompt_not_fetch in Hin |].
  destruct Hrun as [[-> _] | (em & pw & Hem & Hpw & [(a & _ & -> & _) | (hp & a & -> & ->)])].
  - by apply elem_of_nil in Hin.
  - apply elem_of_cons in Hin as [Hin | Hin]; [discriminate | by apply elem_of_nil in Hin].
  - apply elem_of_cons in Hin as [Hin | Hin]; [discriminate |].
    apply elem_of_cons in Hin as [Hin | Hin]; [| by apply elem_of_nil in Hin].
    injection Hin as -> ->. split; [done |].
    exists hp, em, pw. split; [done |].
    split; [destruct Hem | destruct Hpw]; (by left) || (right; apply elem_of_app; by left).
Qed.

(** X24. [internalApiRequest] never changes [app]. It is fulfilled
    exactly when the last thing it did was a request that the server
    answered with a status of at most 299, and an error it rejects with
    has no [data]. *)
Theorem internalApiRequest_outcome endpoint data o st :
  app (internalApiRequest endpoint data o st).1 = app st ∧
  ((internalApiRequest endpoint data o st).2 = Fulfilled () ↔
   ∃ req resp,
     last (transcript (internalApiRequest endpoint data o st).1)
       = Some (Fetched req (inl resp)) ∧
     (status resp ≤ 299)%Z) ∧
  (∀ e, (internalApiRequest endpoint data o st).2 = Rejected e → data_errors e = None).
Proof.
  split; [| split; [| apply internalApiRequest_no_data]];
    destruct (internalApiRequest_run endpoint data o st)
      as [(answer & Hanswer & ->) | (hp & answer & ->)]; simpl; try done.
  - split; [done |]. intros (req & resp & Hlast & _).
    rewrite last_snoc in Hlast. discriminate.
  - rewrite last_snoc. split.
    + intros Hsettle. exists (request_to hp endpoint data o).
      unfold settle in Hsettle. destruct answer as [resp | f]; [| done].
      exists resp. split; [done |].
      destruct (status resp =? 204)%Z eqn:H204; [lia |].
      destruct (299 <? status resp)%Z eqn:H299; [| lia].
      by destruct (json resp) as [[[msg c] |] |].
    + intros (req & resp & [= _ ->] & Hstatus). unfold settle.
      destruct (status resp =? 204)%Z; [done |].
      by destruct (299 <? status resp)%Z eqn:H299; [lia |].
Qed.

(** X25. The loop of [registerSuperUser] sends at most one request, never
    changes [app], and logs nothing but the line about passwords that
    differ: the line about a failed registration is never printed. *)
Theorem attempts_single_request fuel o email password st :
  ∃ new,
    transcript (attempts fuel o email password st).1 = transcript st ++ new ∧
    app (attempts fuel o email password st).1 = app st ∧
    (requests new ≤ 1)%nat ∧
    ∀ line, Logged line ∈ new → line = "Passwords don't match. Please try again".
Proof.
  destruct (attempts_run fuel o email password st) as (new & Htr & Happ & Hrun).
  exists new. split; [done |]. split; [done |]. split.
  - by eapply loop_run_requests.
  - intros line. by eapply loop_run_logs.
Qed.

(** X26. A request sent by the loop of [registerSuperUser] is the request
    for [auth/local/registersuper]; the email address in it was given in
    the options or typed at a prompt, and the password was given or typed
    twice, the same both times. *)
Theorem attempts_sends_confirmed fuel o email password st new req answer :
  transcript (attempts fuel o email password st).1 = transcript st ++ new →
  Fetched req answer ∈ new →
  ∃ hp em pw,
    req = request_to hp "auth/local/registersuper" (Some (em, pw)) o ∧
    entered email em new ∧ confirmed password pw new.
Proof.
  intros Hnew Hin.
  destruct (attempts_run fuel o email password st) as (new' & Htr & _ & Hrun).
  rewrite Htr in Hnew. apply app_inv_head in Hnew as <-.
  by destruct (loop_run_fetched _ _ _ _ _ _ _ Hrun Hin).
Qed.

(** X27. When the server refuses the registration with the code
    [VALIDATION_FAILED], the loop of [registerSuperUser] does not go
    round again: reading [e.data.errors] throws, and the call is rejected
    with that [TypeError]. *)
Theorem attempts_validation_failed fuel o email password st new req resp msg :
  transcript (attempts fuel o email password st).1 = transcript st ++ new →
  Fetched req (inl resp) ∈ new →
  (299 < status resp)%Z →
  json resp = Some (Some (msg, Some "VALIDATION_FAILED")) →
  (attempts fuel o email password st).2 = Rejected type_error.
Proof.
  intros Hnew Hin Hstatus Hjson.
  destruct (attempts_run fuel o email password st) as (new' & Htr & _ & Hrun).
  rewrite Htr in Hnew. apply app_inv_head in Hnew as <-.
  destruct (loop_run_fetched _ _ _ _ _ _ _ Hrun Hin) as [-> _].
  unfold settle. rewrite Hjson.
  destruct (status resp =? 204)%Z eqn:H204; [lia |].
  destruct (299 <? status resp)%Z eqn:H299; [| lia].
  reflexivity.
Qed.

(** X28. Once [startApp] has returned the application, [app] is set and
    every later call returns it at once, doing nothing. *)
Theorem startApp_cached cwd st :
  (startApp cwd st).2 = Fulfilled true →
  app (startApp cwd st).1 = true ∧
  ∀ cwd', startApp cwd' (startApp cwd st).1 = ((startApp cwd st).1, Fulfilled true).
Proof.
  intros Hstarted.
  assert (app (startApp cwd st).1 = true) as Happ.
  { revert Hstarted. unfold Register.startApp.
    destruct (app st) eqn:Happ; [done |].
    destruct (import_core E _ _) as [[] | f]; [| done].
    by destruct (on_ready E _) as [[] | f]. }
  split; [done |]. intros cwd'.
  unfold Register.startApp at 1. by rewrite Happ.
Qed.

Lemma starts_app l1 l2 : starts (l1 ++ l2) = (starts l1 + starts l2)%nat.
Proof. unfold starts. by rewrite filter_app, length_app. Qed.

Lemma starts_prompts l : Forall prompt l → starts l = 0%nat.
Proof.
  unfold starts. induction 1 as [| ev l Hev _ IH]; [done |].
  destruct ev; try done; by rewrite filter_cons_False.
Qed.

Lemma loop_run_starts o email password new r :
  loop_run o email password new r → starts new = 0%nat.
Proof.
  intros (prompts & tail & -> & Hprompts & Hrun).
  rewrite starts_app, (starts_prompts prompts Hprompts).
  by destruct Hrun as [[-> _] | (em & pw & _ & _ & [(a & _ & -> & _) | (hp & a & -> & _)])].
Qed.

Lemma startApp_run cwd st :
  ∃ new,
    transcript (startApp cwd st).1 = transcript st ++ new ∧
    requests new = 0%nat ∧
    starts new = (if app st then 0 else 1)%nat.
Proof.
  unfold Register.startApp. destruct (app st).
  { exists []. by rewrite app_nil_r. }
  destruct (import_core E _ _) as [[] | f]; simpl.
  - destruct (on_ready E _) as [[] | f]; simpl.
    + eexists [_; _; _]. by rewrite <- !app_assoc.
    + eexists [_; _; _; _]. by rewrite <- !app_assoc.
  - by eexists [_].
Qed.

Lemma entered_run fuel o st :
  ∃ new,
    transcript
      (if pipePasswd o
       then match Register.getPipedPassword E st with
            | (st, Fulfilled line) => attempts fuel o (superEmail o) (Some line) st
            | (st, Rejected e) => (st, Rejected e)
            | (st, Pending) => (st, Pending)
            end
       else attempts fuel o (superEmail o) (superPassword o) st).1
      = transcript st ++ new ∧
    (requests new ≤ 1)%nat ∧ starts new = 0%nat.
Proof.
  destruct (pipePasswd o).
  - unfold Register.getPipedPassword.
    destruct (read_line E (transcript st)) as [line |].
    + destruct (attempts_run fuel o (superEmail o) (Some line) (record (ReadLine (Some line)) st))
        as (new & -> & _ & Hrun).
      exists (ReadLine (Some line) :: new). simpl. rewrite <- app_assoc.
      split; [done |]. split.
      * apply loop_run_requests in Hrun. unfold requests in *.
        rewrite filter_cons_False; [exact Hrun | simpl; tauto].
      * apply loop_run_starts in Hrun. unfold starts in *.
        rewrite filter_cons_False; [exact Hrun | simpl; tauto].
    + exists [ReadLine None]. split; [done | split; [| done]].
      unfold requests. simpl. lia.
  - destruct (attempts_run fuel o (superEmail o) (superPassword o) st)
      as (new & -> & _ & Hrun).
    exists new. split; [done |]. split.
    + by eapply loop_run_requests.
    + by eapply loop_run_starts.
Qed.

(** X29. [registerSuperUser] sends at most two requests, the first one and
    one registration, and it imports the core module to start the
    application exactly when the first request is refused with
    [ECONNREFUSED] while [app] is not set; otherwise it never does. *)
Theorem registerSuperUser_run fuel o st :
  ∃ new,
    transcript (registerSuperUser fuel o st).1 = transcript st ++ new ∧
    (requests new ≤ 2)%nat ∧
    starts new =
      (if refused (internalApiRequest "" None (with_GET o) st).2 && negb (app st)
       then 1 else 0)%nat.
Proof.
  unfold Register.registerSuperUser.
  assert (app (internalApiRequest "" None (with_GET o) st).1 = app st ∧
          ∃ first, transcript (internalApiRequest "" None (with_GET o) st).1
                     = transcript st ++ first ∧
                   (requests first ≤ 1)%nat ∧ starts first = 0%nat)
    as (Happ & first & Hfirst & Hrequests & Hstarts).
  { destruct (internalApiRequest_run "" None (with_GET o) st)
      as [(answer & _ & ->) | (hp & answer & ->)]; simpl; (split; [done |]).
    - eexists [_]. split; [reflexivity | split; [| reflexivity]].
      unfold requests. simpl. lia.
    - eexists [_; _]. rewrite <- app_assoc.
      split; [reflexivity | split; [| reflexivity]].
      unfold requests. simpl. lia. }
  destruct (internalApiRequest "" None (with_GET o) st) as [st1 [[] | e |]];
    simpl in Happ, Hfirst |- *.
  - destruct (entered_run fuel o st1) as (new & Hnew_tr & Hnew & Hnone).
    exists (first ++ new). rewrite requests_app, starts_app.
    split; [| split; lia].
    etrans; [exact Hnew_tr |]. by rewrite Hfirst, <- app_assoc.
  - destruct (bool_decide (code e = Some "ECONNREFUSED")); simpl.
    + destruct (startApp_run (cwd o) st1) as (started & Hstarted & Hquiet & Hcount).
      rewrite Happ in Hcount.
      assert (starts started = (if negb (app st) then 1 else 0)%nat) as Hcount'
        by by destruct (app st).
      destruct (startApp (cwd o) st1) as [st2 [b | e' |]]; simpl in Hstarted.
      * destruct (entered_run fuel o st2) as (new & Hnew_tr & Hnew & Hnone).
        exists (first ++ started ++ new). rewrite !requests_app, !starts_app.
        split; [| split; lia].
        etrans; [exact Hnew_tr |]. by rewrite Hstarted, Hfirst, <- !app_assoc.
      * exists (first ++ started). simpl. rewrite !requests_app, !starts_app.
        split; [| split; lia]. by rewrite Hstarted, Hfirst, <- !app_assoc.
      * exists (first ++ started). simpl. rewrite !requests_app, !starts_app.
        split; [| split; lia]. by rewrite Hstarted, Hfirst, <- !app_assoc.
    + exists first. simpl. repeat split; [done | lia | done].
  - exists first. simpl. repeat split; [done | lia | done].
Qed.

End register_proofs.

Section register_witnesses.
Import Cli Register.

Lemma attempts_sends_confirmed_witness :
  ∃ hp em pw,
    {| url := "http://localhost:5000/api/auth/local/registersuper";
       method := "POST";
       headers := [("Content-Type", "application/json")];
       body := Some (Some "admin", Some "secret") |}
      = request_to hp "auth/local/registersuper" (Some (em, pw)) sample_options ∧
    entered None em (transcript (attempts sample_env "/srv" 5 sample_options None None fresh).1) ∧
    confirmed None pw (transcript (attempts sample_env "/srv" 5 sample_options None None fresh).1).
Proof.
  apply (attempts_sends_confirmed sample_env "/srv" 5 sample_options None None fresh _ _
           (inl {| status := 400;
                   json := Some (Some (Some "invalid email", Some "VALIDATION_FAILED")) |})).
  - reflexivity.
  - vm_compute. repeat constructor.
Defined.

Lemma attempts_validation_failed_witness :
  (attempts sample_env "/srv" 5 sample_options None None fresh).2 = Rejected type_error.
Proof.
  apply (attempts_validation_failed sample_env "/srv" 5 sample_options None None fresh
           (transcript (attempts sample_env "/srv" 5 sample_options None None fresh).1)
           {| url := "http://localhost:5000/api/auth/local/registersuper";
              method := "POST";
              headers := [("Content-Type", "application/json")];
              body := Some (Some "admin", Some "secret") |}
           {| status := 400;
              json := Some (Some (Some "invalid email", Some "VALIDATION_FAILED")) |}
           (Some "invalid email")).
  - reflexivity.
  - vm_compute. repeat constructor.
  - simpl. lia.
  - reflexivity.
Defined.

Lemma startApp_cached_witness :
  app (startApp sample_env "/srv" None fresh).1 = true ∧
  ∀ cwd', startApp sample_env "/srv" cwd' (startApp sample_env "/srv" None fresh).1
          = ((startApp sample_env "/srv" None fresh).1, Fulfilled true).
Proof. apply (startApp_cached sample_env "/srv" None fresh). reflexivity. Defined.

End register_witnesses.
